(** * Mx toolkit: style properties, notification batching and shorthand parsing

    A shallow embedding of [mx/mx-types.c] and [mx/mx-stylable.c].

    The two C files lean on GLib and libc.  The pieces of those libraries
    that the Mx code calls are embedded first, in [Module GLib], from their
    C implementations; the Mx functions follow, one Rocq definition per C
    function, under the C function's name. *)

From Stdlib Require Import ZArith Ascii String List Bool Lia.
From Stdlib Require DecimalString DecimalN DecimalPos.
From stdpp Require Import base option list strings gmap fin_maps.

Open Scope Z_scope.

(** ** Strings as the C code sees them *)

Module GLib.

(** A [gchar*] that may be [NULL] is an [option string]; a string vector
    ([gchar**], [NULL]-terminated) is a [list string], the terminator being
    the position just past the last token. *)

Definition dquote : ascii := ascii_of_nat 34.
Definition squote : ascii := ascii_of_nat 39.
Definition slash : ascii := ascii_of_nat 47.

Definition str1 (c : ascii) : string := String c EmptyString.

(** [strv[i]]: a token, the [NULL] terminator at [i = g_strv_length strv]
    (read as [None]). The Mx code never indexes further than that. *)
Definition strv_get (strv : list string) (i : nat) : option string := strv !! i.

Definition g_strv_length (strv : list string) : Z := Z.of_nat (length strv).

(** The scanning loop shared by [g_strsplit] (single-character delimiter)
    and [g_strsplit_set]: [current] is the token being accumulated, [s] the
    rest of the input.  Every delimiter closes a token, also an empty one;
    the end of the input closes the last token. *)
Fixpoint split_loop (is_delim : ascii -> bool) (s current : string) : list string :=
  match s with
  | EmptyString => [current]
  | String c s' =>
      if is_delim c
      then current :: split_loop is_delim s' EmptyString
      else split_loop is_delim s' (current +:+ str1 c)
  end.

(** [g_strsplit (string, delimiter, 0)] for a one-character [delimiter]:
    the empty string gives the empty vector, otherwise the input is cut at
    every occurrence of the delimiter. *)
Definition g_strsplit (str : string) (delimiter : ascii) : list string :=
  match str with
  | EmptyString => []
  | _ => split_loop (Ascii.eqb delimiter) str EmptyString
  end.

(** [g_strsplit_set (string, delimiters, 0)]: as above, cutting at every
    character that occurs in [delimiters]. *)
Definition in_set (delimiters : list ascii) (c : ascii) : bool :=
  existsb (Ascii.eqb c) delimiters.

Definition g_strsplit_set (str : string) (delimiters : list ascii) : list string :=
  match str with
  | EmptyString => []
  | _ => split_loop (in_set delimiters) str EmptyString
  end.

(** [g_strjoinv]: the inverse direction, used to state what splitting does. *)
Fixpoint g_strjoinv (separator : string) (strv : list string) : string :=
  match strv with
  | [] => EmptyString
  | [t] => t
  | t :: rest => t +:+ separator +:+ g_strjoinv separator rest
  end.

(** *** libc: [isspace], [isdigit], [strtol], [atoi] *)

Definition isspace (c : ascii) : bool :=
  let n := nat_of_ascii c in
  Nat.eqb n 32 || (Nat.leb 9 n && Nat.leb n 13).

Definition isdigit (c : ascii) : bool :=
  let n := nat_of_ascii c in Nat.leb 48 n && Nat.leb n 57.

Definition digit_value (c : ascii) : Z := Z.of_nat (nat_of_ascii c) - 48.

Fixpoint skip_space (s : string) : string :=
  match s with
  | String c s' => if isspace c then skip_space s' else s
  | EmptyString => s
  end.

(** The digits at the front of [s], accumulated in base 10. *)
Fixpoint digits (s : string) (acc : Z) : Z :=
  match s with
  | String c s' => if isdigit c then digits s' (acc * 10 + digit_value c) else acc
  | EmptyString => acc
  end.

Definition LONG_MAX : Z := 2 ^ 63 - 1.
Definition LONG_MIN : Z := - 2 ^ 63.

(** [strtol (s, NULL, 10)]: leading white space, an optional sign, then the
    longest run of decimal digits; no digits give 0; out-of-range values
    saturate. *)
Definition strtol (s : string) : Z :=
  let s := skip_space s in
  let '(neg, s) :=
    match s with
    | String c s' =>
        if Ascii.eqb c "-" then (true, s')
        else if Ascii.eqb c "+" then (false, s')
        else (false, s)
    | EmptyString => (false, s)
    end in
  let v := digits s 0 in
  let v := if neg then - v else v in
  Z.max LONG_MIN (Z.min LONG_MAX v).

(** Conversion of a [long] to a 32-bit [int] (two's complement wrap). *)
Definition to_int (v : Z) : Z := (v + 2 ^ 31) mod 2 ^ 32 - 2 ^ 31.

(** [atoi (s)] is [(int) strtol (s, NULL, 10)], as in glibc (the C standard
    leaves the result open when the number does not fit an [int]). *)
Definition atoi (s : string) : Z := to_int (strtol s).

(** *** [strrchr], [g_path_get_dirname], [g_strconcat] *)

(** Index of the last occurrence of [c] in [s], scanning from index [i]. *)
Fixpoint strrchr_from (s : string) (c : ascii) (i : nat) (last : option nat) : option nat :=
  match s with
  | EmptyString => last
  | String x s' =>
      strrchr_from s' c (S i) (if Ascii.eqb x c then Some i else last)
  end.

Definition strrchr (s : string) (c : ascii) : option nat := strrchr_from s c 0 None.

(** [while (base > file_name && G_IS_DIR_SEPARATOR ( *base)) base--;] *)
Fixpoint dirname_back (file_name : string) (base : nat) : nat :=
  match base with
  | O => O
  | S b =>
      match String.get base file_name with
      | Some x => if Ascii.eqb x slash then dirname_back file_name b else base
      | None => base
      end
  end.

(** [g_path_get_dirname] (the Unix branch): ["."] when there is no
    separator, otherwise the text before the last run of separators
    (the root ["/"] when nothing precedes it). [NULL] in, [NULL] out. *)
Definition dirname (file_name : string) : string :=
  match strrchr file_name slash with
  | None => "."%string
  | Some base => String.substring 0 (1 + dirname_back file_name base) file_name
  end.

Definition g_path_get_dirname (file_name : option string) : option string :=
  match file_name with
  | None => None
  | Some f => Some (dirname f)
  end.

(** [g_strconcat (a, b, c, NULL)]: [NULL] when the first argument is [NULL]. *)
Definition g_strconcat3 (a : option string) (b c : string) : option string :=
  match a with
  | None => None
  | Some a => Some (a +:+ b +:+ c)
  end.

End GLib.

(** ** [mx-types.c]: shorthand values *)

Module MxTypes.
Import GLib.

(** A run of C code either returns, or stops at the dereference of a
    [NULL] pointer. *)
Inductive run (A : Type) : Type :=
  | Done (a : A)
  | NullDeref.
Arguments Done {A} a.
Arguments NullDeref {A}.

Definition bind {A B} (m : run A) (k : A -> run B) : run B :=
  match m with
  | Done a => k a
  | NullDeref => NullDeref
  end.

Notation "'let*' x := m 'in' k" := (bind m (fun x => k))
  (at level 10, x name, m at level 100, k at level 200).

(** Reading through a [gchar*]: [NULL] cannot be read. *)
Definition deref {A} (p : option A) : run A :=
  match p with
  | Some a => Done a
  | None => NullDeref
  end.

(** [atoi (strv[i])] *)
Definition atoi_at (strv : list string) (i : nat) : run Z :=
  let* t := deref (strv_get strv i) in Done (atoi t).

(** Modelled from the spec: the struct [MxPadding] is declared in
    [mx-types.h], which is missing; the spec gives it as four integers top,
    right, bottom, left, all zero by default. *)
Record MxPadding : Type := {
  top : Z;
  right : Z;
  bottom : Z;
  left : Z
}.

(** [MxPadding padding = { 0, };] *)
Definition padding_zero : MxPadding :=
  {| top := 0; right := 0; bottom := 0; left := 0 |}.

(** [mx_padding_from_string]: [src] is the string held by the source
    [GValue] ([None] for [NULL]); the result is the padding boxed into
    [dest].  ([g_strsplit] never returns [NULL] for a non-[NULL] string, so
    the second early return of the C function is not reachable.) *)
Definition mx_padding_from_string (src : option string) : run MxPadding :=
  match src with
  | None => Done padding_zero
  | Some str =>
      let strv := g_strsplit str " " in
      match g_strv_length strv with
      | 1 =>
          let* v0 := atoi_at strv 0 in
          Done {| top := v0; right := v0; bottom := v0; left := v0 |}
      | 2 =>
          let* v0 := atoi_at strv 0 in
          let* v1 := atoi_at strv 1 in
          Done {| top := v0; right := v1; bottom := v0; left := v1 |}
      | 3 =>
          let* v0 := atoi_at strv 0 in
          let* v1 := atoi_at strv 1 in
          let* v2 := atoi_at strv 2 in
          Done {| top := v0; right := v1; bottom := v2; left := v1 |}
      | 4 =>
          let* v0 := atoi_at strv 0 in
          let* v1 := atoi_at strv 1 in
          let* v2 := atoi_at strv 2 in
          let* v3 := atoi_at strv 3 in
          Done {| top := v0; right := v1; bottom := v2; left := v3 |}
      | _ => Done padding_zero
      end
  end.

(** Modelled from the spec: the struct [MxBorderImage] is declared in
    [mx-types.h], which is missing; the spec gives it as a uri and four
    integer insets.  The uri is a [gchar*], [NULL] in the zero-initialised
    value. *)
Record MxBorderImage : Type := {
  uri : option string;
  bi_top : Z;
  bi_right : Z;
  bi_bottom : Z;
  bi_left : Z
}.

(** [MxBorderImage border_image = { 0, };] *)
Definition border_image_zero : MxBorderImage :=
  {| uri := None; bi_top := 0; bi_right := 0; bi_bottom := 0; bi_left := 0 |}.

(** The one [g_warning] of this file, with the text it is given. *)
Inductive diagnostic : Type :=
  | CouldNotParseBorderImage (str : string).

(** The delimiter set of the [g_strsplit_set] call: space, opening
    parenthesis, double quote, single quote, closing parenthesis. *)
Definition border_image_delimiters : list ascii :=
  [" "; "("; dquote; squote; ")"]%char.

(** [g_strcmp0 (a, b) != 0] *)
Definition g_strcmp0_differs (a b : option string) : bool :=
  match a, b with
  | Some a, Some b => negb (String.eqb a b)
  | None, None => false
  | _, _ => true
  end.

(** [s[0] == '/'] *)
Definition starts_with_slash (s : string) : bool :=
  match s with
  | String c _ => Ascii.eqb c slash
  | EmptyString => false
  end.

(** [mx_border_image_set_from_string (dest, str, filename)]: the value
    boxed into [dest] and the warnings logged, or the [NULL] dereference
    at which the function stops. *)
Definition mx_border_image_set_from_string (str filename : option string)
  : run (MxBorderImage * list diagnostic) :=
  (* [strcmp (str, "none")] reads [str] *)
  let* str := deref str in
  if String.eqb str "none" then Done (border_image_zero, [])
  else
    let strv := g_strsplit_set str border_image_delimiters in
    let n_tokens := g_strv_length strv in
    if n_tokens <? 2 then
      Done (border_image_zero, [CouldNotParseBorderImage str])
    else if g_strcmp0_differs (strv_get strv 0) (Some "url"%string) then
      Done (border_image_zero, [CouldNotParseBorderImage str])
    else
      (* check for relative path *)
      let* path := deref (strv_get strv 2) in
      let uri :=
        if starts_with_slash path then Some path
        else g_strconcat3 (g_path_get_dirname filename) "/" path in
      if n_tokens =? 6 then (* one *)
        let* v5 := atoi_at strv 5 in
        Done ({| uri := uri; bi_top := v5; bi_right := v5;
                 bi_bottom := v5; bi_left := v5 |}, [])
      else if n_tokens =? 7 then (* two *)
        let* v5 := atoi_at strv 5 in
        let* v6 := atoi_at strv 6 in
        Done ({| uri := uri; bi_top := v5; bi_right := v6;
                 bi_bottom := v5; bi_left := v6 |}, [])
      else if n_tokens =? 8 then (* three *)
        let* v5 := atoi_at strv 5 in
        let* v6 := atoi_at strv 6 in
        let* v7 := atoi_at strv 7 in
        Done ({| uri := uri; bi_top := v5; bi_right := v6;
                 bi_bottom := v7; bi_left := v6 |}, [])
      else if n_tokens =? 9 then (* four *)
        let* v5 := atoi_at strv 5 in
        let* v6 := atoi_at strv 6 in
        let* v7 := atoi_at strv 7 in
        let* v8 := atoi_at strv 8 in
        Done ({| uri := uri; bi_top := v5; bi_right := v6;
                 bi_bottom := v7; bi_left := v8 |}, [])
      else
        Done ({| uri := uri; bi_top := 0; bi_right := 0;
                 bi_bottom := 0; bi_left := 0 |}, []).

End MxTypes.

(** ** [mx-stylable.c]: the stylable interface *)

Module MxStylable.

(** *** GObject, as much of it as [mx-stylable.c] touches *)

(** A [GType] is a number, [0] being [G_TYPE_INVALID] (and "no parent"). *)
Abbreviation GType := N.
Definition G_TYPE_INVALID : GType := 0%N.

(** Quarks are interned strings: two quarks are equal exactly when their
    strings are, so a quark is identified with its string. *)
Abbreviation GQuark := string.
Definition g_quark_from_string (s : string) : GQuark := s.

(** [GParamFlags] *)
Definition G_PARAM_READABLE : Z := 1.
Definition G_PARAM_WRITABLE : Z := 2.
Definition G_PARAM_CONSTRUCT : Z := 4.
Definition G_PARAM_CONSTRUCT_ONLY : Z := 8.

(** A [GParamSpec]: the fields that the file reads or writes.  [owner_type]
    is [0] until the pool stores the spec; the data list of the spec holds
    the name of the real owner under [quark_real_owner].  Style properties
    are ordinary specs (no [GParamSpecOverride]), so none has a redirect
    target.  Two specs stored in one pool differ in owner type or in name,
    so comparing the records is comparing the pointers. *)
Record GParamSpec : Type := {
  name : string;
  flags : Z;
  value_type : GType;
  owner_type : GType;
  pspec_qdata : gmap GQuark string
}.

#[global] Instance GParamSpec_eq_dec : EqDecision GParamSpec.
Proof. solve_decision. Defined.

(** [GObjectNotifyQueue] *)
Record GObjectNotifyQueue : Type := {
  pspecs : list GParamSpec;
  n_pspecs : Z;
  freeze_count : Z
}.

(** Pointers to objects; [NULL] is [None]. *)
Abbreviation pointer := (option positive).

(** What a data list entry can hold here: a pointer to an object or a
    notify queue; and the destroy function registered with it. *)
Inductive gdata : Type :=
  | DataObject (p : positive)
  | DataNotifyQueue (nqueue : GObjectNotifyQueue).

Inductive GDestroyNotify : Type :=
  | no_destroy
  | destroy_g_object_unref
  | destroy_g_object_notify_queue_free.

Record GObject : Type := {
  g_type : GType;
  ref_count : positive;
  floating : bool;
  qdata : gmap GQuark (gdata * GDestroyNotify)
}.

(** Signals of the interface. *)
Inductive signal : Type := STYLE_CHANGED | STYLE_NOTIFY | CHANGED.

(** Values handed to signal handlers. *)
Inductive gvalue : Type :=
  | VObject (p : pointer)
  | VParam (pspec : GParamSpec).

(** What the outside world sees, in order: diagnostics ([g_return_if_fail]
    failures are criticals, the rest are the [g_warning]s of the file and
    the one of [g_param_spec_pool_insert]), signal emissions as the
    handlers receive them, and calls of [g_object_notify]. *)
Inductive event : Type :=
  | Critical (assertion : string)
  | WarnNotFrozen (stylable : positive)
  | WarnNoStyleProperty (stylable : positive) (property_name : string)
  | WarnAlreadyContains (owner : GType) (property_name : string)
  | WarnInvalidCharacters (property_name : string)
  | SignalEmit (instance : positive) (sig : signal) (detail : option GQuark)
               (args : list gvalue)
  | ObjectNotify (object : positive) (property_name : string).

(** The process state: live objects, the static [style_property_spec_pool]
    (keyed by owner type and name, as the pool's hash table is), and the
    events so far. *)
Record World : Type := {
  heap : gmap positive GObject;
  style_property_spec_pool : gmap (GType * string) GParamSpec;
  trace : list event
}.

Definition log (e : event) (w : World) : World :=
  {| heap := heap w;
     style_property_spec_pool := style_property_spec_pool w;
     trace := trace w ++ [e] |}.

Definition set_heap (h : gmap positive GObject) (w : World) : World :=
  {| heap := h;
     style_property_spec_pool := style_property_spec_pool w;
     trace := trace w |}.

Definition set_pool (pool : gmap (GType * string) GParamSpec) (w : World) : World :=
  {| heap := heap w;
     style_property_spec_pool := pool;
     trace := trace w |}.

(** [G_IS_OBJECT (p)]: the object behind a pointer, if it is one. *)
Definition object_at (w : World) (p : pointer) : option GObject :=
  match p with
  | Some a => heap w !! a
  | None => None
  end.

Definition with_ref_count (o : GObject) (n : positive) : GObject :=
  {| g_type := g_type o; ref_count := n; floating := floating o; qdata := qdata o |}.

Definition with_floating (o : GObject) (b : bool) : GObject :=
  {| g_type := g_type o; ref_count := ref_count o; floating := b; qdata := qdata o |}.

Definition with_qdata (o : GObject) (d : gmap GQuark (gdata * GDestroyNotify)) : GObject :=
  {| g_type := g_type o; ref_count := ref_count o; floating := floating o; qdata := d |}.

(** [g_object_ref]: one more reference; on anything that is not an object,
    a critical and [NULL]. *)
Definition g_object_ref (p : pointer) (w : World) : pointer * World :=
  match p, object_at w p with
  | Some a, Some o =>
      (p, set_heap (<[a := with_ref_count o (Pos.succ (ref_count o))]> (heap w)) w)
  | _, _ => (None, log (Critical "G_IS_OBJECT (object)") w)
  end.

(** [g_object_unref]: one reference less; when that was the last one the
    object is finalised and leaves the heap.  Finalising runs code of the
    class of the object and clears its data list, which releases what the
    list holds; that is outside this model, which takes the object away and
    leaves every other object as it is.  What is proved of reference counts
    is proved for calls that finalise nothing, or nothing that holds an
    object. *)
Definition g_object_unref (p : pointer) (w : World) : World :=
  match p, object_at w p with
  | Some a, Some o =>
      if (1 <? ref_count o)%positive
      then set_heap (<[a := with_ref_count o (Pos.pred (ref_count o))]> (heap w)) w
      else set_heap (delete a (heap w)) w
  | _, _ => log (Critical "G_IS_OBJECT (object)") w
  end.

(** [g_object_ref_sink]: takes over the floating reference of a floating
    object, adds a reference to any other; a failed check returns the
    pointer as it came. *)
Definition g_object_ref_sink (p : pointer) (w : World) : pointer * World :=
  match p, object_at w p with
  | Some a, Some o =>
      if floating o
      then (p, set_heap (<[a := with_floating o false]> (heap w)) w)
      else (p, set_heap (<[a := with_ref_count o (Pos.succ (ref_count o))]> (heap w)) w)
  | _, _ => (p, log (Critical "G_IS_OBJECT (object)") w)
  end.

(** Running a destroy function on the data it was registered with. *)
Definition run_destroy (entry : gdata * GDestroyNotify) (w : World) : World :=
  match entry with
  | (DataObject p, destroy_g_object_unref) => g_object_unref (Some p) w
  | _ => w
  end.

(** [g_object_get_data (object, key)] / [g_object_get_qdata (object, quark)] *)
Definition g_object_get_data (object : pointer) (key : string) (w : World) : option gdata :=
  match object_at w object with
  | Some o => fst <$> qdata o !! key
  | None => None
  end.

(** [g_object_set_qdata_full (object, quark, data, destroy)]: stores the
    entry ([NULL] data removes it), then destroys the entry it replaced. *)
Definition g_object_set_qdata_full (object : pointer) (quark : GQuark)
    (data : option gdata) (destroy : GDestroyNotify) (w : World) : World :=
  match object, object_at w object with
  | Some a, Some o =>
      let old := qdata o !! quark in
      let d := match data with
               | Some v => <[quark := (v, destroy)]> (qdata o)
               | None => delete quark (qdata o)
               end in
      let w := set_heap (<[a := with_qdata o d]> (heap w)) w in
      match old with
      | Some entry => run_destroy entry w
      | None => w
      end
  | _, _ => log (Critical "G_IS_OBJECT (object)") w
  end.

(** [g_signal_emit (instance, signal_id, detail, ...)]: the handlers get
    as many of the variadic arguments as the signal was created with
    parameters.  [mx_stylable_base_init] creates [style-changed] and
    [stylable-changed] with [G_TYPE_NONE, 0] (no parameter) and
    [style-notify] with [G_TYPE_NONE, 1, G_TYPE_PARAM]. *)
Definition signal_n_params (sig : signal) : nat :=
  match sig with
  | STYLE_CHANGED => 0
  | CHANGED => 0
  | STYLE_NOTIFY => 1
  end.

Definition g_signal_emit (instance : pointer) (sig : signal)
    (detail : option GQuark) (varargs : list gvalue) (w : World) : World :=
  match instance, object_at w instance with
  | Some a, Some _ =>
      log (SignalEmit a sig detail (take (signal_n_params sig) varargs)) w
  | _, _ => log (Critical "G_TYPE_CHECK_INSTANCE (instance)") w
  end.

(** [g_object_notify (object, property_name)], recorded as the call it is. *)
Definition g_object_notify (object : pointer) (property_name : string)
    (w : World) : World :=
  match object, object_at w object with
  | Some a, Some _ => log (ObjectNotify a property_name) w
  | _, _ => log (Critical "G_IS_OBJECT (object)") w
  end.

(** *** The interface table and the type system *)

(** [MxStylableIface]: the two virtual functions that the claims are about.
    A slot left [NULL] is [None].  An implementation of [get_style] reads
    the state; one of [set_style] changes it. *)
Record MxStylableIface : Type := {
  get_style : option (pointer -> World -> pointer);
  set_style : option (pointer -> pointer -> World -> World)
}.

(** What the file asks of the GType system: parent, name and depth of a
    type, the [MxStylable] table of the types that implement the interface,
    and which types are [MxStyle]s. *)
Record TypeSystem : Type := {
  g_type_parent : GType -> GType;
  g_type_name : GType -> option string;
  g_type_depth : GType -> nat;
  stylable_iface : GType -> option MxStylableIface;
  is_mx_style : GType -> bool
}.

(** The static quarks, as [mx_stylable_base_init] sets them. *)
Definition quark_real_owner : GQuark :=
  g_quark_from_string "mx-stylable-real-owner-quark".
Definition quark_style : GQuark :=
  g_quark_from_string "mx-stylable-style-quark".
Definition quark_notify_queue : GQuark :=
  g_quark_from_string "MxStylable-style-property-notify-queue".

(** *** [GParamSpecPool] *)

(** [param_spec_ht_lookup] with [walk_ancestors]: the exact type first,
    then parent after parent while there is one.  A type has
    [g_type_depth] ancestors at most, itself included. *)
Fixpoint param_spec_ht_walk (ts : TypeSystem) (fuel : nat)
    (pool : gmap (GType * string) GParamSpec)
    (param_name : string) (owner : GType) : option GParamSpec :=
  match pool !! (owner, param_name) with
  | Some pspec => Some pspec
  | None =>
      match fuel with
      | O => None
      | S fuel' =>
          let parent := g_type_parent ts owner in
          if (parent =? 0)%N then None
          else param_spec_ht_walk ts fuel' pool param_name parent
      end
  end.

(** [is_canonical] and [canonicalize_key] of [gparam.c], as in the GLib of
    the time of this code: a canonical name has letters, digits and [-]
    only; canonicalizing puts [-] for every other character.  (Later
    versions treat only [_] so; the two agree on names of letters, digits,
    [-] and [_].) *)
Definition not_canonical_char (c : ascii) : bool :=
  let n := N_of_ascii c in
  negb (Ascii.eqb c "-")
  && ((n <? 48) || (57 <? n))%N
  && ((n <? 65) || (90 <? n))%N
  && ((n <? 97) || (122 <? n))%N.

Fixpoint is_canonical (key : string) : bool :=
  match key with
  | EmptyString => true
  | String c key' => if not_canonical_char c then false else is_canonical key'
  end.

Fixpoint canonicalize_key (key : string) : string :=
  match key with
  | EmptyString => EmptyString
  | String c key' =>
      String (if not_canonical_char c then "-"%char else c) (canonicalize_key key')
  end.

(** [param_spec_ht_lookup]: the name as it is given first; when that finds
    nothing and the name is not canonical, the canonical form of the name,
    from [owner_type] again. *)
Definition param_spec_ht_lookup (ts : TypeSystem)
    (pool : gmap (GType * string) GParamSpec)
    (param_name : string) (owner : GType) (walk_ancestors : bool)
  : option GParamSpec :=
  let find := fun key_name : string =>
    if walk_ancestors
    then param_spec_ht_walk ts (g_type_depth ts owner) pool key_name owner
    else pool !! (owner, key_name) in
  match find param_name with
  | Some pspec => Some pspec
  | None =>
      if is_canonical param_name then None
      else (* try canonicalized form *)
        find (canonicalize_key param_name)
  end.

(** [g_param_spec_pool_lookup (pool, param_name, owner_type, walk_ancestors)];
    the pool does no type prefixing ([g_param_spec_pool_new (FALSE)]). *)
Definition g_param_spec_pool_lookup (ts : TypeSystem)
    (pool : gmap (GType * string) GParamSpec)
    (param_name : string) (owner : GType) (walk_ancestors : bool)
  : option GParamSpec :=
  param_spec_ht_lookup ts pool param_name owner walk_ancestors.

Definition with_owner_type (pspec : GParamSpec) (owner : GType) : GParamSpec :=
  {| name := name pspec; flags := flags pspec; value_type := value_type pspec;
     owner_type := owner; pspec_qdata := pspec_qdata pspec |}.

(** [g_param_spec_set_qdata_full (pspec, quark, data, destroy)] for string
    data; [NULL] data removes the entry. *)
Definition g_param_spec_set_qdata_full (pspec : GParamSpec) (quark : GQuark)
    (data : option string) : GParamSpec :=
  {| name := name pspec; flags := flags pspec; value_type := value_type pspec;
     owner_type := owner_type pspec;
     pspec_qdata := match data with
                    | Some v => <[quark := v]> (pspec_qdata pspec)
                    | None => delete quark (pspec_qdata pspec)
                    end |}.

(** [strchr (G_CSET_A_2_Z G_CSET_a_2_z G_CSET_DIGITS "-_", c)] *)
Definition pool_name_char (c : ascii) : bool :=
  let n := N_of_ascii c in
  ((65 <=? n) && (n <=? 90))%N || ((97 <=? n) && (n <=? 122))%N
  || ((48 <=? n) && (n <=? 57))%N || Ascii.eqb c "-" || Ascii.eqb c "_".

(** [g_param_spec_pool_insert (pool, pspec, owner_type)]: only a spec that
    no type owns yet is taken, and only under a name of letters, digits,
    [-] and [_]; it is marked with its owner. *)
Definition g_param_spec_pool_insert (pspec : GParamSpec) (owner : GType)
    (w : World) : World :=
  if (0 <? owner)%N && (owner_type pspec =? 0)%N
  then
    if forallb pool_name_char (list_ascii_of_string (name pspec))
    then set_pool (<[(owner, name pspec) := with_owner_type pspec owner]>
                     (style_property_spec_pool w)) w
    else log (WarnInvalidCharacters (name pspec)) w
  else if (0 <? owner)%N
  then log (Critical "pspec->owner_type == 0") w
  else log (Critical "owner_type > 0") w.

(** A [GParamSpec*] is a pointer: what is written through it changes the
    spec wherever it is kept, which is in the pool and in the notify
    queues.  A spec that a type owns is kept as the record that it is; a
    spec that no type owns yet is kept nowhere. *)
Definition written (pspec pspec' kept : GParamSpec) : GParamSpec :=
  if decide (kept = pspec) then pspec' else kept.

Definition written_data (pspec pspec' : GParamSpec)
    (entry : gdata * GDestroyNotify) : gdata * GDestroyNotify :=
  match entry with
  | (DataNotifyQueue nqueue, destroy) =>
      (DataNotifyQueue {| pspecs := written pspec pspec' <$> pspecs nqueue;
                          n_pspecs := n_pspecs nqueue;
                          freeze_count := freeze_count nqueue |}, destroy)
  | _ => entry
  end.

Definition param_spec_write (pspec pspec' : GParamSpec) (w : World) : World :=
  if (owner_type pspec =? 0)%N then w
  else
    {| heap := (fun o => with_qdata o (written_data pspec pspec' <$> qdata o))
               <$> heap w;
       style_property_spec_pool :=
         written pspec pspec' <$> style_property_spec_pool w;
       trace := trace w |}.

(** *** [gobject/gobjectnotifyqueue.c], included by [mx-stylable.c] *)

Definition nqueue_new : GObjectNotifyQueue :=
  {| pspecs := []; n_pspecs := 0; freeze_count := 0 |}.

(** [g_object_notify_queue_from_object] *)
Definition g_object_notify_queue_from_object (object : pointer) (w : World)
  : option GObjectNotifyQueue :=
  match g_object_get_data object quark_notify_queue w with
  | Some (DataNotifyQueue nqueue) => Some nqueue
  | _ => None
  end.

(** Writing through the [nqueue] pointer: the queue is owned by the data
    list of its object. *)
Definition nqueue_store (object : pointer) (nqueue : GObjectNotifyQueue)
    (w : World) : World :=
  match object, object_at w object with
  | Some a, Some o =>
      set_heap (<[a := with_qdata o
                    (<[quark_notify_queue :=
                         (DataNotifyQueue nqueue, destroy_g_object_notify_queue_free)]>
                       (qdata o))]> (heap w)) w
  | _, _ => w
  end.

(** [g_object_notify_queue_freeze]: the queue is made on demand. *)
Definition g_object_notify_queue_freeze (object : pointer) (w : World) : World :=
  let nqueue := match g_object_notify_queue_from_object object w with
                | Some nqueue => nqueue
                | None => nqueue_new
                end in
  if 65535 <=? freeze_count nqueue
  then log (Critical "nqueue->freeze_count < 65535") (nqueue_store object nqueue w)
  else nqueue_store object
         {| pspecs := pspecs nqueue; n_pspecs := n_pspecs nqueue;
            freeze_count := freeze_count nqueue + 1 |} w.

(** In the two functions below the C code holds [nqueue], a pointer to
    the queue of [object]; reading through it is reading the queue that the
    object holds now. *)

(** [g_object_notify_queue_add]: prepends; "we do the deduping in _thaw". *)
Definition g_object_notify_queue_add (object : pointer) (pspec : GParamSpec)
    (w : World) : World :=
  match g_object_notify_queue_from_object object w with
  | None => w
  | Some nqueue =>
      if Z.land (flags pspec) G_PARAM_READABLE =? 0 then w
      else if n_pspecs nqueue <? 65535
      then nqueue_store object
             {| pspecs := pspec :: pspecs nqueue; n_pspecs := n_pspecs nqueue + 1;
                freeze_count := freeze_count nqueue |} w
      else log (Critical "nqueue->n_pspecs < 65535") w
  end.

(** The loop of [g_object_notify_queue_thaw] that copies the pending specs
    into the array [unique], skipping those already there. *)
Fixpoint dedup_loop (slist unique : list GParamSpec) : list GParamSpec :=
  match slist with
  | [] => unique
  | pspec :: rest =>
      if bool_decide (pspec ∈ unique)
      then dedup_loop rest unique
      else dedup_loop rest (unique ++ [pspec])
  end.

(** [mx_stylable_notify_dispatcher] *)
Definition mx_stylable_notify_dispatcher (gobject : pointer)
    (pspecs : list GParamSpec) (w : World) : World :=
  foldl (fun w pspec =>
           g_signal_emit gobject STYLE_NOTIFY
             (Some (g_quark_from_string (name pspec))) [VParam pspec] w)
        w pspecs.

(** [g_object_notify_queue_thaw]; the dispatcher of the context is
    [mx_stylable_notify_dispatcher]. *)
Definition g_object_notify_queue_thaw (object : pointer) (w : World) : World :=
  match g_object_notify_queue_from_object object w with
  | None => w
  | Some nqueue =>
      if freeze_count nqueue <=? 0
      then log (Critical "nqueue->freeze_count > 0") w
      else
        let count := freeze_count nqueue - 1 in
        if negb (count =? 0)
        then nqueue_store object
               {| pspecs := pspecs nqueue; n_pspecs := n_pspecs nqueue;
                  freeze_count := count |} w
        else
          let unique := dedup_loop (pspecs nqueue) [] in
          let w := g_object_set_qdata_full object quark_notify_queue None
                     no_destroy w in
          match unique with
          | [] => w
          | _ => mx_stylable_notify_dispatcher object unique w
          end
  end.

(** *** The functions of [mx-stylable.c] *)

Section Stylable.
Context (ts : TypeSystem).

(** [MX_STYLABLE_GET_IFACE (stylable)], which exists exactly when
    [MX_IS_STYLABLE (stylable)] holds. *)
Definition MX_STYLABLE_GET_IFACE (stylable : pointer) (w : World)
  : option MxStylableIface :=
  match object_at w stylable with
  | Some o => stylable_iface ts (g_type o)
  | None => None
  end.

Definition MX_IS_STYLABLE (stylable : pointer) (w : World) : bool :=
  bool_decide (is_Some (MX_STYLABLE_GET_IFACE stylable w)).

Definition MX_IS_STYLE (style : pointer) (w : World) : bool :=
  match object_at w style with
  | Some o => is_mx_style ts (g_type o)
  | None => false
  end.

(** [G_OBJECT_TYPE (stylable)] *)
Definition G_OBJECT_TYPE (stylable : pointer) (w : World) : GType :=
  match object_at w stylable with
  | Some o => g_type o
  | None => G_TYPE_INVALID
  end.

Definition mx_stylable_freeze_notify (stylable : pointer) (w : World) : World :=
  if negb (MX_IS_STYLABLE stylable w)
  then log (Critical "MX_IS_STYLABLE (stylable)") w
  else
    let w := snd (g_object_ref stylable w) in
    let w := g_object_notify_queue_freeze stylable w in
    g_object_unref stylable w.

Definition mx_stylable_thaw_notify (stylable : pointer) (w : World) : World :=
  match stylable, MX_IS_STYLABLE stylable w with
  | Some a, true =>
      let w := snd (g_object_ref stylable w) in
      let w :=
        match g_object_notify_queue_from_object stylable w with
        | None => log (WarnNotFrozen a) w
        | Some nqueue =>
            if freeze_count nqueue =? 0
            then log (WarnNotFrozen a) w
            else g_object_notify_queue_thaw stylable w
        end in
      g_object_unref stylable w
  | _, _ => log (Critical "MX_IS_STYLABLE (stylable)") w
  end.

Definition mx_stylable_notify (stylable : pointer) (property_name : option string)
    (w : World) : World :=
  match stylable, MX_IS_STYLABLE stylable w with
  | Some a, true =>
      match property_name with
      | None => log (Critical "property_name != NULL") w
      | Some property_name =>
          let w := snd (g_object_ref stylable w) in
          let w :=
            match g_param_spec_pool_lookup ts (style_property_spec_pool w)
                    property_name (G_OBJECT_TYPE stylable w) true with
            | None => log (WarnNoStyleProperty a property_name) w
            | Some pspec =>
                let w := g_object_notify_queue_freeze stylable w in
                let w := g_object_notify_queue_add stylable pspec w in
                g_object_notify_queue_thaw stylable w
            end in
          g_object_unref stylable w
      end
  | _, _ => log (Critical "MX_IS_STYLABLE (stylable)") w
  end.

(** [mx_stylable_iface_install_property (iface, owner_type, pspec)];
    [iface] and [pspec] are [None] when they fail [MX_IS_STYLABLE_IFACE]
    and [G_IS_PARAM_SPEC].  The name of the owner is written into the spec
    before the pool is asked to take it, so it is written also when the
    pool refuses.  (The reference count of the spec, which
    [g_param_spec_ref_sink] raises, is not tracked.) *)
Definition mx_stylable_iface_install_property (iface : option MxStylableIface)
    (owner : GType) (pspec : option GParamSpec) (w : World) : World :=
  match iface, pspec with
  | None, _ => log (Critical "MX_IS_STYLABLE_IFACE (iface)") w
  | Some _, pspec =>
      if (owner =? G_TYPE_INVALID)%N
      then log (Critical "owner_type != G_TYPE_INVALID") w
      else
        match pspec with
        | None => log (Critical "G_IS_PARAM_SPEC (pspec)") w
        | Some pspec =>
            if Z.land (flags pspec) G_PARAM_READABLE =? 0
            then log (Critical "pspec->flags & G_PARAM_READABLE") w
            else if negb (Z.land (flags pspec)
                            (Z.lor G_PARAM_CONSTRUCT_ONLY G_PARAM_CONSTRUCT) =? 0)
            then log (Critical "!(pspec->flags & (G_PARAM_CONSTRUCT_ONLY | G_PARAM_CONSTRUCT))") w
            else
              match g_param_spec_pool_lookup ts (style_property_spec_pool w)
                      (name pspec) owner false with
              | Some _ => log (WarnAlreadyContains owner (name pspec)) w
              | None =>
                  let stamped :=
                    g_param_spec_set_qdata_full pspec quark_real_owner
                      (g_type_name ts owner) in
                  let w := param_spec_write pspec stamped w in
                  g_param_spec_pool_insert stamped owner w
              end
        end
  end.

(** [mx_stylable_find_property] *)
Definition mx_stylable_find_property (stylable : pointer)
    (property_name : option string) (w : World) : option GParamSpec * World :=
  if negb (MX_IS_STYLABLE stylable w)
  then (None, log (Critical "MX_IS_STYLABLE (stylable)") w)
  else
    match property_name with
    | None => (None, log (Critical "property_name != NULL") w)
    | Some property_name =>
        (g_param_spec_pool_lookup ts (style_property_spec_pool w)
           property_name (G_OBJECT_TYPE stylable w) true, w)
    end.

(** The pointer stored in a data list entry. *)
Definition data_pointer (d : option gdata) : pointer :=
  match d with
  | Some (DataObject p) => Some p
  | _ => None
  end.

(** [mx_stylable_get_style] *)
Definition mx_stylable_get_style (stylable : pointer) (w : World)
  : pointer * World :=
  match MX_STYLABLE_GET_IFACE stylable w with
  | None => (None, log (Critical "MX_IS_STYLABLE (stylable)") w)
  | Some iface =>
      match get_style iface with
      | Some f => (f stylable w, w)
      | None => (data_pointer (g_object_get_data stylable "mx-stylable-style" w), w)
      end
  end.

(** [mx_stylable_set_style] *)
Definition mx_stylable_set_style (stylable style : pointer) (w : World) : World :=
  match MX_STYLABLE_GET_IFACE stylable w with
  | None => log (Critical "MX_IS_STYLABLE (stylable)") w
  | Some iface =>
      if negb (MX_IS_STYLE style w)
      then log (Critical "MX_IS_STYLE (style)") w
      else
        let '(old_style, w) := mx_stylable_get_style stylable w in
        let w := snd (g_object_ref old_style w) in
        let w :=
          match set_style iface with
          | Some f => f stylable style w
          | None =>
              let '(sunk, w) := g_object_ref_sink style w in
              g_object_set_qdata_full stylable quark_style
                (DataObject <$> sunk) destroy_g_object_unref w
          end in
        let w := g_signal_emit stylable STYLE_CHANGED None [VObject old_style] w in
        let w := g_object_unref old_style w in
        g_object_notify stylable "style" w
  end.

(** [mx_stylable_changed] *)
Definition mx_stylable_changed (stylable : pointer) (w : World) : World :=
  g_signal_emit stylable CHANGED None [VObject None] w.

End Stylable.

End MxStylable.

(** ** The rest of [mx-stylable.c]: tearing the pool down, reading a property *)

Module MxStylableRest.
Import MxStylable.

(** The [g_warning]s of the functions below, with the arguments of their
    format strings (a class is printed by name). *)
Inductive warning : Type :=
  | WarnRemoveUnknown (property_name : string)
  | WarnNoProperty (class : GType) (property_name : string)
  | WarnNotReadable (property_name : string) (class : GType)
  | WarnWrongType (requested : GType) (property_name : string) (class : GType).

(** [g_param_spec_pool_list_owned (pool, owner_type)]: the specs of the
    pool that [owner_type] itself owns.  The order is that of the hash
    table. *)
Definition g_param_spec_pool_list_owned (owner : GType) (w : World)
  : list GParamSpec * World :=
  if (0 <? owner)%N
  then (filter (fun pspec => owner_type pspec = owner)
          (snd <$> map_to_list (style_property_spec_pool w)), w)
  else ([], log (Critical "owner_type > 0") w).

(** [g_param_spec_pool_remove (pool, pspec)]: the hash table compares
    specs by owner type and name.  (The reference that the pool gives up
    is not tracked.) *)
Definition g_param_spec_pool_remove (pspec : GParamSpec)
    (s : World * list warning) : World * list warning :=
  let '(w, warnings) := s in
  match style_property_spec_pool w !! (owner_type pspec, name pspec) with
  | Some _ =>
      (set_pool (delete (owner_type pspec, name pspec)
                   (style_property_spec_pool w)) w, warnings)
  | None => (w, warnings ++ [WarnRemoveUnknown (name pspec)])
  end.

(** [mx_stylable_base_finalize (g_iface)]; [iface_type] is
    [G_TYPE_FROM_INTERFACE (g_iface)].  (The loop also drops a reference of
    each spec, which is not tracked.) *)
Definition mx_stylable_base_finalize (iface_type : GType) (w : World)
  : World * list warning :=
  let '(list, w) := g_param_spec_pool_list_owned iface_type w in
  foldl (fun s pspec => g_param_spec_pool_remove pspec s) (w, []) list.

(** A [GValue]: its type and its contents. *)
Record GValue (contents : Type) : Type := {
  g_value_type : GType;
  g_value_contents : contents
}.
Arguments g_value_type {contents} _.
Arguments g_value_contents {contents} _.

Section Values.
Context (ts : TypeSystem) {contents : Type}.

(** What GObject knows of value types: which types are value types, and the
    contents that a value of a type starts with. *)
Context (G_TYPE_IS_VALUE : GType -> bool) (value_init : GType -> contents).

(** The branch of [mx_stylable_get_property_internal] that has a style is
    code of [MxStyle] and GObject: [mx_style_get_property] into a fresh
    value, [g_value_copy] of that into [value], [g_value_unset]. *)
Context (value_from_style :
           pointer -> pointer -> GParamSpec -> GValue contents -> World ->
           GValue contents * World).

(** [g_value_reset] *)
Definition g_value_reset (value : GValue contents) (w : World)
  : GValue contents * World :=
  if G_TYPE_IS_VALUE (g_value_type value)
  then ({| g_value_type := g_value_type value;
           g_value_contents := value_init (g_value_type value) |}, w)
  else (value, log (Critical "G_IS_VALUE (value)") w).

(** [mx_stylable_get_property_internal] *)
Definition mx_stylable_get_property_internal (stylable : pointer)
    (pspec : GParamSpec) (value : GValue contents) (w : World)
  : GValue contents * World :=
  let '(style, w) := mx_stylable_get_style ts stylable w in
  match style with
  | None => g_value_reset value w
  | Some _ => value_from_style style stylable pspec value w
  end.

(** [mx_stylable_get_property]: what [value] points to afterwards, the
    warning if there was one, and the state. *)
Definition mx_stylable_get_property (stylable : pointer)
    (property_name : option string) (value : option (GValue contents))
    (w : World) : option (GValue contents) * list warning * World :=
  if negb (MX_IS_STYLABLE ts stylable w)
  then (value, [], log (Critical "MX_IS_STYLABLE (stylable)") w)
  else
    match property_name, value with
    | None, _ => (value, [], log (Critical "property_name != NULL") w)
    | Some _, None => (None, [], log (Critical "value != NULL") w)
    | Some property_name, Some v =>
        let '(pspec, w) :=
          mx_stylable_find_property ts stylable (Some property_name) w in
        let class := G_OBJECT_TYPE stylable w in
        match pspec with
        | None => (value, [WarnNoProperty class property_name], w)
        | Some pspec =>
            if Z.land (flags pspec) G_PARAM_READABLE =? 0
            then (value, [WarnNotReadable (name pspec) class], w)
            else if negb (g_value_type v =? value_type pspec)%N
            then (value, [WarnWrongType (value_type pspec) (name pspec) class], w)
            else
              let '(v, w) :=
                mx_stylable_get_property_internal stylable pspec v w in
              (Some v, [], w)
        end
    end.

End Values.

End MxStylableRest.

(** ** A small program state to run the functions on *)

Module Demo.
Import MxStylable.

(** Types: [GObject]; [MxStyle]; [DemoActor], which implements the
    interface and leaves both slots empty; [DemoButton], derived from it,
    which keeps its style in a private field (a data list entry under
    ["priv.style"]) as a widget class would. *)
Definition T_OBJECT : GType := 1%N.
Definition T_STYLE : GType := 2%N.
Definition T_ACTOR : GType := 3%N.
Definition T_BUTTON : GType := 4%N.

Definition default_iface : MxStylableIface :=
  {| get_style := None; set_style := None |}.

Definition button_get_style (stylable : pointer) (w : World) : pointer :=
  data_pointer (g_object_get_data stylable "priv.style" w).

Definition button_set_style (stylable style : pointer) (w : World) : World :=
  let '(held, w) := g_object_ref style w in
  g_object_set_qdata_full stylable "priv.style" (DataObject <$> held)
    destroy_g_object_unref w.

Definition button_iface : MxStylableIface :=
  {| get_style := Some button_get_style; set_style := Some button_set_style |}.

Definition types : TypeSystem :=
  {| g_type_parent := fun t =>
       if (t =? T_BUTTON)%N then T_ACTOR
       else if (t =? T_ACTOR)%N || (t =? T_STYLE)%N then T_OBJECT
       else G_TYPE_INVALID;
     g_type_name := fun t =>
       if (t =? T_OBJECT)%N then Some "GObject"%string
       else if (t =? T_STYLE)%N then Some "MxStyle"%string
       else if (t =? T_ACTOR)%N then Some "DemoActor"%string
       else if (t =? T_BUTTON)%N then Some "DemoButton"%string
       else None;
     g_type_depth := fun t =>
       if (t =? T_BUTTON)%N then 3%nat
       else if (t =? T_ACTOR)%N || (t =? T_STYLE)%N then 2%nat
       else if (t =? T_OBJECT)%N then 1%nat else 0%nat;
     stylable_iface := fun t =>
       if (t =? T_ACTOR)%N then Some default_iface
       else if (t =? T_BUTTON)%N then Some button_iface
       else None;
     is_mx_style := fun t => (t =? T_STYLE)%N |}.

Definition new_object (t : GType) : GObject :=
  {| g_type := t; ref_count := 1; floating := false; qdata := ∅ |}.

Definition actor : positive := 10.
Definition button : positive := 11.
Definition style_a : positive := 20.
Definition style_b : positive := 21.

Definition new_pspec (n : string) (f : Z) (t : GType) : GParamSpec :=
  {| name := n; flags := f; value_type := t;
     owner_type := G_TYPE_INVALID; pspec_qdata := ∅ |}.

Definition G_TYPE_INT : GType := 24%N.
Definition G_PARAM_READWRITE : Z := Z.lor G_PARAM_READABLE G_PARAM_WRITABLE.

Definition x_spacing : GParamSpec := new_pspec "x-spacing" G_PARAM_READWRITE G_TYPE_INT.
Definition y_spacing : GParamSpec := new_pspec "y-spacing" G_PARAM_READWRITE G_TYPE_INT.

(** Four fresh objects, nothing installed, nothing logged. *)
Definition w_fresh : World :=
  {| heap := <[actor := new_object T_ACTOR]>
               (<[button := new_object T_BUTTON]>
                  (<[style_a := new_object T_STYLE]>
                     (<[style_b := new_object T_STYLE]> ∅)));
     style_property_spec_pool := ∅;
     trace := [] |}.

(** The same after [DemoActor] has installed its two style properties. *)
Definition w_installed : World :=
  mx_stylable_iface_install_property types (Some default_iface) T_ACTOR
    (Some y_spacing)
    (mx_stylable_iface_install_property types (Some default_iface) T_ACTOR
       (Some x_spacing) w_fresh).

(** The events that a run added. *)
Definition events_since (w w' : World) : list event :=
  drop (length (trace w)) (trace w').

(** The [style-notify] emissions among some events. *)
Definition is_style_notify (e : event) : bool :=
  match e with
  | SignalEmit _ STYLE_NOTIFY _ _ => true
  | _ => false
  end.

Definition style_notifications (l : list event) : list event :=
  List.filter is_style_notify l.

End Demo.

(** ** Vocabulary of the statements: the wording of the specification, and
    what is observed of a state *)

Module Spec.
Import GLib MxTypes MxStylable.

(** The positional shorthand table of the value coercion library: one value
    for all four edges; two for top/bottom and left/right; three for top,
    left/right, bottom; four for top, right, bottom, left; anything else is
    all zero. *)
Definition shorthand (values : list Z) : MxPadding :=
  match values with
  | [a] => {| top := a; right := a; bottom := a; left := a |}
  | [a; b] => {| top := a; right := b; bottom := a; left := b |}
  | [a; b; c] => {| top := a; right := b; bottom := c; left := b |}
  | [a; b; c; d] => {| top := a; right := b; bottom := c; left := d |}
  | _ => padding_zero
  end.

(** "tokenizes on whitespace": every white-space character separates. *)
Definition whitespace_tokens (text : string) : list string :=
  match text with
  | EmptyString => []
  | _ => split_loop isspace text EmptyString
  end.

(** [parse_box_edges] as the specification words it. *)
Definition parse_box_edges (text : option string) : MxPadding :=
  match text with
  | None => padding_zero
  | Some text => shorthand (atoi <$> whitespace_tokens text)
  end.

(** A string free of the characters that [is_delim] accepts. *)
Fixpoint free_of (is_delim : ascii -> bool) (s : string) : bool :=
  match s with
  | EmptyString => true
  | String c s' => negb (is_delim c) && free_of is_delim s'
  end.

(** A token that does not start with a number: after white space and an
    optional sign comes no digit. *)
Definition starts_with_digit (s : string) : bool :=
  match s with
  | String c _ => isdigit c
  | EmptyString => false
  end.

Definition non_numeric (token : string) : bool :=
  match skip_space token with
  | String c s' =>
      if Ascii.eqb c "-" || Ascii.eqb c "+"
      then negb (starts_with_digit s')
      else negb (isdigit c)
  | EmptyString => true
  end.

Definition tab : string := str1 (ascii_of_nat 9).

(** A bordered image from its uri and its insets. *)
Definition bordered_image (u : option string) (edges : MxPadding) : MxBorderImage :=
  {| uri := u; bi_top := top edges; bi_right := right edges;
     bi_bottom := bottom edges; bi_left := left edges |}.

(** The four insets of a bordered image, as a box. *)
Definition insets (b : MxBorderImage) : MxPadding :=
  {| top := bi_top b; right := bi_right b; bottom := bi_bottom b; left := bi_left b |}.

Definition result_insets (r : run (MxBorderImage * list diagnostic)) : option MxPadding :=
  match r with
  | Done (b, _) => Some (insets b)
  | NullDeref => None
  end.

(** The uri for path token [path] and style sheet [base_path]: the path
    itself when it starts at the root, else relative to the directory of
    the style sheet. *)
Definition resolve (base_path path : string) : string :=
  if starts_with_slash path then path
  else dirname base_path +:+ "/" +:+ path.

(** The bordered-image shorthand [url(<path>) <n edges>], with the path
    between quote characters [qc], and bare. *)
Definition quoted_form (qc : ascii) (path : string) (edges : list string) : string :=
  "url(" +:+ str1 qc +:+ path +:+ str1 qc +:+ ") " +:+ g_strjoinv " " edges.

Definition bare_form (path : string) (edges : list string) : string :=
  "url(" +:+ path +:+ ") " +:+ g_strjoinv " " edges.

(** [install] as the specification words it: a descriptor is taken when it
    is readable and not construct-only, and no descriptor of that name is
    there for the owner type; it is stored stamped with the name of the
    owner type. *)
Definition stamped (ts : TypeSystem) (owner : GType) (pspec : GParamSpec) : GParamSpec :=
  with_owner_type
    (g_param_spec_set_qdata_full pspec quark_real_owner (g_type_name ts owner))
    owner.

Definition install (ts : TypeSystem) (owner : GType) (pspec : GParamSpec)
    (pool : gmap (GType * string) GParamSpec) : gmap (GType * string) GParamSpec :=
  match pool !! (owner, name pspec) with
  | Some _ => pool
  | None =>
      if negb (Z.land (flags pspec) G_PARAM_READABLE =? 0)
         && (Z.land (flags pspec) G_PARAM_CONSTRUCT_ONLY =? 0)
      then <[(owner, name pspec) := stamped ts owner pspec]> pool
      else pool
  end.

(** What the code asks of the flags of a descriptor: readable, and neither
    of the two construct flags. *)
Definition installable (pspec : GParamSpec) : bool :=
  negb (Z.land (flags pspec) G_PARAM_READABLE =? 0)
  && (Z.land (flags pspec) (Z.lor G_PARAM_CONSTRUCT_ONLY G_PARAM_CONSTRUCT) =? 0).

(** The reference count of the object at [p]; [0] when there is none. *)
Definition refs (w : World) (p : positive) : Z :=
  match heap w !! p with
  | Some o => Z.pos (ref_count o)
  | None => 0
  end.

(** The objects that lost a reference between [w] and [w']. *)
Definition released (w w' : World) : list positive :=
  List.filter (fun p => refs w' p <? refs w p) (elements (dom (heap w))).

(** The data list of the object at [a]. *)
Definition qdata_at (w : World) (a : positive)
  : option (gmap GQuark (gdata * GDestroyNotify)) :=
  qdata <$> heap w !! a.

(** The object that the data list of [a] holds under [quark] and releases
    when the entry is replaced. *)
Definition held_under (quark : GQuark) (w : World) (a : positive) : pointer :=
  match qdata_at w a with
  | Some d =>
      match d !! quark with
      | Some (DataObject prev, destroy_g_object_unref) => Some prev
      | _ => None
      end
  | None => None
  end.

(** The style that the default [set_style] stored before. *)
Definition stored_style (w : World) (a : positive) : pointer :=
  held_under quark_style w a.

(** The stored style, if there is one, is a live object. *)
Definition stored_style_live (w : World) (a : positive) : Prop :=
  match stored_style w a with
  | Some prev => 0 < refs w prev
  | None => True
  end.

(** The data list of the object at [p] holds no object, so that finalising
    [p] releases none. *)
Definition holds_no_object (w : World) (p : positive) : Prop :=
  match qdata_at w p with
  | Some d =>
      map_Forall (fun _ entry =>
                    match entry with
                    | (DataObject _, destroy_g_object_unref) => False
                    | _ => True
                    end) d
  | None => True
  end.

(** Releasing the stored style for the new style [s] finalises nothing that
    holds an object: the stored style, if there is one, is the new style or
    has a reference besides the one of the data list, or it holds no
    object. *)
Definition release_is_plain (w : World) (a s : positive) : Prop :=
  match stored_style w a with
  | Some prev =>
      1 < refs w prev + (if decide (prev = s) then 1 else 0)
      \/ holds_no_object w prev
  | None => True
  end.

Definition is_floating (w : World) (p : pointer) : bool :=
  match object_at w p with
  | Some o => floating o
  | None => false
  end.

(** [w'] has no object that [w] has not, and each object of [w'] has the
    type and, except under [quark], the data it has in [w]. *)
Definition keeps_data_except (quark : GQuark) (w w' : World) : Prop :=
  forall a o',
    heap w' !! a = Some o' ->
    exists o, heap w !! a = Some o
              /\ g_type o' = g_type o
              /\ forall k, k <> quark -> qdata o' !! k = qdata o !! k.

(** [property_name] names a style property of the stylable object at [a]:
    the lookup that [mx_stylable_notify] does finds [pspec], a readable
    spec. *)
Definition known (ts : TypeSystem) (w : World) (a : positive)
    (property_name : string) (pspec : GParamSpec) : Prop :=
  MX_IS_STYLABLE ts (Some a) w = true
  /\ g_param_spec_pool_lookup ts (style_property_spec_pool w) property_name
       (G_OBJECT_TYPE (Some a) w) true = Some pspec
  /\ Z.land (flags pspec) G_PARAM_READABLE <> 0.

(** The queue of the object at [a] right after one [freeze] of an object
    that had none: frozen once, nothing pending. *)
Definition frozen_once (w : World) (a : positive) : Prop :=
  g_object_notify_queue_from_object (Some a) w
  = Some {| pspecs := []; n_pspecs := 0; freeze_count := 1 |}.

(** Frozen, at whatever depth. *)
Definition frozen (w : World) (a : positive) : Prop :=
  match g_object_notify_queue_from_object (Some a) w with
  | Some nqueue => 0 < freeze_count nqueue
  | None => False
  end.

(** Not frozen: no queue, or a queue whose freeze count is zero. *)
Definition not_frozen (w : World) (a : positive) : Prop :=
  match g_object_notify_queue_from_object (Some a) w with
  | Some nqueue => freeze_count nqueue = 0
  | None => True
  end.

(** The [style-notify] emission for one spec, as the dispatcher makes it. *)
Definition style_notify_event (a : positive) (pspec : GParamSpec) : event :=
  SignalEmit a STYLE_NOTIFY (Some (g_quark_from_string (name pspec))) [VParam pspec].

(** The freeze count of the queue, if there is one, is not negative. *)
Definition queue_nonneg (w : World) (a : positive) : Prop :=
  match g_object_notify_queue_from_object (Some a) w with
  | Some nqueue => 0 <= freeze_count nqueue
  | None => True
  end.

(** No queue at all. *)
Definition no_queue (w : World) (a : positive) : Prop :=
  g_object_notify_queue_from_object (Some a) w = None.

(** The queue that an object holds, and the object with another queue or
    without one. *)
Definition queue_entry (nqueue : GObjectNotifyQueue) : gdata * GDestroyNotify :=
  (DataNotifyQueue nqueue, destroy_g_object_notify_queue_free).

Definition queue_of (o : GObject) : option GObjectNotifyQueue :=
  match qdata o !! quark_notify_queue with
  | Some (DataNotifyQueue nqueue, _) => Some nqueue
  | _ => None
  end.

Definition put_queue (o : GObject) (nqueue : GObjectNotifyQueue) : GObject :=
  with_qdata o (<[quark_notify_queue := queue_entry nqueue]> (qdata o)).

Definition drop_queue (o : GObject) : GObject :=
  with_qdata o (delete quark_notify_queue (qdata o)).

(** [1] when the two are the same, else [0]. *)
Definition indicator (a : option positive) (b : positive) : Z :=
  if decide (a = Some b) then 1 else 0.

(** [1] when [q] points to [p] and [p] is a live object, else [0]: the
    change that [g_object_ref (q)] makes to the reference count of [p]. *)
Definition live_indicator (w : World) (q : pointer) (p : positive) : Z :=
  if decide (q = Some p) then (if decide (0 < refs w p) then 1 else 0) else 0.

End Spec.

(** ** More vocabulary: numerals, counting, and the rest of the pool *)

Module Observe.
Import GLib MxTypes MxStylable Spec.

(** The decimal numeral of a number, as [printf ("%d")] writes it. *)
Definition show_nat (n : N) : string :=
  DecimalString.NilEmpty.string_of_uint (N.to_uint n).

Definition show_int (z : Z) : string :=
  if z <? 0 then "-" +:+ show_nat (Z.to_N (- z)) else show_nat (Z.to_N z).

(** The range of a C [int]. *)
Definition INT_MIN : Z := - 2 ^ 31.
Definition INT_MAX : Z := 2 ^ 31 - 1.

Definition in_int (v : Z) : bool := (INT_MIN <=? v) && (v <=? INT_MAX).

(** A value followed by a unit, as in [10px]: the unit has no space in it
    and does not start with a digit. *)
Definition is_unit (u : string) : bool :=
  free_of (Ascii.eqb " ") u && negb (starts_with_digit u).

Definition with_unit (vu : Z * string) : string := show_int (fst vu) +:+ snd vu.

Definition value_ok (vu : Z * string) : bool := in_int (fst vu) && is_unit (snd vu).

(** The bordered-image shorthand with any five characters where the
    canonical form has [(], the two quotes, [)] and the space. *)
Definition delimited_form (d1 d2 d3 d4 d5 : ascii) (path : string)
    (edges : list string) : string :=
  "url" +:+ String d1 (String d2 (path +:+ String d3 (String d4 (String d5
    (g_strjoinv " " edges))))).

(** File names: a name without a slash, and a directory name that is not
    empty and does not end with a slash. *)
Definition no_slash (s : string) : bool :=
  free_of (fun x => Ascii.eqb x slash) s.

Fixpoint ends_without_slash (s : string) : bool :=
  match s with
  | EmptyString => false
  | String c EmptyString => negb (Ascii.eqb c slash)
  | String _ s' => ends_without_slash s'
  end.

(** How often [c] occurs in [s]. *)
Fixpoint count_char (c : ascii) (s : string) : nat :=
  match s with
  | EmptyString => O
  | String x s' => (if Ascii.eqb c x then 1 else 0) + count_char c s'
  end.

(** *** The notify queue, the pool and the type hierarchy *)

(** There is room for [n] more freezes of the object at [a]: its data list
    has nothing under the quark of the queue, or a queue that is frozen
    already, and the count stays inside 65535. *)
Definition freeze_room (w : World) (a : positive) (n : nat) : Prop :=
  match qdata_at w a with
  | Some d =>
      match d !! quark_notify_queue with
      | None => Z.of_nat n <= 65535
      | Some (DataNotifyQueue nqueue, destroy_g_object_notify_queue_free) =>
          0 < freeze_count nqueue /\ freeze_count nqueue + Z.of_nat n <= 65535
      | Some _ => False
      end
  | None => False
  end.

(** The types that a lookup with [walk_ancestors] visits from [t], in
    order: [t], its parent, and so on up to the root. *)
Fixpoint chain (ts : TypeSystem) (fuel : nat) (t : GType) : list GType :=
  t :: match fuel with
       | O => []
       | S fuel' =>
           let parent := g_type_parent ts t in
           if (parent =? 0)%N then [] else chain ts fuel' parent
       end.

Definition ancestors (ts : TypeSystem) (t : GType) : list GType :=
  chain ts (g_type_depth ts t) t.

(** No type of the list has a style property called [property_name]. *)
Definition none_has (pool : gmap (GType * string) GParamSpec)
    (property_name : string) (types : list GType) : Prop :=
  Forall (fun t => pool !! (t, property_name) = None) types.

(** The place of a spec in the pool. *)
Definition pool_key (pspec : GParamSpec) : GType * string :=
  (owner_type pspec, name pspec).

(** Every spec of the pool sits under its own owner type and name, as in
    the hash table, where the spec is the key. *)
Definition keyed (pool : gmap (GType * string) GParamSpec) : Prop :=
  map_Forall (fun k pspec => k = pool_key pspec) pool.

(** What [mx_stylable_iface_install_property] lets into the pool: specs
    that are keyed, owned by a valid type, readable, without a construct
    flag, and stamped with the name of their owner. *)
Definition well_installed (ts : TypeSystem) (k : GType * string)
    (pspec : GParamSpec) : Prop :=
  k = pool_key pspec
  /\ owner_type pspec <> G_TYPE_INVALID
  /\ installable pspec = true
  /\ pspec_qdata pspec !! quark_real_owner = g_type_name ts (owner_type pspec).

Definition pool_ok (ts : TypeSystem)
    (pool : gmap (GType * string) GParamSpec) : Prop :=
  map_Forall (well_installed ts) pool.

#[global] Instance well_installed_dec ts k pspec :
  Decision (well_installed ts k pspec).
Proof. unfold well_installed. apply _. Defined.

#[global] Instance pool_ok_dec ts pool : Decision (pool_ok ts pool).
Proof. unfold pool_ok. apply _. Defined.

#[global] Instance keyed_dec pool : Decision (keyed pool).
Proof. unfold keyed. apply _. Defined.

(** A list without its repetitions: of every spec the first occurrence, in
    the order of the list. *)
Fixpoint first_occurrences (l : list GParamSpec) : list GParamSpec :=
  match l with
  | [] => []
  | pspec :: rest => pspec :: filter (fun q => q <> pspec) (first_occurrences rest)
  end.

(** Sample state: the button of [Demo.w_installed] with its notify queue
    frozen to the limit. *)
Definition w_frozen_full : World :=
  set_heap
    (<[Demo.button :=
         put_queue (Demo.new_object Demo.T_BUTTON)
           {| pspecs := []; n_pspecs := 0; freeze_count := 65535 |}]>
       (heap Demo.w_installed)) Demo.w_installed.

End Observe.

(** * Properties of the shorthand parsers *)

Module TypesProofs.
Import GLib MxTypes Spec.

Lemma append_nil_l (b : string) : "" +:+ b = b.
Proof. reflexivity. Qed.

Lemma append_cons (c : ascii) (a b : string) : String c a +:+ b = String c (a +:+ b).
Proof. reflexivity. Qed.

Lemma append_nil_r (a : string) : a +:+ "" = a.
Proof.
  induction a as [|c a IH]; [reflexivity|].
  now rewrite append_cons, IH.
Qed.

Lemma append_assoc (a b c : string) : (a +:+ b) +:+ c = a +:+ (b +:+ c).
Proof.
  induction a as [|x a IH]; [reflexivity|].
  now rewrite !append_cons, IH.
Qed.

Lemma append_str1 (a : string) (c : ascii) (b : string) :
  (a +:+ str1 c) +:+ b = a +:+ String c b.
Proof. now rewrite append_assoc. Qed.

(** *** What the scanning loop returns *)

Lemma split_loop_nonempty d s cur : split_loop d s cur <> [].
Proof.
  revert cur; induction s as [|c s IH]; intros cur; simpl; [discriminate|].
  destruct (d c); [discriminate | apply IH].
Qed.

(** A stretch without delimiter is one token. *)
Lemma split_loop_free d a cur :
  free_of d a = true -> split_loop d a cur = [cur +:+ a].
Proof.
  revert cur; induction a as [|c a IH]; intros cur H; simpl in *.
  - now rewrite append_nil_r.
  - apply andb_true_iff in H as [Hc Ha].
    apply negb_true_iff in Hc. rewrite Hc, IH by assumption.
    now rewrite append_str1.
Qed.

(** A delimiter after such a stretch closes the token. *)
Lemma split_loop_cut d a c rest cur :
  free_of d a = true -> d c = true ->
  split_loop d (a +:+ String c rest) cur = (cur +:+ a) :: split_loop d rest "".
Proof.
  revert cur; induction a as [|x a IH]; intros cur Ha Hc.
  - rewrite append_nil_l, append_nil_r. simpl. now rewrite Hc.
  - simpl in Ha. apply andb_true_iff in Ha as [Hx Ha].
    apply negb_true_iff in Hx. rewrite append_cons. simpl.
    rewrite Hx, IH by assumption.
    now rewrite append_str1.
Qed.

Lemma g_strjoinv_cons sep t t' rest :
  g_strjoinv sep (t :: t' :: rest) = t +:+ sep +:+ g_strjoinv sep (t' :: rest).
Proof. reflexivity. Qed.

(** Splitting undoes joining, for tokens free of delimiters. *)
Lemma split_loop_join d (tokens : list string) :
  d " "%char = true -> tokens <> [] ->
  forallb (free_of d) tokens = true ->
  split_loop d (g_strjoinv " " tokens) "" = tokens.
Proof.
  intros Hd. induction tokens as [|t rest IH]; intros Hne Hfree; [easy|].
  simpl in Hfree. apply andb_true_iff in Hfree as [Ht Hrest].
  destruct rest as [|t' rest].
  - simpl. now rewrite split_loop_free.
  - rewrite g_strjoinv_cons.
    change (" " +:+ g_strjoinv " " (t' :: rest))
      with (String " " (g_strjoinv " " (t' :: rest))).
    rewrite split_loop_cut by assumption.
    rewrite append_nil_l. f_equal. apply IH; [discriminate | assumption].
Qed.

(** Joining undoes splitting at one character. *)
Lemma join_split_loop c s cur :
  g_strjoinv (str1 c) (split_loop (Ascii.eqb c) s cur) = cur +:+ s.
Proof.
  revert cur; induction s as [|x s IH]; intros cur; simpl.
  - now rewrite append_nil_r.
  - destruct (Ascii.eqb_spec c x) as [->|Hne].
    + specialize (IH "").
      pose proof (split_loop_nonempty (Ascii.eqb x) s "") as Hne.
      destruct (split_loop (Ascii.eqb x) s "") as [|t l]; [easy|].
      rewrite g_strjoinv_cons, IH. reflexivity.
    + rewrite IH. now rewrite append_str1.
Qed.

Lemma free_of_app d a b :
  free_of d (a +:+ b) = free_of d a && free_of d b.
Proof.
  induction a as [|x a IH]; simpl; [reflexivity|].
  now rewrite IH, andb_assoc.
Qed.

(** No token contains a delimiter. *)
Lemma split_loop_tokens_free d s cur :
  free_of d cur = true -> forallb (free_of d) (split_loop d s cur) = true.
Proof.
  revert cur; induction s as [|x s IH]; intros cur Hcur; simpl.
  - now rewrite Hcur.
  - destruct (d x) eqn:Hx; simpl.
    + rewrite Hcur. now apply IH.
    + apply IH. rewrite free_of_app, Hcur. simpl. now rewrite Hx.
Qed.

(** *** [atoi] *)

Lemma digits_no_digit s acc : starts_with_digit s = false -> digits s acc = acc.
Proof. destruct s as [|c s]; simpl; [reflexivity|]. now intros ->. Qed.

Lemma atoi_non_numeric token : non_numeric token = true -> atoi token = 0.
Proof.
  unfold non_numeric, atoi, strtol.
  destruct (skip_space token) as [|c s]; [reflexivity|].
  destruct (Ascii.eqb c "-"); simpl.
  - intros H%negb_true_iff. now rewrite digits_no_digit.
  - destruct (Ascii.eqb c "+"); simpl.
    + intros H%negb_true_iff. now rewrite digits_no_digit.
    + intros H%negb_true_iff. now rewrite H.
Qed.

Example atoi_examples :
  atoi "10" = 10 /\ atoi "-7" = -7 /\ atoi " +42px" = 42
  /\ atoi "px" = 0 /\ atoi "" = 0 /\ atoi "- 3" = 0.
Proof. repeat split; reflexivity. Qed.

(** *** Box edges *)

(** The positional table of [mx_padding_from_string] is the shorthand table. *)
Lemma padding_of_tokens (str : string) :
  mx_padding_from_string (Some str)
  = Done (shorthand (atoi <$> g_strsplit str " ")).
Proof.
  unfold mx_padding_from_string, g_strv_length.
  destruct (g_strsplit str " ") as [|a [|b [|c [|d [|e l]]]]]; try reflexivity.
  assert (H : 4 < Z.of_nat (length (a :: b :: c :: d :: e :: l)))
    by (simpl length; lia).
  destruct (Z.of_nat (length (a :: b :: c :: d :: e :: l))) as [|p|p];
    [lia | | lia].
  destruct p as [[[p|p|]|[p|p|]|]|[[p|p|]|[p|p|]|]|]; try reflexivity; lia.
Qed.

(** C6, as stated, fails: a tab is white space, yet it does not separate
    tokens. On ["1<TAB>2"] a tokenizer on white space sees two tokens (top
    and bottom 1, left and right 2); the code sees one and sets all four
    edges to 1. *)
Lemma box_edges_tab_is_no_separator :
  mx_padding_from_string (Some ("1" +:+ tab +:+ "2"))
  <> Done (parse_box_edges (Some ("1" +:+ tab +:+ "2"))).
Proof. vm_compute. discriminate. Qed.

(** C6, amended: [mx_padding_from_string] cuts its input at every single
    space character (and at nothing else: joining the tokens with spaces
    gives the input back, and no token contains a space), maps one to four
    tokens to the edges by the positional table, gives all zero for any
    other number of tokens and for an absent string, and reads each token
    with [atoi], which gives zero for a token that does not start with a
    number. *)
Theorem padding_from_string_shorthand (str token : string) :
  non_numeric token = true ->
  mx_padding_from_string None = Done padding_zero
  /\ mx_padding_from_string (Some str)
     = Done (shorthand (atoi <$> g_strsplit str " "))
  /\ g_strjoinv " " (g_strsplit str " ") = str
  /\ forallb (free_of (Ascii.eqb " ")) (g_strsplit str " ") = true
  /\ atoi token = 0.
Proof.
  intros Htoken. split; [reflexivity|]. split; [apply padding_of_tokens|].
  split; [|split].
  - destruct str as [|c str]; [reflexivity|].
    unfold g_strsplit.
    change (" ":string) with (str1 " ").
    now rewrite join_split_loop.
  - destruct str as [|c str]; [reflexivity|].
    unfold g_strsplit. now apply split_loop_tokens_free.
  - now apply atoi_non_numeric.
Qed.

Lemma padding_from_string_shorthand_witness :
  non_numeric "px" = true
  /\ mx_padding_from_string (Some "10 20 px") 
     = Done {| top := 10; right := 20; bottom := 0; left := 20 |}.
Proof.
  split; [reflexivity|].
  exact (proj1 (proj2 (padding_from_string_shorthand "10 20 px" "px" eq_refl))).
Defined.

(** The examples of the specification. *)
Example box_edges_examples :
  mx_padding_from_string (Some "10")
  = Done {| top := 10; right := 10; bottom := 10; left := 10 |}
  /\ mx_padding_from_string (Some "10 20")
     = Done {| top := 10; right := 20; bottom := 10; left := 20 |}
  /\ mx_padding_from_string (Some "1 2 3 4")
     = Done {| top := 1; right := 2; bottom := 3; left := 4 |}
  /\ mx_padding_from_string (Some "") = Done padding_zero.
Proof. repeat split; reflexivity. Qed.

(** *** Bordered images *)

Example dirname_examples :
  dirname "/a/b/style.css" = "/a/b"
  /\ dirname "style.css" = "."
  /\ dirname "/style.css" = "/"
  /\ dirname "a//style.css" = "a".
Proof. repeat split; reflexivity. Qed.


(** With three tokens or more, the first being [url], the function returns:
    the third token is the path, the tokens from the sixth on are the
    insets when there are one to four of them. *)
Lemma border_image_of_tokens (str base_path t1 path : string) (rest : list string) :
  str <> "none" ->
  g_strsplit_set str border_image_delimiters = "url" :: t1 :: path :: rest ->
  mx_border_image_set_from_string (Some str) (Some base_path)
  = Done (bordered_image (Some (resolve base_path path))
            (if (3 <=? length rest)%nat && (length rest <=? 6)%nat
             then shorthand (atoi <$> drop 2 rest)
             else padding_zero), []).
Proof.
  intros Hnone Hstrv. unfold mx_border_image_set_from_string; cbn [bind deref].
  apply String.eqb_neq in Hnone. rewrite Hnone, Hstrv.
  unfold resolve, bordered_image.
  destruct rest as [|t3 [|t4 [|t5 [|t6 [|t7 [|t8 [|t9 l]]]]]]];
    try (simpl; destruct (starts_with_slash path); reflexivity).
  remember (t3 :: t4 :: t5 :: t6 :: t7 :: t8 :: t9 :: l) as rest eqn:Hrest.
  assert (Hlen : 9 < g_strv_length ("url" :: t1 :: path :: rest)).
  { subst rest. unfold g_strv_length. simpl length. lia. }
  assert (Hlen' : (length rest <=? 6)%nat = false).
  { subst rest. reflexivity. }
  rewrite Hlen', andb_false_r.
  remember (g_strv_length ("url" :: t1 :: path :: rest)) as n.
  rewrite (proj2 (Z.ltb_ge n 2)) by lia.
  rewrite !(proj2 (Z.eqb_neq n _)) by lia.
  simpl. destruct (starts_with_slash path); reflexivity.
Qed.

(** C2 fails on the code: with exactly two tokens, the first being [url],
    the function passes both checks and then reads the first character of
    [strv[2]], which is the [NULL] that ends the vector. *)
Theorem border_image_two_tokens_null_deref
    (str second : string) (filename : option string) :
  g_strsplit_set str border_image_delimiters = ["url"; second] ->
  mx_border_image_set_from_string (Some str) filename = NullDeref.
Proof.
  intros Hstrv. unfold mx_border_image_set_from_string; cbn [bind deref].
  destruct (String.eqb_spec str "none") as [->|_]; [discriminate Hstrv|].
  now rewrite Hstrv.
Qed.

Lemma border_image_two_tokens_null_deref_witness :
  g_strsplit_set "url(" border_image_delimiters = ["url"; ""]
  /\ mx_border_image_set_from_string (Some "url(") (Some "/a/b/style.css") = NullDeref.
Proof.
  split; [reflexivity|].
  apply (border_image_two_tokens_null_deref "url(" "" (Some "/a/b/style.css")).
  reflexivity.
Defined.

(** X9: an input other than [none] that has fewer than two tokens, or
    whose first token is not [url], gives the zero value and one warning
    that carries the input. *)
Lemma border_image_malformed (str : string) (filename : option string) :
  str <> "none" ->
  (g_strv_length (g_strsplit_set str border_image_delimiters) < 2
   \/ g_strsplit_set str border_image_delimiters !! 0%nat <> Some "url") ->
  mx_border_image_set_from_string (Some str) filename
  = Done (border_image_zero, [CouldNotParseBorderImage str]).
Proof.
  intros Hnone H. unfold mx_border_image_set_from_string; cbn [bind deref].
  apply String.eqb_neq in Hnone. rewrite Hnone.
  destruct (Z.ltb_spec (g_strv_length (g_strsplit_set str border_image_delimiters)) 2)
    as [|Hge]; [reflexivity|].
  destruct H as [H|H]; [lia|].
  unfold strv_get.
  destruct (g_strsplit_set str border_image_delimiters !! 0%nat) as [t|] eqn:E.
  - simpl. destruct (String.eqb_spec t "url") as [->|]; [congruence | reflexivity].
  - reflexivity.
Qed.

(** With three tokens or more the function returns, whatever they are. *)
Lemma border_image_three_tokens_return (str t0 t1 t2 : string)
    (rest : list string) (filename : option string) :
  g_strsplit_set str border_image_delimiters = t0 :: t1 :: t2 :: rest ->
  exists r, mx_border_image_set_from_string (Some str) filename = Done r.
Proof.
  intros Hstrv. unfold mx_border_image_set_from_string; cbn [bind deref].
  destruct (String.eqb str "none"); [eauto|]. rewrite Hstrv.
  destruct rest as [|t3 [|t4 [|t5 [|t6 [|t7 [|t8 [|t9 l]]]]]]];
    try solve [simpl; destruct (negb (String.eqb t0 "url")); eauto].
  remember (t3 :: t4 :: t5 :: t6 :: t7 :: t8 :: t9 :: l) as rest' eqn:Hrest.
  assert (Hlen : 9 < g_strv_length (t0 :: t1 :: t2 :: rest')).
  { subst rest'. unfold g_strv_length. simpl length. lia. }
  remember (g_strv_length (t0 :: t1 :: t2 :: rest')) as n.
  rewrite (proj2 (Z.ltb_ge n 2)) by lia.
  rewrite !(proj2 (Z.eqb_neq n _)) by lia.
  simpl. destruct (negb (String.eqb t0 "url")); eauto.
Qed.

(** X4: the function stops at a [NULL] dereference for exactly these
    inputs: a text that is [NULL] (it is handed to [strcmp] unchecked), and
    a text of two tokens whose first is [url]; on every other input,
    whatever the file name, it returns. *)
Lemma border_image_null_deref_iff (str filename : option string) :
  mx_border_image_set_from_string str filename = NullDeref
  <-> str = None
      \/ exists text second,
           str = Some text
           /\ g_strsplit_set text border_image_delimiters = ["url"; second].
Proof.
  destruct str as [str|]; [|split; [now left|reflexivity]].
  split.
  - intros Hnull. right. exists str.
    destruct (g_strsplit_set str border_image_delimiters)
      as [|t0 [|t1 [|t2 rest]]] eqn:Hstrv.
    + unfold mx_border_image_set_from_string in Hnull; cbn [bind deref] in Hnull.
      rewrite Hstrv in Hnull.
      destruct (String.eqb str "none"); discriminate.
    + unfold mx_border_image_set_from_string in Hnull; cbn [bind deref] in Hnull.
      rewrite Hstrv in Hnull.
      destruct (String.eqb str "none"); discriminate.
    + unfold mx_border_image_set_from_string in Hnull; cbn [bind deref] in Hnull.
      rewrite Hstrv in Hnull.
      destruct (String.eqb str "none"); [discriminate|].
      cbn [g_strv_length length Z.of_nat Z.ltb Z.compare Pos.compare
           Pos.compare_cont Pos.of_succ_nat Pos.succ strv_get lookup list_lookup
           g_strcmp0_differs] in Hnull.
      destruct (String.eqb_spec t0 "url") as [->|]; [eauto|].
      discriminate Hnull.
    + destruct (border_image_three_tokens_return str t0 t1 t2 rest filename Hstrv)
        as [r Hr].
      congruence.
  - intros [Hnone|(text & second & [= <-] & Hstrv)]; [discriminate|].
    unfold mx_border_image_set_from_string; cbn [bind deref].
    destruct (String.eqb_spec str "none") as [->|_]; [discriminate Hstrv|].
    now rewrite Hstrv.
Qed.

(** C7: for a well-formed shorthand (not [none]; first token [url]; a third
    token [path] there), the path is used as it is when it starts with a
    slash and is put after the directory of [base_path] and a slash
    otherwise; with 6 to 9 tokens the tokens from the sixth on fill the
    insets by the positional table of the box edges, with any other number
    of tokens the insets stay zero.  The string [none] gives the zero
    value. *)
Theorem border_image_from_well_formed_string (str base_path path : string) :
  str <> "none" ->
  g_strsplit_set str border_image_delimiters !! 0%nat = Some "url" ->
  g_strsplit_set str border_image_delimiters !! 2%nat = Some path ->
  mx_border_image_set_from_string (Some "none") (Some base_path)
  = Done (border_image_zero, [])
  /\ mx_border_image_set_from_string (Some str) (Some base_path)
     = Done (bordered_image
               (Some (if starts_with_slash path then path
                      else dirname base_path +:+ "/" +:+ path))
               (let strv := g_strsplit_set str border_image_delimiters in
                if (6 <=? g_strv_length strv) && (g_strv_length strv <=? 9)
                then shorthand (atoi <$> drop 5 strv)
                else padding_zero), []).
Proof.
  intros Hnone H0 H2. split; [reflexivity|].
  destruct (g_strsplit_set str border_image_delimiters)
    as [|t0 [|t1 [|t2 rest]]] eqn:Hstrv; try discriminate.
  injection H0 as ->. injection H2 as ->.
  rewrite (border_image_of_tokens str base_path t1 path rest Hnone Hstrv).
  unfold resolve, g_strv_length. cbv zeta.
  replace ((6 <=? Z.of_nat (length ("url" :: t1 :: path :: rest)))
           && (Z.of_nat (length ("url" :: t1 :: path :: rest)) <=? 9))
    with ((3 <=? length rest)%nat && (length rest <=? 6)%nat).
  - reflexivity.
  - simpl length.
    destruct (Nat.leb_spec 3 (length rest)), (Nat.leb_spec (length rest) 6),
      (Z.leb_spec 6 (Z.of_nat (S (S (S (length rest)))))),
      (Z.leb_spec (Z.of_nat (S (S (S (length rest))))) 9); simpl; lia || reflexivity.
Qed.

Lemma border_image_from_well_formed_string_witness :
  mx_border_image_set_from_string
    (Some ("url(" +:+ str1 dquote +:+ "img.png" +:+ str1 dquote +:+ ") 1 2 3 4"))
    (Some "/a/b/style.css")
  = Done ({| uri := Some "/a/b/img.png";
             bi_top := 1; bi_right := 2; bi_bottom := 3; bi_left := 4 |}, [])
  /\ mx_border_image_set_from_string
       (Some ("url(" +:+ str1 squote +:+ "/abs/img.png" +:+ str1 squote +:+ ") 1 2"))
       (Some "/a/b/style.css")
     = Done ({| uri := Some "/abs/img.png";
                bi_top := 1; bi_right := 2; bi_bottom := 1; bi_left := 2 |}, []).
Proof.
  split.
  - refine (proj2 (border_image_from_well_formed_string
                     ("url(" +:+ str1 dquote +:+ "img.png" +:+ str1 dquote
                      +:+ ") 1 2 3 4")
                     "/a/b/style.css" "img.png" _ _ _)).
    + vm_compute. discriminate.
    + reflexivity.
    + reflexivity.
  - refine (proj2 (border_image_from_well_formed_string
                     ("url(" +:+ str1 squote +:+ "/abs/img.png" +:+ str1 squote
                      +:+ ") 1 2")
                     "/a/b/style.css" "/abs/img.png" _ _ _)).
    + vm_compute. discriminate.
    + reflexivity.
    + reflexivity.
Defined.

(** *** Quoted and bare paths *)

Lemma quoted_form_tokens (qc : ascii) (path : string) (edges : list string) :
  qc = dquote \/ qc = squote ->
  free_of (in_set border_image_delimiters) path = true ->
  forallb (free_of (in_set border_image_delimiters)) edges = true ->
  edges <> [] ->
  g_strsplit_set (quoted_form qc path edges) border_image_delimiters
  = "url" :: "" :: path :: "" :: "" :: edges.
Proof.
  intros Hqc Hpath Hedges Hne.
  assert (Hq : in_set border_image_delimiters qc = true)
    by (destruct Hqc as [-> | ->]; reflexivity).
  unfold quoted_form.
  change ("url(" +:+ str1 qc +:+ path +:+ str1 qc +:+ ") " +:+ g_strjoinv " " edges)
    with ("url" +:+ String "(" (str1 qc +:+ path +:+ str1 qc +:+ ") "
                                  +:+ g_strjoinv " " edges)).
  unfold g_strsplit_set at 1. rewrite append_cons.
  rewrite <- append_cons.
  rewrite split_loop_cut by reflexivity.
  change (str1 qc +:+ path +:+ str1 qc +:+ ") " +:+ g_strjoinv " " edges)
    with ("" +:+ String qc (path +:+ str1 qc +:+ ") " +:+ g_strjoinv " " edges)).
  rewrite split_loop_cut by (reflexivity || assumption).
  change (path +:+ str1 qc +:+ ") " +:+ g_strjoinv " " edges)
    with (path +:+ String qc ("" +:+ String ")" ("" +:+ String " " (g_strjoinv " " edges)))).
  rewrite split_loop_cut by assumption.
  rewrite split_loop_cut by reflexivity.
  rewrite split_loop_cut by reflexivity.
  rewrite split_loop_join by (reflexivity || assumption).
  reflexivity.
Qed.

Lemma bare_form_tokens (path : string) (edges : list string) :
  free_of (in_set border_image_delimiters) path = true ->
  forallb (free_of (in_set border_image_delimiters)) edges = true ->
  edges <> [] ->
  g_strsplit_set (bare_form path edges) border_image_delimiters
  = "url" :: path :: "" :: edges.
Proof.
  intros Hpath Hedges Hne.
  unfold bare_form.
  change ("url(" +:+ path +:+ ") " +:+ g_strjoinv " " edges)
    with ("url" +:+ String "(" (path +:+ String ")"
                                  ("" +:+ String " " (g_strjoinv " " edges)))).
  unfold g_strsplit_set at 1. rewrite append_cons.
  rewrite <- append_cons.
  rewrite split_loop_cut by reflexivity.
  rewrite split_loop_cut by (reflexivity || assumption).
  rewrite split_loop_cut by reflexivity.
  rewrite split_loop_join by (reflexivity || assumption).
  reflexivity.
Qed.

Lemma url_form_not_none (rest : string) : "url(" +:+ rest <> "none".
Proof. rewrite append_cons. discriminate. Qed.

(** C8, as stated, fails: the same edge token after a bare path and after
    a quoted path does not give the same insets. [url(img.png) 3] has four
    tokens, so its insets stay zero; [url("img.png") 3] has six, and all
    four insets are 3. *)
Lemma bare_path_insets_differ :
  result_insets
    (mx_border_image_set_from_string (Some (bare_form "img.png" ["3"]))
       (Some "/a/b/style.css"))
  <> result_insets
       (mx_border_image_set_from_string (Some (quoted_form dquote "img.png" ["3"]))
          (Some "/a/b/style.css")).
Proof. vm_compute. discriminate. Qed.

(** C8, amended: for a path between double or single quotes and one to four
    edge tokens, the path is resolved and the edge tokens fill the insets by
    the positional table.  For a bare path the tokens sit two places
    earlier: the token read as the path is empty, and only the edge tokens
    from the third on are read, so one or two edge tokens leave all insets
    zero. *)
Theorem quoted_path_shorthand
    (qc : ascii) (path base_path : string) (edges : list string) :
  qc = dquote \/ qc = squote ->
  free_of (in_set border_image_delimiters) path = true ->
  forallb (free_of (in_set border_image_delimiters)) edges = true ->
  (1 <= length edges <= 4)%nat ->
  mx_border_image_set_from_string (Some (quoted_form qc path edges)) (Some base_path)
  = Done (bordered_image (Some (resolve base_path path))
            (shorthand (atoi <$> edges)), [])
  /\ mx_border_image_set_from_string (Some (bare_form path edges)) (Some base_path)
     = Done (bordered_image (Some (resolve base_path ""))
               (shorthand (atoi <$> drop 2 edges)), []).
Proof.
  intros Hqc Hpath Hedges Hlen.
  assert (Hne : edges <> []) by (destruct edges; simpl in Hlen; [lia | discriminate]).
  split.
  - rewrite (border_image_of_tokens _ base_path "" path ("" :: "" :: edges)).
    + destruct edges as [|e1 [|e2 [|e3 [|e4 [|e5 l]]]]];
        simpl in Hlen; try lia; reflexivity.
    + apply url_form_not_none.
    + now apply quoted_form_tokens.
  - rewrite (border_image_of_tokens _ base_path path "" edges).
    + destruct edges as [|e1 [|e2 [|e3 [|e4 [|e5 l]]]]];
        simpl in Hlen; try lia; reflexivity.
    + apply url_form_not_none.
    + now apply bare_form_tokens.
Qed.

Lemma quoted_path_shorthand_witness :
  mx_border_image_set_from_string (Some (quoted_form squote "/abs/img.png" ["1"; "2"; "3"]))
    (Some "/a/b/style.css")
  = Done ({| uri := Some "/abs/img.png";
             bi_top := 1; bi_right := 2; bi_bottom := 3; bi_left := 2 |}, [])
  /\ mx_border_image_set_from_string (Some (bare_form "/abs/img.png" ["1"; "2"; "3"]))
       (Some "/a/b/style.css")
     = Done ({| uri := Some "/a/b/";
                bi_top := 3; bi_right := 3; bi_bottom := 3; bi_left := 3 |}, []).
Proof.
  apply (quoted_path_shorthand squote "/abs/img.png" "/a/b/style.css" ["1"; "2"; "3"]).
  - right; reflexivity.
  - reflexivity.
  - reflexivity.
  - simpl; lia.
Defined.

End TypesProofs.

(** * Properties of the stylable interface *)

Module StylableProofs.
Import MxStylable Spec.

(** *** Records and the heap *)

Lemma world_eta (w : World) :
  {| heap := heap w; style_property_spec_pool := style_property_spec_pool w;
     trace := trace w |} = w.
Proof. now destruct w. Qed.

Lemma with_ref_count_id (o : GObject) : with_ref_count o (ref_count o) = o.
Proof. now destruct o. Qed.

(** Taking a reference on a live object. *)
Lemma g_object_ref_live (w : World) (a : positive) (o : GObject) :
  heap w !! a = Some o ->
  g_object_ref (Some a) w
  = (Some a, set_heap (<[a := with_ref_count o (Pos.succ (ref_count o))]> (heap w)) w).
Proof. intros H. unfold g_object_ref, object_at. now rewrite H. Qed.

(** Dropping a reference that is not the last. *)
Lemma g_object_unref_shared (w : World) (a : positive) (o : GObject) :
  heap w !! a = Some o -> (1 < ref_count o)%positive ->
  g_object_unref (Some a) w
  = set_heap (<[a := with_ref_count o (Pos.pred (ref_count o))]> (heap w)) w.
Proof.
  intros H Hrc. unfold g_object_unref, object_at. rewrite H.
  apply Pos.ltb_lt in Hrc. now rewrite Hrc.
Qed.

(** A reference taken and dropped around a change [o'] of the object that
    keeps its reference count. *)
Lemma unref_after_ref (h : gmap positive GObject) (a : positive)
    (o o' : GObject) (w : World) :
  ref_count o' = Pos.succ (ref_count o) ->
  g_object_unref (Some a) (set_heap (<[a := o']> h) w)
  = set_heap (<[a := with_ref_count o' (ref_count o)]> h) w.
Proof.
  intros Hrc.
  rewrite (g_object_unref_shared _ a o').
  - unfold set_heap; simpl. rewrite insert_insert_eq, Hrc, Pos.pred_succ. reflexivity.
  - simpl. apply lookup_insert_eq.
  - rewrite Hrc. lia.
Qed.

(** *** The notify queue of an object *)

Lemma queue_of_put (o : GObject) (nqueue : GObjectNotifyQueue) :
  queue_of (put_queue o nqueue) = Some nqueue.
Proof. unfold queue_of, put_queue; simpl. now rewrite lookup_insert_eq. Qed.

Lemma queue_of_drop (o : GObject) : queue_of (drop_queue o) = None.
Proof. unfold queue_of, drop_queue; simpl. now rewrite lookup_delete_eq. Qed.

Lemma put_put (o : GObject) (q1 q2 : GObjectNotifyQueue) :
  put_queue (put_queue o q1) q2 = put_queue o q2.
Proof. unfold put_queue; simpl. now rewrite insert_insert_eq. Qed.

Lemma drop_put (o : GObject) (q1 : GObjectNotifyQueue) :
  drop_queue (put_queue o q1) = drop_queue o.
Proof. unfold drop_queue, put_queue; simpl. now rewrite delete_insert_eq. Qed.

Lemma object_at_insert (h : gmap positive GObject) (a : positive) (o : GObject)
    (w : World) :
  object_at (set_heap (<[a := o]> h) w) (Some a) = Some o.
Proof. simpl. apply lookup_insert_eq. Qed.

Lemma from_object_live (w : World) (a : positive) (o : GObject) :
  heap w !! a = Some o ->
  g_object_notify_queue_from_object (Some a) w = queue_of o.
Proof.
  intros H. unfold g_object_notify_queue_from_object, g_object_get_data, object_at.
  rewrite H. unfold queue_of.
  destruct (qdata o !! quark_notify_queue) as [[[p|q] d]|]; reflexivity.
Qed.

Lemma from_object_insert (h : gmap positive GObject) (a : positive) (o : GObject)
    (w : World) :
  g_object_notify_queue_from_object (Some a) (set_heap (<[a := o]> h) w)
  = queue_of o.
Proof. apply from_object_live. simpl. apply lookup_insert_eq. Qed.

Lemma nqueue_store_insert (h : gmap positive GObject) (a : positive) (o : GObject)
    (nqueue : GObjectNotifyQueue) (w : World) :
  nqueue_store (Some a) nqueue (set_heap (<[a := o]> h) w)
  = set_heap (<[a := put_queue o nqueue]> h) w.
Proof.
  unfold nqueue_store. rewrite object_at_insert.
  unfold set_heap; simpl. now rewrite insert_insert_eq.
Qed.

(** Freezing raises the count, of a new queue if there was none. *)
Lemma freeze_insert (h : gmap positive GObject) (a : positive) (o : GObject)
    (w : World) (nqueue : GObjectNotifyQueue) :
  default nqueue_new (queue_of o) = nqueue ->
  freeze_count nqueue < 65535 ->
  g_object_notify_queue_freeze (Some a) (set_heap (<[a := o]> h) w)
  = set_heap (<[a := put_queue o {| pspecs := pspecs nqueue;
                                    n_pspecs := n_pspecs nqueue;
                                    freeze_count := freeze_count nqueue + 1 |}]> h) w.
Proof.
  intros Hq Hc. unfold g_object_notify_queue_freeze.
  rewrite from_object_insert.
  replace (match queue_of o with Some q => q | None => nqueue_new end) with nqueue
    by (rewrite <- Hq; now destruct (queue_of o)).
  rewrite (proj2 (Z.leb_gt 65535 (freeze_count nqueue))) by lia.
  apply nqueue_store_insert.
Qed.

(** Adding prepends a readable spec. *)
Lemma add_insert (h : gmap positive GObject) (a : positive) (o : GObject)
    (w : World) (nqueue : GObjectNotifyQueue) (pspec : GParamSpec) :
  queue_of o = Some nqueue ->
  Z.land (flags pspec) G_PARAM_READABLE <> 0 ->
  n_pspecs nqueue < 65535 ->
  g_object_notify_queue_add (Some a) pspec (set_heap (<[a := o]> h) w)
  = set_heap (<[a := put_queue o {| pspecs := pspec :: pspecs nqueue;
                                    n_pspecs := n_pspecs nqueue + 1;
                                    freeze_count := freeze_count nqueue |}]> h) w.
Proof.
  intros Hq Hread Hn. unfold g_object_notify_queue_add.
  rewrite from_object_insert, Hq.
  rewrite (proj2 (Z.eqb_neq _ 0) Hread).
  rewrite (proj2 (Z.ltb_lt (n_pspecs nqueue) 65535)) by lia.
  apply nqueue_store_insert.
Qed.

(** A thaw that is not the last only lowers the count. *)
Lemma thaw_insert_inner (h : gmap positive GObject) (a : positive) (o : GObject)
    (w : World) (nqueue : GObjectNotifyQueue) :
  queue_of o = Some nqueue ->
  1 < freeze_count nqueue ->
  g_object_notify_queue_thaw (Some a) (set_heap (<[a := o]> h) w)
  = set_heap (<[a := put_queue o {| pspecs := pspecs nqueue;
                                    n_pspecs := n_pspecs nqueue;
                                    freeze_count := freeze_count nqueue - 1 |}]> h) w.
Proof.
  intros Hq Hc. unfold g_object_notify_queue_thaw.
  rewrite from_object_insert, Hq.
  rewrite (proj2 (Z.leb_gt (freeze_count nqueue) 0)) by lia.
  rewrite (proj2 (Z.eqb_neq (freeze_count nqueue - 1) 0)) by lia.
  apply nqueue_store_insert.
Qed.

Lemma g_signal_emit_live (w : World) (a : positive) (o : GObject) (sig : signal)
    (detail : option GQuark) (varargs : list gvalue) :
  heap w !! a = Some o ->
  g_signal_emit (Some a) sig detail varargs w
  = log (SignalEmit a sig detail (take (signal_n_params sig) varargs)) w.
Proof. intros H. unfold g_signal_emit, object_at. now rewrite H. Qed.

(** The dispatcher emits one [style-notify] per spec and changes nothing
    else. *)
Lemma dispatcher_emits (a : positive) (o : GObject) (l : list GParamSpec)
    (w : World) :
  heap w !! a = Some o ->
  mx_stylable_notify_dispatcher (Some a) l w
  = {| heap := heap w;
       style_property_spec_pool := style_property_spec_pool w;
       trace := trace w ++ (style_notify_event a <$> l) |}.
Proof.
  unfold mx_stylable_notify_dispatcher.
  revert w; induction l as [|pspec l IH]; intros w Ho.
  - cbn [foldl fmap list_fmap]. rewrite app_nil_r. now rewrite world_eta.
  - cbn [foldl]. rewrite (g_signal_emit_live w a o) by exact Ho.
    rewrite IH by exact Ho.
    cbn [log heap style_property_spec_pool trace signal_n_params take].
    rewrite <- app_assoc. reflexivity.
Qed.

(** The last thaw removes the queue and dispatches the pending specs, each
    once. *)
Lemma thaw_insert_last (h : gmap positive GObject) (a : positive) (o : GObject)
    (w : World) (nqueue : GObjectNotifyQueue) :
  queue_of o = Some nqueue ->
  freeze_count nqueue = 1 ->
  g_object_notify_queue_thaw (Some a) (set_heap (<[a := o]> h) w)
  = {| heap := <[a := drop_queue o]> h;
       style_property_spec_pool := style_property_spec_pool w;
       trace := trace w ++ (style_notify_event a <$> dedup_loop (pspecs nqueue) []) |}.
Proof.
  intros Hq Hc. unfold g_object_notify_queue_thaw.
  rewrite from_object_insert, Hq, Hc.
  change (1 <=? 0) with false. change (negb (1 - 1 =? 0)) with false.
  cbv iota.
  unfold g_object_set_qdata_full. rewrite object_at_insert.
  assert (Hold : exists d, qdata o !! quark_notify_queue = Some (DataNotifyQueue nqueue, d)).
  { unfold queue_of in Hq.
    destruct (qdata o !! quark_notify_queue) as [[[p|q] d]|]; try discriminate.
    injection Hq as ->. eauto. }
  destruct Hold as [d Hold]. rewrite Hold. cbn [run_destroy].
  fold (drop_queue o).
  change (set_heap (<[a:=drop_queue o]> (heap (set_heap (<[a:=o]> h) w)))
            (set_heap (<[a:=o]> h) w))
    with (set_heap (<[a:=drop_queue o]> (<[a:=o]> h)) w).
  rewrite insert_insert_eq.
  set (w' := set_heap (<[a:=drop_queue o]> h) w).
  assert (Hd : forall l, match l with
                         | [] => w'
                         | _ :: _ => mx_stylable_notify_dispatcher (Some a) l w'
                         end = mx_stylable_notify_dispatcher (Some a) l w')
    by (now intros [|? ?]).
  rewrite Hd, (dispatcher_emits a (drop_queue o)) by apply lookup_insert_eq.
  reflexivity.
Qed.

Lemma stylable_is_object (ts : TypeSystem) (w : World) (a : positive) :
  MX_IS_STYLABLE ts (Some a) w = true ->
  exists o, heap w !! a = Some o /\ is_Some (stylable_iface ts (g_type o)).
Proof.
  unfold MX_IS_STYLABLE, MX_STYLABLE_GET_IFACE, object_at.
  intros H%bool_decide_eq_true.
  destruct (heap w !! a) as [o|]; [eauto | now destruct H].
Qed.

Lemma object_is_stylable (ts : TypeSystem) (w : World) (a : positive) (o : GObject) :
  heap w !! a = Some o -> is_Some (stylable_iface ts (g_type o)) ->
  MX_IS_STYLABLE ts (Some a) w = true.
Proof.
  intros Ho Hi. unfold MX_IS_STYLABLE, MX_STYLABLE_GET_IFACE, object_at.
  rewrite Ho. now apply bool_decide_eq_true.
Qed.

(** The reference that brackets a call is given back. *)
Lemma unref_bracket (h : gmap positive GObject) (a : positive) (o o' : GObject)
    (w : World) (l : list event) :
  ref_count o' = Pos.succ (ref_count o) ->
  g_object_unref (Some a)
    {| heap := <[a := o']> h;
       style_property_spec_pool := style_property_spec_pool w;
       trace := l |}
  = {| heap := <[a := with_ref_count o' (ref_count o)]> h;
       style_property_spec_pool := style_property_spec_pool w;
       trace := l |}.
Proof.
  intros Hrc.
  exact (unref_after_ref h a o o'
           {| heap := h; style_property_spec_pool := style_property_spec_pool w;
              trace := l |} Hrc).
Qed.

(** [mx_stylable_notify] on a frozen object only queues the spec. *)
Lemma notify_frozen (ts : TypeSystem) (w : World) (a : positive) (o : GObject)
    (nqueue : GObjectNotifyQueue) (property_name : string) (pspec : GParamSpec) :
  heap w !! a = Some o ->
  is_Some (stylable_iface ts (g_type o)) ->
  queue_of o = Some nqueue ->
  0 < freeze_count nqueue < 65535 ->
  n_pspecs nqueue < 65535 ->
  g_param_spec_pool_lookup ts (style_property_spec_pool w) property_name
    (g_type o) true = Some pspec ->
  Z.land (flags pspec) G_PARAM_READABLE <> 0 ->
  mx_stylable_notify ts (Some a) (Some property_name) w
  = set_heap
      (<[a := put_queue o {| pspecs := pspec :: pspecs nqueue;
                             n_pspecs := n_pspecs nqueue + 1;
                             freeze_count := freeze_count nqueue |}]> (heap w)) w.
Proof.
  intros Ho Hi Hq Hcount Hn Hlookup Hread.
  unfold mx_stylable_notify.
  rewrite (object_is_stylable ts w a o Ho Hi), (g_object_ref_live w a o Ho).
  cbn [snd]. unfold G_OBJECT_TYPE. rewrite object_at_insert.
  cbn [style_property_spec_pool set_heap g_type with_ref_count].
  rewrite Hlookup.
  set (o1 := with_ref_count o (Pos.succ (ref_count o))).
  fold (set_heap (<[a:=o1]> (heap w)) w).
  rewrite (freeze_insert _ a o1 w nqueue) by (try (change (queue_of o1) with (queue_of o); rewrite Hq); simpl; lia || reflexivity).
  rewrite (add_insert _ a _ w _ pspec (queue_of_put _ _) Hread) by (simpl; lia).
  rewrite (thaw_insert_inner _ a _ w _ (queue_of_put _ _)) by (simpl; lia).
  rewrite !put_put. cbn [pspecs n_pspecs freeze_count].
  rewrite (unref_after_ref _ a o) by reflexivity.
  replace (freeze_count nqueue + 1 - 1) with (freeze_count nqueue) by lia.
  reflexivity.
Qed.

(** The last [mx_stylable_thaw_notify] dispatches what is pending. *)
Lemma thaw_notify_last (ts : TypeSystem) (w : World) (a : positive) (o : GObject)
    (nqueue : GObjectNotifyQueue) :
  heap w !! a = Some o ->
  is_Some (stylable_iface ts (g_type o)) ->
  queue_of o = Some nqueue ->
  freeze_count nqueue = 1 ->
  mx_stylable_thaw_notify ts (Some a) w
  = {| heap := <[a := drop_queue o]> (heap w);
       style_property_spec_pool := style_property_spec_pool w;
       trace := trace w ++ (style_notify_event a <$> dedup_loop (pspecs nqueue) []) |}.
Proof.
  intros Ho Hi Hq Hcount.
  unfold mx_stylable_thaw_notify.
  rewrite (object_is_stylable ts w a o Ho Hi), (g_object_ref_live w a o Ho).
  cbn [snd].
  set (o1 := with_ref_count o (Pos.succ (ref_count o))).
  rewrite from_object_insert. change (queue_of o1) with (queue_of o).
  rewrite Hq, Hcount. change (1 =? 0) with false. cbv iota.
  rewrite (thaw_insert_last _ a o1 w nqueue Hq Hcount).
  rewrite (unref_bracket _ a o) by reflexivity.
  reflexivity.
Qed.

(** [mx_stylable_notify] on an object without a queue dispatches at once
    and leaves no queue behind. *)
Lemma notify_unfrozen (ts : TypeSystem) (w : World) (a : positive) (o : GObject)
    (property_name : string) (pspec : GParamSpec) :
  heap w !! a = Some o ->
  is_Some (stylable_iface ts (g_type o)) ->
  queue_of o = None ->
  g_param_spec_pool_lookup ts (style_property_spec_pool w) property_name
    (g_type o) true = Some pspec ->
  Z.land (flags pspec) G_PARAM_READABLE <> 0 ->
  mx_stylable_notify ts (Some a) (Some property_name) w
  = {| heap := <[a := drop_queue o]> (heap w);
       style_property_spec_pool := style_property_spec_pool w;
       trace := trace w ++ [style_notify_event a pspec] |}.
Proof.
  intros Ho Hi Hq Hlookup Hread.
  unfold mx_stylable_notify.
  rewrite (object_is_stylable ts w a o Ho Hi), (g_object_ref_live w a o Ho).
  cbn [snd]. unfold G_OBJECT_TYPE. rewrite object_at_insert.
  cbn [style_property_spec_pool set_heap g_type with_ref_count].
  rewrite Hlookup.
  set (o1 := with_ref_count o (Pos.succ (ref_count o))).
  fold (set_heap (<[a:=o1]> (heap w)) w).
  rewrite (freeze_insert _ a o1 w nqueue_new)
    by (try (change (queue_of o1) with (queue_of o); rewrite Hq); simpl; lia || reflexivity).
  rewrite (add_insert _ a _ w _ pspec (queue_of_put _ _) Hread) by (simpl; lia).
  rewrite (thaw_insert_last _ a _ w _ (queue_of_put _ _)) by reflexivity.
  rewrite !put_put, drop_put.
  cbn [pspecs dedup_loop].
  rewrite bool_decide_eq_false_2 by (apply not_elem_of_nil).
  rewrite (unref_bracket _ a o) by reflexivity.
  reflexivity.
Qed.

Lemma known_object (ts : TypeSystem) (w : World) (a : positive)
    (property_name : string) (pspec : GParamSpec) :
  known ts w a property_name pspec ->
  exists o, heap w !! a = Some o
            /\ is_Some (stylable_iface ts (g_type o))
            /\ g_param_spec_pool_lookup ts (style_property_spec_pool w)
                 property_name (g_type o) true = Some pspec
            /\ Z.land (flags pspec) G_PARAM_READABLE <> 0.
Proof.
  intros (Hs & Hl & Hr).
  destruct (stylable_is_object ts w a Hs) as (o & Ho & Hi).
  exists o. repeat split; try assumption.
  unfold G_OBJECT_TYPE, object_at in Hl. now rewrite Ho in Hl.
Qed.

Lemma dedup_two (p1 p2 : GParamSpec) :
  p1 <> p2 -> dedup_loop [p1; p2; p1] [] = [p1; p2].
Proof.
  intros Hne. cbn [dedup_loop].
  rewrite bool_decide_eq_false_2 by apply not_elem_of_nil.
  cbn [app].
  rewrite bool_decide_eq_false_2 by (intros H%list_elem_of_singleton; congruence).
  cbn [app].
  rewrite bool_decide_eq_true_2 by (apply list_elem_of_here).
  reflexivity.
Qed.

(** C5, as stated, fails for an object that is frozen more than once: the
    button below was frozen twice, and after [notify; notify; notify; thaw]
    it is still frozen and nothing was dispatched. *)
Lemma nested_freeze_dispatches_nothing :
  let w := mx_stylable_freeze_notify Demo.types (Some Demo.button)
             (mx_stylable_freeze_notify Demo.types (Some Demo.button)
                Demo.w_installed) in
  let w' := mx_stylable_thaw_notify Demo.types (Some Demo.button)
              (mx_stylable_notify Demo.types (Some Demo.button) (Some "x-spacing")
                 (mx_stylable_notify Demo.types (Some Demo.button) (Some "y-spacing")
                    (mx_stylable_notify Demo.types (Some Demo.button)
                       (Some "x-spacing") w))) in
  frozen w Demo.button
  /\ length (Demo.style_notifications (Demo.events_since w w')) <> 2%nat.
Proof.
  split.
  - vm_compute. reflexivity.
  - vm_compute. discriminate.
Qed.

(** C5, amended: for an object that is frozen exactly once with nothing
    pending, [notify P1; notify P2; notify P1; thaw] dispatches exactly two
    [style-notify] emissions, one for [P1] and one for [P2], and leaves no
    queue; and for an object without a queue, one [notify] of a known
    property dispatches exactly one emission at once and leaves no queue. *)
Theorem freeze_notify_thaw_coalesces (ts : TypeSystem) (w wu : World)
    (a : positive) (n1 n2 : string) (p1 p2 : GParamSpec) :
  known ts w a n1 p1 -> known ts w a n2 p2 -> p1 <> p2 ->
  frozen_once w a ->
  known ts wu a n1 p1 -> no_queue wu a ->
  let w' := mx_stylable_thaw_notify ts (Some a)
              (mx_stylable_notify ts (Some a) (Some n1)
                 (mx_stylable_notify ts (Some a) (Some n2)
                    (mx_stylable_notify ts (Some a) (Some n1) w))) in
  let wu' := mx_stylable_notify ts (Some a) (Some n1) wu in
  trace w' = trace w ++ [style_notify_event a p1; style_notify_event a p2]
  /\ no_queue w' a
  /\ trace wu' = trace wu ++ [style_notify_event a p1]
  /\ no_queue wu' a.
Proof.
  intros K1 K2 Hne Hf Ku Hu w' wu'.
  destruct (known_object ts w a n1 p1 K1) as (o & Ho & Hi & Hl1 & Hr1).
  destruct (known_object ts w a n2 p2 K2) as (o' & Ho' & _ & Hl2 & Hr2).
  assert (o' = o) by congruence. subst o'.
  unfold frozen_once in Hf. rewrite (from_object_live w a o Ho) in Hf.
  assert (Hw' : w' = {| heap := <[a := drop_queue o]> (heap w);
                        style_property_spec_pool := style_property_spec_pool w;
                        trace := trace w ++ [style_notify_event a p1;
                                             style_notify_event a p2] |}).
  { subst w'.
    rewrite (notify_frozen ts w a o _ n1 p1 Ho Hi Hf) by (simpl; lia || assumption).
    cbn [pspecs n_pspecs freeze_count].
    erewrite (notify_frozen ts _ a _ _ n2 p2);
      [ | apply lookup_insert_eq | exact Hi | apply queue_of_put
        | simpl; lia | simpl; lia | exact Hl2 | exact Hr2 ].
    cbn [pspecs n_pspecs freeze_count set_heap heap style_property_spec_pool trace].
    rewrite insert_insert_eq, put_put.
    erewrite (notify_frozen ts _ a _ _ n1 p1);
      [ | apply lookup_insert_eq | exact Hi | apply queue_of_put
        | simpl; lia | simpl; lia | exact Hl1 | exact Hr1 ].
    cbn [pspecs n_pspecs freeze_count set_heap heap style_property_spec_pool trace].
    rewrite insert_insert_eq, put_put.
    erewrite thaw_notify_last;
      [ | apply lookup_insert_eq | exact Hi | apply queue_of_put | reflexivity ].
    cbn [pspecs set_heap heap style_property_spec_pool trace].
    rewrite insert_insert_eq, drop_put, (dedup_two p1 p2 Hne).
    reflexivity. }
  destruct (known_object ts wu a n1 p1 Ku) as (ou & Hou & Hiu & Hlu & Hru).
  unfold no_queue in Hu. rewrite (from_object_live wu a ou Hou) in Hu.
  assert (Hwu' : wu' = {| heap := <[a := drop_queue ou]> (heap wu);
                          style_property_spec_pool := style_property_spec_pool wu;
                          trace := trace wu ++ [style_notify_event a p1] |})
    by (subst wu'; now apply notify_unfrozen).
  rewrite Hw', Hwu'. unfold no_queue.
  repeat split.
  - erewrite from_object_live by (simpl; apply lookup_insert_eq).
    apply queue_of_drop.
  - erewrite from_object_live by (simpl; apply lookup_insert_eq).
    apply queue_of_drop.
Qed.

Lemma freeze_notify_thaw_coalesces_witness :
  let p1 := stamped Demo.types Demo.T_ACTOR Demo.x_spacing in
  let p2 := stamped Demo.types Demo.T_ACTOR Demo.y_spacing in
  let w := mx_stylable_freeze_notify Demo.types (Some Demo.button) Demo.w_installed in
  let w' := mx_stylable_thaw_notify Demo.types (Some Demo.button)
              (mx_stylable_notify Demo.types (Some Demo.button) (Some "x-spacing")
                 (mx_stylable_notify Demo.types (Some Demo.button) (Some "y-spacing")
                    (mx_stylable_notify Demo.types (Some Demo.button)
                       (Some "x-spacing") w))) in
  let wu' := mx_stylable_notify Demo.types (Some Demo.button) (Some "x-spacing")
               Demo.w_installed in
  trace w' = trace w ++ [style_notify_event Demo.button p1;
                         style_notify_event Demo.button p2]
  /\ no_queue w' Demo.button
  /\ trace wu' = trace Demo.w_installed ++ [style_notify_event Demo.button p1]
  /\ no_queue wu' Demo.button.
Proof.
  intros p1 p2 w.
  apply (freeze_notify_thaw_coalesces Demo.types w Demo.w_installed Demo.button
           "x-spacing" "y-spacing" p1 p2).
  - repeat split; vm_compute; congruence.
  - repeat split; vm_compute; congruence.
  - vm_compute. congruence.
  - vm_compute. reflexivity.
  - repeat split; vm_compute; congruence.
  - vm_compute. reflexivity.
Defined.

(** A thaw of an object that is not frozen only logs the warning. *)
Lemma thaw_notify_not_frozen (ts : TypeSystem) (w : World) (a : positive) :
  MX_IS_STYLABLE ts (Some a) w = true ->
  not_frozen w a ->
  mx_stylable_thaw_notify ts (Some a) w = log (WarnNotFrozen a) w.
Proof.
  intros Hs Hnf.
  destruct (stylable_is_object ts w a Hs) as (o & Ho & Hi).
  unfold mx_stylable_thaw_notify.
  rewrite Hs, (g_object_ref_live w a o Ho). cbn [snd].
  set (o1 := with_ref_count o (Pos.succ (ref_count o))).
  rewrite from_object_insert. change (queue_of o1) with (queue_of o).
  unfold not_frozen in Hnf. rewrite (from_object_live w a o Ho) in Hnf.
  assert (Hlog : g_object_unref (Some a)
                   (log (WarnNotFrozen a) (set_heap (<[a:=o1]> (heap w)) w))
                 = log (WarnNotFrozen a) w).
  { change (log (WarnNotFrozen a) (set_heap (<[a:=o1]> (heap w)) w))
      with (set_heap (<[a:=o1]> (heap w)) (log (WarnNotFrozen a) w)).
    rewrite (unref_after_ref _ a o) by reflexivity.
    subst o1.
    change (with_ref_count (with_ref_count o (Pos.succ (ref_count o))) (ref_count o))
      with (with_ref_count o (ref_count o)).
    rewrite with_ref_count_id, (insert_id _ _ _ Ho). reflexivity. }
  destruct (queue_of o) as [nqueue|]; [|exact Hlog].
  rewrite Hnf. change (0 =? 0) with true. exact Hlog.
Qed.

(** A thaw that is not the last lowers the count and dispatches nothing. *)
Lemma thaw_notify_inner (ts : TypeSystem) (w : World) (a : positive) (o : GObject)
    (nqueue : GObjectNotifyQueue) :
  heap w !! a = Some o ->
  is_Some (stylable_iface ts (g_type o)) ->
  queue_of o = Some nqueue ->
  1 < freeze_count nqueue ->
  mx_stylable_thaw_notify ts (Some a) w
  = set_heap (<[a := put_queue o {| pspecs := pspecs nqueue;
                                    n_pspecs := n_pspecs nqueue;
                                    freeze_count := freeze_count nqueue - 1 |}]>
                (heap w)) w.
Proof.
  intros Ho Hi Hq Hcount.
  unfold mx_stylable_thaw_notify.
  rewrite (object_is_stylable ts w a o Ho Hi), (g_object_ref_live w a o Ho).
  cbn [snd].
  set (o1 := with_ref_count o (Pos.succ (ref_count o))).
  rewrite from_object_insert. change (queue_of o1) with (queue_of o).
  rewrite Hq, (proj2 (Z.eqb_neq (freeze_count nqueue) 0)) by lia.
  rewrite (thaw_insert_inner _ a o1 w nqueue Hq Hcount).
  rewrite (unref_after_ref _ a o) by reflexivity.
  reflexivity.
Qed.

(** Whatever the state, a thaw never takes the freeze count below zero. *)
Lemma thaw_notify_count_nonneg (ts : TypeSystem) (w : World) (a : positive) :
  queue_nonneg w a ->
  queue_nonneg (mx_stylable_thaw_notify ts (Some a) w) a.
Proof.
  intros Hnn.
  destruct (MX_IS_STYLABLE ts (Some a) w) eqn:Hs.
  2: { unfold mx_stylable_thaw_notify. rewrite Hs. exact Hnn. }
  destruct (stylable_is_object ts w a Hs) as (o & Ho & Hi).
  unfold queue_nonneg in Hnn. rewrite (from_object_live w a o Ho) in Hnn.
  destruct (queue_of o) as [nqueue|] eqn:Hq.
  - destruct (Z.lt_total (freeze_count nqueue) 1) as [Hlt|[Heq|Hgt]].
    + rewrite thaw_notify_not_frozen; [ | exact Hs | ].
      * unfold queue_nonneg.
        change (g_object_notify_queue_from_object (Some a) (log (WarnNotFrozen a) w))
          with (g_object_notify_queue_from_object (Some a) w).
        rewrite (from_object_live w a o Ho), Hq. exact Hnn.
      * unfold not_frozen. rewrite (from_object_live w a o Ho), Hq. lia.
    + rewrite (thaw_notify_last ts w a o nqueue Ho Hi Hq Heq).
      unfold queue_nonneg.
      erewrite from_object_live by (simpl; apply lookup_insert_eq).
      now rewrite queue_of_drop.
    + rewrite (thaw_notify_inner ts w a o nqueue Ho Hi Hq Hgt).
      unfold queue_nonneg.
      rewrite from_object_insert, queue_of_put. simpl. lia.
  - rewrite thaw_notify_not_frozen; [ | exact Hs | ].
    + unfold queue_nonneg.
      change (g_object_notify_queue_from_object (Some a) (log (WarnNotFrozen a) w))
        with (g_object_notify_queue_from_object (Some a) w).
      now rewrite (from_object_live w a o Ho), Hq.
    + unfold not_frozen. now rewrite (from_object_live w a o Ho), Hq.
Qed.

(** C10: a thaw of an object that is not frozen (no queue, or a queue whose
    freeze count is zero) logs the warning and does nothing else: the heap
    and the pool are as before, nothing is emitted, the function returns,
    and the object is as little frozen as before, its count not below
    zero. *)
Theorem thaw_without_freeze (ts : TypeSystem) (w : World) (a : positive) :
  MX_IS_STYLABLE ts (Some a) w = true ->
  not_frozen w a ->
  mx_stylable_thaw_notify ts (Some a) w = log (WarnNotFrozen a) w
  /\ not_frozen (mx_stylable_thaw_notify ts (Some a) w) a
  /\ queue_nonneg (mx_stylable_thaw_notify ts (Some a) w) a.
Proof.
  intros Hs Hnf.
  pose proof (thaw_notify_not_frozen ts w a Hs Hnf) as E.
  split; [exact E|]. rewrite E.
  split; [exact Hnf|].
  unfold not_frozen in Hnf. unfold queue_nonneg.
  change (g_object_notify_queue_from_object (Some a) (log (WarnNotFrozen a) w))
    with (g_object_notify_queue_from_object (Some a) w) in *.
  destruct (g_object_notify_queue_from_object (Some a) w); [lia | exact I].
Qed.

Lemma thaw_without_freeze_witness :
  mx_stylable_thaw_notify Demo.types (Some Demo.actor) Demo.w_installed
  = log (WarnNotFrozen Demo.actor) Demo.w_installed
  /\ not_frozen
       (mx_stylable_thaw_notify Demo.types (Some Demo.actor) Demo.w_installed)
       Demo.actor
  /\ queue_nonneg
       (mx_stylable_thaw_notify Demo.types (Some Demo.actor) Demo.w_installed)
       Demo.actor.
Proof.
  apply (thaw_without_freeze Demo.types Demo.w_installed Demo.actor).
  - vm_compute. reflexivity.
  - vm_compute. exact I.
Defined.

(** *** Installing a style property *)

(** C9, as stated, fails: a readable descriptor with [G_PARAM_CONSTRUCT]
    (which is not construct-only) and a new name is not stored; the pool
    stays empty, where the specification has the descriptor in it. *)
Lemma install_rejects_construct :
  let pspec := Demo.new_pspec "x-spacing"
                 (Z.lor Demo.G_PARAM_READWRITE G_PARAM_CONSTRUCT) Demo.G_TYPE_INT in
  style_property_spec_pool
    (mx_stylable_iface_install_property Demo.types (Some Demo.default_iface)
       Demo.T_ACTOR (Some pspec) Demo.w_fresh)
  <> install Demo.types Demo.T_ACTOR pspec (style_property_spec_pool Demo.w_fresh).
Proof.
  intros pspec H.
  apply (f_equal (fun pool => bool_decide (is_Some (pool !! (Demo.T_ACTOR, "x-spacing"))))) in H.
  vm_compute in H. discriminate H.
Qed.

(** A canonical name has only characters that the pool takes. *)
Lemma canonical_pool_name (n : string) :
  is_canonical n = true -> forallb pool_name_char (list_ascii_of_string n) = true.
Proof.
  induction n as [|c n IH]; [reflexivity|].
  cbn [is_canonical list_ascii_of_string forallb].
  destruct (not_canonical_char c) eqn:Hc; [discriminate|].
  intros H. rewrite (IH H), andb_true_r.
  unfold not_canonical_char in Hc. unfold pool_name_char.
  destruct (Ascii.eqb c "-"); [now rewrite !orb_true_r|].
  cbn [negb andb] in Hc. rewrite orb_false_r.
  destruct (N_of_ascii c <? 48)%N eqn:H1, (57 <? N_of_ascii c)%N eqn:H2,
    (N_of_ascii c <? 65)%N eqn:H3, (90 <? N_of_ascii c)%N eqn:H4,
    (N_of_ascii c <? 97)%N eqn:H5, (122 <? N_of_ascii c)%N eqn:H6;
    cbn in Hc; try discriminate;
    rewrite ?N.ltb_lt, ?N.ltb_ge in *;
    repeat match goal with
           | |- context [(?a <=? ?b)%N] =>
               first [ rewrite (proj2 (N.leb_le a b)) by lia
                     | rewrite (proj2 (N.leb_gt a b)) by lia ]
           end; reflexivity.
Qed.

(** C9, amended: for a valid owner type and a descriptor that no type owns
    yet, [install] leaves the pool as it is and logs one critical when the
    descriptor is not readable or has one of the flags [G_PARAM_CONSTRUCT]
    and [G_PARAM_CONSTRUCT_ONLY]; else leaves the pool as it is (the
    descriptor installed first stays) and logs the warning when the owner
    type has a descriptor of that name; else stores the descriptor, marked
    with the owner type and stamped with the name of the owner type, and
    logs nothing.  The heap is never touched, and the function returns in
    each case.  (The names of descriptors are canonical, letters, digits and
    [-]; for a name that is not, the pool looks also for the canonical form
    of the name before the descriptor is taken as new, and takes no name
    with a character other than these and [_].) *)
Theorem install_property_checks (ts : TypeSystem) (iface : MxStylableIface)
    (owner : GType) (pspec : GParamSpec) (w : World) :
  owner <> G_TYPE_INVALID ->
  owner_type pspec = G_TYPE_INVALID ->
  let w' := mx_stylable_iface_install_property ts (Some iface) owner (Some pspec) w in
  heap w' = heap w
  /\ match installable pspec, style_property_spec_pool w !! (owner, name pspec) with
     | false, _ =>
         style_property_spec_pool w' = style_property_spec_pool w
         /\ exists assertion, trace w' = trace w ++ [Critical assertion]
     | true, Some original =>
         style_property_spec_pool w' = style_property_spec_pool w
         /\ style_property_spec_pool w' !! (owner, name pspec) = Some original
         /\ trace w' = trace w ++ [WarnAlreadyContains owner (name pspec)]
     | true, None =>
         if is_canonical (name pspec)
         then
           style_property_spec_pool w'
           = <[(owner, name pspec) := stamped ts owner pspec]> (style_property_spec_pool w)
           /\ trace w' = trace w
         else
           match style_property_spec_pool w
                 !! (owner, canonicalize_key (name pspec)) with
           | Some _ =>
               style_property_spec_pool w' = style_property_spec_pool w
               /\ trace w' = trace w ++ [WarnAlreadyContains owner (name pspec)]
           | None =>
               if forallb pool_name_char (list_ascii_of_string (name pspec))
               then
                 style_property_spec_pool w'
                 = <[(owner, name pspec) := stamped ts owner pspec]>
                     (style_property_spec_pool w)
                 /\ trace w' = trace w
               else
                 style_property_spec_pool w' = style_property_spec_pool w
                 /\ trace w' = trace w ++ [WarnInvalidCharacters (name pspec)]
           end
     end.
Proof.
  intros Howner Hfresh w'. subst w'.
  unfold mx_stylable_iface_install_property, installable.
  rewrite (proj2 (N.eqb_neq owner G_TYPE_INVALID) Howner).
  destruct (Z.land (flags pspec) G_PARAM_READABLE =? 0); cbn [negb andb].
  { split; [reflexivity|]. split; [reflexivity | eauto]. }
  destruct (Z.land (flags pspec) (Z.lor G_PARAM_CONSTRUCT_ONLY G_PARAM_CONSTRUCT) =? 0);
    cbn [negb].
  2: { split; [reflexivity|]. split; [reflexivity | eauto]. }
  unfold g_param_spec_pool_lookup, param_spec_ht_lookup.
  destruct (style_property_spec_pool w !! (owner, name pspec)) as [original|] eqn:E.
  { split; [reflexivity|]. split; [reflexivity|]. split; [exact E | reflexivity]. }
  assert (Hpos : (0 <? owner)%N = true)
    by (apply N.ltb_lt; unfold G_TYPE_INVALID in Howner; lia).
  assert (Hwrite : forall stamped, param_spec_write pspec stamped w = w)
    by (intros stamped; unfold param_spec_write; now rewrite Hfresh).
  assert (Hinsert :
            g_param_spec_pool_insert
              (g_param_spec_set_qdata_full pspec quark_real_owner (g_type_name ts owner))
              owner w
            = if forallb pool_name_char (list_ascii_of_string (name pspec))
              then set_pool (<[(owner, name pspec) := stamped ts owner pspec]>
                               (style_property_spec_pool w)) w
              else log (WarnInvalidCharacters (name pspec)) w).
  { unfold g_param_spec_pool_insert.
    cbn [owner_type name g_param_spec_set_qdata_full]. rewrite Hfresh, Hpos.
    reflexivity. }
  destruct (is_canonical (name pspec)) eqn:Hcanon.
  { rewrite Hwrite, Hinsert, (canonical_pool_name _ Hcanon).
    split; [reflexivity|]. split; reflexivity. }
  destruct (style_property_spec_pool w !! (owner, canonicalize_key (name pspec))).
  { split; [reflexivity|]. split; reflexivity. }
  rewrite Hwrite, Hinsert.
  destruct (forallb pool_name_char (list_ascii_of_string (name pspec)));
    (split; [reflexivity|]); split; reflexivity.
Qed.

Lemma install_property_checks_witness :
  style_property_spec_pool
    (mx_stylable_iface_install_property Demo.types (Some Demo.default_iface)
       Demo.T_ACTOR (Some Demo.x_spacing) Demo.w_fresh)
  = <[(Demo.T_ACTOR, "x-spacing") := stamped Demo.types Demo.T_ACTOR Demo.x_spacing]> ∅.
Proof.
  refine (proj1 (proj2 (install_property_checks Demo.types Demo.default_iface
                          Demo.T_ACTOR Demo.x_spacing Demo.w_fresh _ _))).
  - vm_compute. discriminate.
  - reflexivity.
Defined.

(** A second install of the same name for the same owner changes nothing. *)
Example install_twice :
  let w1 := mx_stylable_iface_install_property Demo.types (Some Demo.default_iface)
              Demo.T_ACTOR (Some Demo.x_spacing) Demo.w_fresh in
  let w2 := mx_stylable_iface_install_property Demo.types (Some Demo.default_iface)
              Demo.T_ACTOR
              (Some (Demo.new_pspec "x-spacing" G_PARAM_READABLE Demo.T_STYLE)) w1 in
  style_property_spec_pool w2 = style_property_spec_pool w1
  /\ trace w2 = [WarnAlreadyContains Demo.T_ACTOR "x-spacing"].
Proof. split; vm_compute; reflexivity. Qed.

(** Names that are not canonical: a lookup tries the canonical form too, so
    [x_spacing] is taken for [x-spacing], and the pool takes no name with a
    space in it. *)
Example install_other_names :
  let w1 := mx_stylable_iface_install_property Demo.types (Some Demo.default_iface)
              Demo.T_ACTOR (Some Demo.x_spacing) Demo.w_fresh in
  let w2 := mx_stylable_iface_install_property Demo.types (Some Demo.default_iface)
              Demo.T_ACTOR
              (Some (Demo.new_pspec "x_spacing" G_PARAM_READABLE Demo.G_TYPE_INT)) w1 in
  let w3 := mx_stylable_iface_install_property Demo.types (Some Demo.default_iface)
              Demo.T_ACTOR
              (Some (Demo.new_pspec "y spacing" G_PARAM_READABLE Demo.G_TYPE_INT)) w1 in
  g_param_spec_pool_lookup Demo.types (style_property_spec_pool w1) "x_spacing"
    Demo.T_BUTTON true
  = Some (stamped Demo.types Demo.T_ACTOR Demo.x_spacing)
  /\ style_property_spec_pool w2 = style_property_spec_pool w1
  /\ trace w2 = [WarnAlreadyContains Demo.T_ACTOR "x_spacing"]
  /\ style_property_spec_pool w3 = style_property_spec_pool w1
  /\ trace w3 = [WarnInvalidCharacters "y spacing"].
Proof. repeat split; vm_compute; reflexivity. Qed.

(** *** Reference counts *)

Section RefCounts.
Implicit Types (w : World) (p a : positive) (q : pointer) (o : GObject).

Lemma refs_nonneg w p : 0 <= refs w p.
Proof. unfold refs. destruct (heap w !! p); lia. Qed.

Lemma refs_live w p o : heap w !! p = Some o -> refs w p = Z.pos (ref_count o).
Proof. unfold refs. now intros ->. Qed.

Lemma refs_dead w p : heap w !! p = None -> refs w p = 0.
Proof. unfold refs. now intros ->. Qed.

Lemma refs_log e w p : refs (log e w) p = refs w p.
Proof. reflexivity. Qed.

(** The count of [p] after the object at [a] was replaced. *)
Lemma refs_insert w a o p :
  refs (set_heap (<[a := o]> (heap w)) w) p
  = if decide (a = p) then Z.pos (ref_count o) else refs w p.
Proof.
  unfold refs; simpl. destruct (decide (a = p)) as [->|Hne].
  - now rewrite lookup_insert_eq.
  - now rewrite lookup_insert_ne.
Qed.

Lemma refs_delete w a p :
  refs (set_heap (delete a (heap w)) w) p
  = if decide (a = p) then 0 else refs w p.
Proof.
  unfold refs; simpl. destruct (decide (a = p)) as [->|Hne].
  - now rewrite lookup_delete_eq.
  - now rewrite lookup_delete_ne.
Qed.

Lemma live_indicator_ext w w' q p :
  refs w' p = refs w p -> live_indicator w' q p = live_indicator w q p.
Proof. unfold live_indicator. now intros ->. Qed.

Lemma refs_g_object_ref q w p :
  refs (snd (g_object_ref q w)) p = refs w p + live_indicator w q p.
Proof.
  unfold g_object_ref, live_indicator, object_at.
  destruct q as [a|]; [|simpl; rewrite ?refs_log; lia].
  destruct (heap w !! a) as [o|] eqn:Ha; cbn [snd].
  - rewrite refs_insert.
    destruct (decide (a = p)) as [->|Hne].
    + rewrite decide_True by reflexivity.
      rewrite (refs_live w p o Ha), decide_True by lia.
      cbn [ref_count with_ref_count]. lia.
    + rewrite decide_False by congruence. lia.
  - rewrite refs_log.
    destruct (decide (Some a = Some p)) as [[= ->]|]; [|lia].
    rewrite (refs_dead w p Ha), decide_False by lia. lia.
Qed.

Lemma refs_g_object_unref q w p :
  refs (g_object_unref q w) p = refs w p - live_indicator w q p.
Proof.
  unfold g_object_unref, live_indicator, object_at.
  destruct q as [a|]; [|simpl; rewrite ?refs_log; lia].
  destruct (heap w !! a) as [o|] eqn:Ha.
  - destruct (Pos.ltb_spec 1 (ref_count o)) as [Hrc|Hrc].
    + rewrite refs_insert.
      destruct (decide (a = p)) as [->|Hne].
      * rewrite decide_True by reflexivity.
        rewrite (refs_live w p o Ha), decide_True by lia.
        cbn [ref_count with_ref_count]. lia.
      * rewrite decide_False by congruence. lia.
    + rewrite refs_delete.
      destruct (decide (a = p)) as [->|Hne].
      * rewrite decide_True by reflexivity.
        rewrite (refs_live w p o Ha), decide_True by lia. lia.
      * rewrite decide_False by congruence. lia.
  - rewrite refs_log.
    destruct (decide (Some a = Some p)) as [[= ->]|]; [|lia].
    rewrite (refs_dead w p Ha), decide_False by lia. lia.
Qed.

Lemma fst_g_object_ref_sink q w : fst (g_object_ref_sink q w) = q.
Proof.
  unfold g_object_ref_sink.
  destruct q as [a|]; [|reflexivity].
  destruct (object_at w (Some a)) as [o|]; [|reflexivity].
  now destruct (floating o).
Qed.

Lemma refs_g_object_ref_sink q w p :
  is_floating w q = false ->
  refs (snd (g_object_ref_sink q w)) p = refs w p + live_indicator w q p.
Proof.
  intros Hfl. rewrite <- refs_g_object_ref.
  unfold g_object_ref_sink, g_object_ref, is_floating in *.
  destruct q as [a|]; [|reflexivity].
  destruct (object_at w (Some a)) as [o|]; [|reflexivity].
  now rewrite Hfl.
Qed.

Lemma refs_g_signal_emit q sig detail varargs w p :
  refs (g_signal_emit q sig detail varargs w) p = refs w p.
Proof.
  unfold g_signal_emit. destruct q as [a|]; [|reflexivity].
  now destruct (object_at w (Some a)).
Qed.

Lemma refs_g_object_notify q property_name w p :
  refs (g_object_notify q property_name w) p = refs w p.
Proof.
  unfold g_object_notify. destruct q as [a|]; [|reflexivity].
  now destruct (object_at w (Some a)).
Qed.

(** Storing under [quark] releases what was held there. *)
Lemma refs_g_object_set_qdata_full a quark data destroy w p :
  refs (g_object_set_qdata_full (Some a) quark data destroy w) p
  = refs w p - live_indicator w (held_under quark w a) p.
Proof.
  unfold g_object_set_qdata_full, held_under, qdata_at, object_at.
  destruct (heap w !! a) as [o|] eqn:Ha; cbn [fmap option_fmap option_map].
  2: { rewrite refs_log. unfold live_indicator.
       rewrite decide_False by discriminate. lia. }
  set (o' := with_qdata o _).
  assert (Hsame : forall x, refs (set_heap (<[a:=o']> (heap w)) w) x = refs w x).
  { intros x. rewrite refs_insert. destruct (decide (a = x)) as [->|]; [|reflexivity].
    now rewrite (refs_live w x o Ha). }
  destruct (qdata o !! quark) as [[[prev|nq] [| |]]|];
    cbn [run_destroy];
    try (rewrite Hsame; unfold live_indicator;
         rewrite decide_False by discriminate; lia).
  rewrite refs_g_object_unref, Hsame.
  now rewrite (live_indicator_ext w _ (Some prev) p (Hsame p)).
Qed.

(** The data list of an object is not touched by taking references. *)
Lemma qdata_at_g_object_ref q w a :
  qdata_at (snd (g_object_ref q w)) a = qdata_at w a.
Proof.
  unfold g_object_ref, qdata_at, object_at.
  destruct q as [b|]; [|reflexivity].
  destruct (heap w !! b) as [o|] eqn:Hb; [|reflexivity].
  cbn [snd set_heap heap].
  destruct (decide (b = a)) as [->|Hne].
  - now rewrite lookup_insert_eq, Hb.
  - now rewrite lookup_insert_ne.
Qed.

Lemma qdata_at_g_object_ref_sink q w a :
  qdata_at (snd (g_object_ref_sink q w)) a = qdata_at w a.
Proof.
  unfold g_object_ref_sink, qdata_at, object_at.
  destruct q as [b|]; [|reflexivity].
  destruct (heap w !! b) as [o|] eqn:Hb; [|reflexivity].
  destruct (floating o); cbn [snd set_heap heap];
    (destruct (decide (b = a)) as [->|Hne];
     [now rewrite lookup_insert_eq, Hb | now rewrite lookup_insert_ne]).
Qed.

Lemma is_floating_g_object_ref q w q' :
  is_floating (snd (g_object_ref q w)) q' = is_floating w q'.
Proof.
  unfold g_object_ref, is_floating, object_at.
  destruct q as [b|]; [|reflexivity].
  destruct (heap w !! b) as [o|] eqn:Hb; [|reflexivity].
  destruct q' as [c|]; [|reflexivity].
  cbn [snd set_heap heap].
  destruct (decide (b = c)) as [->|Hne].
  - now rewrite lookup_insert_eq, Hb.
  - now rewrite lookup_insert_ne.
Qed.

End RefCounts.

(** *** Replacing the style *)

Lemma style_is_live (ts : TypeSystem) (w : World) (s : positive) :
  MX_IS_STYLE ts (Some s) w = true -> 0 < refs w s.
Proof.
  unfold MX_IS_STYLE, object_at, refs.
  destruct (heap w !! s); [lia | discriminate].
Qed.

Lemma held_under_ext (quark : GQuark) (w w' : World) (a : positive) :
  qdata_at w' a = qdata_at w a -> held_under quark w' a = held_under quark w a.
Proof. unfold held_under. now intros ->. Qed.

(** C4, as stated, fails on the very first call: the new style is retained
    once, but no object loses a reference, since no style was attached
    before. *)
Lemma first_set_style_releases_nothing :
  let w' := mx_stylable_set_style Demo.types (Some Demo.actor)
              (Some Demo.style_a) Demo.w_fresh in
  refs w' Demo.style_a = refs Demo.w_fresh Demo.style_a + 1
  /\ length (released Demo.w_fresh w') <> 1%nat.
Proof. split; vm_compute; discriminate || reflexivity. Qed.

(** C4, amended: a call of [mx_stylable_set_style] that goes through the
    default [set_style] (with any [get_style]) adds exactly one reference
    to the new style and takes exactly one from the style that an earlier
    call stored, if there is one; no other reference count changes, and on
    the first call, when nothing is stored, none goes down.  This is for
    calls in which the release of the stored style is plain
    ([release_is_plain]): the stored style keeps a reference, or its data
    list holds no object.  Then an object that the call finalises holds no
    object, which is the case in which [g_object_unref] here, which leaves
    the data list of a finalised object alone, does what GObject does. *)
Theorem set_style_reference_counts (ts : TypeSystem) (w : World)
    (a s p : positive) (iface : MxStylableIface) :
  MX_STYLABLE_GET_IFACE ts (Some a) w = Some iface ->
  set_style iface = None ->
  MX_IS_STYLE ts (Some s) w = true ->
  is_floating w (Some s) = false ->
  stored_style_live w a ->
  release_is_plain w a s ->
  let w' := mx_stylable_set_style ts (Some a) (Some s) w in
  refs w' p = refs w p + indicator (Some s) p - indicator (stored_style w a) p
  /\ (0 < refs w p -> refs w' p = 0 -> holds_no_object w p).
Proof.
  intros Hiface Hset Hstyle Hfl Hprev Hplain w'.
  assert (Hrefs : refs w' p
                  = refs w p + indicator (Some s) p - indicator (stored_style w a) p).
  { subst w'.
    pose proof (style_is_live ts w s Hstyle) as Hs.
    unfold mx_stylable_set_style, mx_stylable_get_style.
    rewrite Hiface, Hstyle, Hset. cbn [negb].
    set (old := match get_style iface with
                | Some f => f (Some a) w
                | None => data_pointer (g_object_get_data (Some a) "mx-stylable-style" w)
                end).
    replace (match get_style iface with
             | Some f => (f (Some a) w, w)
             | None => (data_pointer (g_object_get_data (Some a) "mx-stylable-style" w), w)
             end) with (old, w) by (subst old; now destruct (get_style iface)).
    cbv beta iota.
    set (w1 := snd (g_object_ref old w)).
    rewrite (surjective_pairing (g_object_ref_sink (Some s) w1)).
    rewrite fst_g_object_ref_sink. cbn [fmap option_fmap option_map].
    set (w2 := snd (g_object_ref_sink (Some s) w1)).
    set (w3 := g_object_set_qdata_full (Some a) quark_style _ _ w2).
    set (w4 := g_signal_emit (Some a) STYLE_CHANGED None _ w3).
    assert (H1 : forall x, refs w1 x = refs w x + live_indicator w old x)
      by (intros x; apply refs_g_object_ref).
    assert (H2 : forall x, refs w2 x = refs w1 x + live_indicator w1 (Some s) x).
    { intros x. apply refs_g_object_ref_sink.
      subst w1. now rewrite is_floating_g_object_ref. }
    assert (Hheld : held_under quark_style w2 a = stored_style w a).
    { unfold stored_style. apply held_under_ext.
      subst w2 w1. now rewrite qdata_at_g_object_ref_sink, qdata_at_g_object_ref. }
    assert (H3 : forall x, refs w3 x = refs w2 x - live_indicator w2 (stored_style w a) x).
    { intros x. subst w3. now rewrite refs_g_object_set_qdata_full, Hheld. }
    assert (H4 : forall x, refs w4 x = refs w3 x)
      by (intros x; apply refs_g_signal_emit).
    rewrite refs_g_object_notify, refs_g_object_unref, H4, H3, H2, H1.
    unfold stored_style_live in Hprev.
    pose proof (refs_nonneg w p) as Hp.
    unfold live_indicator, indicator.
    rewrite H4, H3, H2, H1.
    unfold live_indicator.
    destruct (stored_style w a) as [prev|].
    - repeat (case_decide; simplify_eq; try lia).
    - repeat (case_decide; simplify_eq; try lia).
  }
  split; [exact Hrefs|].
  intros Hlive Hgone. rewrite Hgone in Hrefs.
  unfold release_is_plain in Hplain. unfold indicator in Hrefs.
  destruct (stored_style w a) as [prev|].
  - destruct (decide (Some prev = Some p)) as [[= ->]|Hne].
    + destruct Hplain as [Hkept|Hnone]; [|exact Hnone].
      destruct (decide (Some s = Some p)) as [[= ->]|Hs].
      * rewrite decide_True in Hkept by reflexivity. lia.
      * rewrite decide_False in Hkept by congruence. lia.
    + destruct (decide (Some s = Some p)); lia.
  - destruct (decide (Some s = Some p)), (decide (None = Some p)); try discriminate; lia.
Qed.

Lemma set_style_reference_counts_witness :
  let w1 := mx_stylable_set_style Demo.types (Some Demo.actor)
              (Some Demo.style_a) Demo.w_fresh in
  let w2 := mx_stylable_set_style Demo.types (Some Demo.actor)
              (Some Demo.style_b) w1 in
  refs w2 Demo.style_a = refs w1 Demo.style_a + 0 - 1.
Proof.
  intros w1 w2.
  apply (set_style_reference_counts Demo.types w1 Demo.actor Demo.style_b
           Demo.style_a Demo.default_iface).
  - reflexivity.
  - reflexivity.
  - reflexivity.
  - reflexivity.
  - vm_compute. reflexivity.
  - vm_compute. left. reflexivity.
Defined.

(** *** What [set_style] leaves alone *)

Section Keeps.
Context (quark : GQuark).
Implicit Types (w : World) (a : positive) (q : pointer) (o : GObject).

Lemma keeps_refl w : keeps_data_except quark w w.
Proof. intros a o' H. eauto. Qed.

Lemma keeps_trans w1 w2 w3 :
  keeps_data_except quark w1 w2 -> keeps_data_except quark w2 w3 ->
  keeps_data_except quark w1 w3.
Proof.
  intros H12 H23 a o3 H3.
  destruct (H23 a o3 H3) as (o2 & H2 & Ht2 & Hd2).
  destruct (H12 a o2 H2) as (o1 & H1 & Ht1 & Hd1).
  exists o1. split; [assumption|]. split; [congruence|].
  intros k Hk. rewrite Hd2, Hd1 by assumption. reflexivity.
Qed.

Lemma keeps_same_heap w w' : heap w' = heap w -> keeps_data_except quark w w'.
Proof. intros E a o' H. rewrite E in H. eauto. Qed.

Lemma keeps_insert w a o o1 :
  heap w !! a = Some o -> g_type o1 = g_type o ->
  (forall k, k <> quark -> qdata o1 !! k = qdata o !! k) ->
  keeps_data_except quark w (set_heap (<[a := o1]> (heap w)) w).
Proof.
  intros Ha Ht Hd b o' H. simpl in H.
  destruct (decide (a = b)) as [->|Hne].
  - rewrite lookup_insert_eq in H. injection H as <-. eauto.
  - rewrite lookup_insert_ne in H by assumption. eauto.
Qed.

Lemma keeps_delete w a :
  keeps_data_except quark w (set_heap (delete a (heap w)) w).
Proof.
  intros b o' H. simpl in H.
  apply lookup_delete_Some in H as [_ H]. eauto.
Qed.

Lemma keeps_g_object_ref q w :
  keeps_data_except quark w (snd (g_object_ref q w)).
Proof.
  unfold g_object_ref, object_at. destruct q as [a|]; [|now apply keeps_same_heap].
  destruct (heap w !! a) as [o|] eqn:Ha; [|now apply keeps_same_heap].
  now apply (keeps_insert w a o).
Qed.

Lemma keeps_g_object_ref_sink q w :
  keeps_data_except quark w (snd (g_object_ref_sink q w)).
Proof.
  unfold g_object_ref_sink, object_at. destruct q as [a|]; [|now apply keeps_same_heap].
  destruct (heap w !! a) as [o|] eqn:Ha; [|now apply keeps_same_heap].
  destruct (floating o); now apply (keeps_insert w a o).
Qed.

Lemma keeps_g_object_unref q w :
  keeps_data_except quark w (g_object_unref q w).
Proof.
  unfold g_object_unref, object_at. destruct q as [a|]; [|now apply keeps_same_heap].
  destruct (heap w !! a) as [o|] eqn:Ha; [|now apply keeps_same_heap].
  destruct (1 <? ref_count o)%positive.
  - now apply (keeps_insert w a o).
  - apply keeps_delete.
Qed.

Lemma keeps_g_signal_emit q sig detail varargs w :
  keeps_data_except quark w (g_signal_emit q sig detail varargs w).
Proof.
  apply keeps_same_heap. unfold g_signal_emit.
  destruct q as [a|]; [|reflexivity]. now destruct (object_at w (Some a)).
Qed.

Lemma keeps_g_object_notify q property_name w :
  keeps_data_except quark w (g_object_notify q property_name w).
Proof.
  apply keeps_same_heap. unfold g_object_notify.
  destruct q as [a|]; [|reflexivity]. now destruct (object_at w (Some a)).
Qed.

Lemma keeps_g_object_set_qdata_full q data destroy w :
  keeps_data_except quark w (g_object_set_qdata_full q quark data destroy w).
Proof.
  unfold g_object_set_qdata_full, object_at.
  destruct q as [a|]; [|now apply keeps_same_heap].
  destruct (heap w !! a) as [o|] eqn:Ha; [|now apply keeps_same_heap].
  set (o1 := with_qdata o _).
  assert (H1 : keeps_data_except quark w (set_heap (<[a:=o1]> (heap w)) w)).
  { apply (keeps_insert w a o); [assumption | reflexivity |].
    intros k Hk. subst o1. cbn [qdata with_qdata].
    destruct data; [now rewrite lookup_insert_ne | now rewrite lookup_delete_ne]. }
  destruct (qdata o !! quark) as [[[prev|nq] [| |]]|]; cbn [run_destroy];
    try exact H1.
  eapply keeps_trans; [exact H1 | apply keeps_g_object_unref].
Qed.

End Keeps.

Lemma set_style_keeps (ts : TypeSystem) (w : World) (a : positive)
    (style : pointer) (iface : MxStylableIface) :
  MX_STYLABLE_GET_IFACE ts (Some a) w = Some iface ->
  set_style iface = None ->
  keeps_data_except quark_style w (mx_stylable_set_style ts (Some a) style w).
Proof.
  intros Hiface Hset.
  unfold mx_stylable_set_style, mx_stylable_get_style.
  rewrite Hiface, Hset.
  destruct (MX_IS_STYLE ts style w); cbn [negb]; [|now apply keeps_same_heap].
  set (old := match get_style iface with
              | Some f => f (Some a) w
              | None => data_pointer (g_object_get_data (Some a) "mx-stylable-style" w)
              end).
  replace (match get_style iface with
           | Some f => (f (Some a) w, w)
           | None => (data_pointer (g_object_get_data (Some a) "mx-stylable-style" w), w)
           end) with (old, w) by (subst old; now destruct (get_style iface)).
  cbv beta iota.
  rewrite (surjective_pairing (g_object_ref_sink style (snd (g_object_ref old w)))).
  eapply keeps_trans; [|apply keeps_g_object_notify].
  eapply keeps_trans; [|apply keeps_g_object_unref].
  eapply keeps_trans; [|apply keeps_g_signal_emit].
  eapply keeps_trans; [|apply keeps_g_object_set_qdata_full].
  eapply keeps_trans; [|apply keeps_g_object_ref_sink].
  apply keeps_g_object_ref.
Qed.

(** C1 fails on the code: the default [get_style] reads the data stored
    under the key ["mx-stylable-style"], the default [set_style] writes
    under [quark_style], which is the quark of ["mx-stylable-style-quark"].
    So for an object that has nothing under the first key, [get_style]
    after [set_style (style)] still returns [NULL], whatever [style] is. *)
Theorem default_get_style_misses_set_style (ts : TypeSystem) (w : World)
    (a : positive) (style : pointer) (iface : MxStylableIface) :
  MX_STYLABLE_GET_IFACE ts (Some a) w = Some iface ->
  get_style iface = None ->
  set_style iface = None ->
  g_object_get_data (Some a) "mx-stylable-style" w = None ->
  fst (mx_stylable_get_style ts (Some a)
         (mx_stylable_set_style ts (Some a) style w)) = None.
Proof.
  intros Hiface Hget Hset Hdata.
  pose proof (set_style_keeps ts w a style iface Hiface Hset) as Hkeeps.
  set (w' := mx_stylable_set_style ts (Some a) style w) in *.
  unfold mx_stylable_get_style, MX_STYLABLE_GET_IFACE, object_at.
  destruct (heap w' !! a) as [o'|] eqn:Ha'; [|reflexivity].
  destruct (Hkeeps a o' Ha') as (o & Ha & Ht & Hd).
  unfold MX_STYLABLE_GET_IFACE, object_at in Hiface. rewrite Ha in Hiface.
  rewrite Ht, Hiface, Hget. cbn [fst].
  unfold g_object_get_data, object_at in *. rewrite Ha in Hdata. rewrite Ha'.
  rewrite Hd by discriminate. now rewrite Hdata.
Qed.

Lemma default_get_style_misses_set_style_witness :
  fst (mx_stylable_get_style Demo.types (Some Demo.actor)
         (mx_stylable_set_style Demo.types (Some Demo.actor) (Some Demo.style_a)
            Demo.w_fresh)) = None.
Proof.
  apply (default_get_style_misses_set_style Demo.types Demo.w_fresh Demo.actor
           (Some Demo.style_a) Demo.default_iface); reflexivity.
Defined.

(** C3 fails on the code: [style-changed] is created without parameters,
    so whatever [g_signal_emit] is handed after the detail never reaches a
    handler.  The button below has style A attached; replacing it by style
    B emits [style-changed] with no argument at all, then notifies the
    property [style]. *)
Theorem style_changed_has_no_payload :
  (forall instance detail varargs w,
      g_signal_emit instance STYLE_CHANGED detail varargs w
      = g_signal_emit instance STYLE_CHANGED detail [] w)
  /\ let w1 := mx_stylable_set_style Demo.types (Some Demo.button)
                 (Some Demo.style_a) Demo.w_fresh in
     let w2 := mx_stylable_set_style Demo.types (Some Demo.button)
                 (Some Demo.style_b) w1 in
     fst (mx_stylable_get_style Demo.types (Some Demo.button) w1)
     = Some Demo.style_a
     /\ Demo.events_since w1 w2
        = [SignalEmit Demo.button STYLE_CHANGED None [];
           ObjectNotify Demo.button "style"].
Proof.
  split.
  - intros instance detail varargs w. unfold g_signal_emit.
    destruct instance as [a|]; [|reflexivity].
    destruct (object_at w (Some a)); reflexivity.
  - split; vm_compute; reflexivity.
Qed.

End StylableProofs.

(** * More properties of the shorthand parsers *)

Module TypesMore.
Import GLib MxTypes Spec Observe TypesProofs.

(** *** Numerals *)

Lemma digit_is_plain (c : ascii) :
  isdigit c = true ->
  isspace c = false /\ Ascii.eqb c "-" = false /\ Ascii.eqb c "+" = false.
Proof.
  destruct c as [[] [] [] [] [] [] [] []]; try discriminate; now repeat split.
Qed.

Lemma digits_uint_acc (u : Decimal.uint) (acc : positive) (rest : string) :
  starts_with_digit rest = false ->
  digits (DecimalString.NilEmpty.string_of_uint u +:+ rest) (Z.pos acc)
  = Z.pos (Pos.of_uint_acc u acc).
Proof.
  intros Hrest. revert acc.
  induction u as [|u IH|u IH|u IH|u IH|u IH|u IH|u IH|u IH|u IH|u IH]; intros acc;
    cbn [DecimalString.NilEmpty.string_of_uint Pos.of_uint_acc];
    rewrite ?append_nil_l, ?append_cons;
    [ now apply digits_no_digit | .. ];
    cbn [digits]; change (isdigit _) with true; cbv iota;
    unfold digit_value;
    match goal with
    | |- digits _ (_ + (?k - 48)) = Z.pos (Pos.of_uint_acc _ ?q) =>
        let v := eval vm_compute in k in
        change k with v; rewrite <- (IH q); f_equal; lia
    end.
Qed.

Lemma digits_uint (u : Decimal.uint) (rest : string) :
  starts_with_digit rest = false ->
  digits (DecimalString.NilEmpty.string_of_uint u +:+ rest) 0
  = Z.of_N (Pos.of_uint u).
Proof.
  intros Hrest.
  induction u as [|u IH|u IH|u IH|u IH|u IH|u IH|u IH|u IH|u IH|u IH];
    cbn [DecimalString.NilEmpty.string_of_uint Pos.of_uint];
    rewrite ?append_nil_l, ?append_cons;
    [ now apply digits_no_digit | exact IH | .. ];
    cbn [digits]; change (isdigit _) with true; cbv iota;
    unfold digit_value;
    match goal with
    | |- digits _ (_ + (?k - 48)) = Z.of_N (N.pos (Pos.of_uint_acc _ ?q)) =>
        let v := eval vm_compute in k in
        change k with v; cbn [Z.of_N];
        rewrite <- (digits_uint_acc u q rest Hrest); f_equal
    end.
Qed.

Lemma uint_head_digit (u : Decimal.uint) :
  u <> Decimal.Nil ->
  exists c s, DecimalString.NilEmpty.string_of_uint u = String c s
              /\ isdigit c = true.
Proof.
  destruct u; [congruence | ..]; intros _;
    cbn [DecimalString.NilEmpty.string_of_uint]; eauto.
Qed.

Lemma show_nat_head (n : N) :
  exists c s, show_nat n = String c s /\ isdigit c = true.
Proof.
  unfold show_nat. apply uint_head_digit.
  destruct n as [|p]; [discriminate|].
  apply DecimalPos.Unsigned.to_uint_nonnil.
Qed.

Lemma to_int_in_range (v : Z) :
  INT_MIN <= v <= INT_MAX ->
  to_int (Z.max LONG_MIN (Z.min LONG_MAX v)) = v.
Proof.
  unfold INT_MIN, INT_MAX, LONG_MIN, LONG_MAX, to_int.
  change (2 ^ 31) with 2147483648. change (2 ^ 32) with 4294967296.
  change (2 ^ 63) with 9223372036854775808.
  intros H. rewrite Z.min_r, Z.max_r by lia.
  rewrite Z.mod_small by lia. lia.
Qed.

Lemma atoi_show_nat (n : N) (rest : string) :
  Z.of_N n <= INT_MAX ->
  starts_with_digit rest = false ->
  atoi (show_nat n +:+ rest) = Z.of_N n.
Proof.
  intros Hn Hrest.
  assert (Hd : digits (show_nat n +:+ rest) 0 = Z.of_N n).
  { unfold show_nat. rewrite digits_uint by assumption.
    change (Pos.of_uint (N.to_uint n)) with (N.of_uint (N.to_uint n)).
    now rewrite DecimalN.Unsigned.of_to. }
  destruct (show_nat_head n) as (c & s & Hs & Hc).
  destruct (digit_is_plain c Hc) as (Hsp & Hminus & Hplus).
  unfold atoi, strtol. rewrite Hs in *. rewrite append_cons in *.
  cbn [skip_space]. rewrite Hsp, Hminus, Hplus, Hd.
  apply to_int_in_range. unfold INT_MIN. change (2 ^ 31) with 2147483648. lia.
Qed.

(** [atoi] reads back the numeral of every [int], whatever follows it, as
    long as that does not start with a digit. *)
Lemma atoi_show_int (z : Z) (rest : string) :
  in_int z = true ->
  starts_with_digit rest = false ->
  atoi (show_int z +:+ rest) = z.
Proof.
  unfold in_int, show_int. intros [Hlo Hhi]%andb_true_iff Hrest.
  apply Z.leb_le in Hlo, Hhi.
  destruct (Z.ltb_spec z 0) as [Hneg|Hpos].
  - rewrite append_assoc, append_cons, append_nil_l.
    assert (Hd : digits (show_nat (Z.to_N (- z)) +:+ rest) 0 = - z).
    { unfold show_nat. rewrite digits_uint by assumption.
      change (Pos.of_uint (N.to_uint (Z.to_N (- z))))
        with (N.of_uint (N.to_uint (Z.to_N (- z)))).
      rewrite DecimalN.Unsigned.of_to. lia. }
    unfold atoi, strtol. cbn [skip_space].
    change (isspace "-") with false. cbv iota.
    change (Ascii.eqb "-" "-") with true. cbv iota.
    rewrite Hd, Z.opp_involutive.
    apply to_int_in_range. lia.
  - rewrite atoi_show_nat by (assumption || lia). lia.
Qed.

Lemma free_of_uint (d : ascii -> bool) (u : Decimal.uint) :
  (forall c, isdigit c = true -> d c = false) ->
  free_of d (DecimalString.NilEmpty.string_of_uint u) = true.
Proof.
  intros Hd.
  induction u; cbn [DecimalString.NilEmpty.string_of_uint free_of];
    [reflexivity | ..]; rewrite IHu, Hd by reflexivity; reflexivity.
Qed.

Lemma free_of_show_int (d : ascii -> bool) (z : Z) :
  (forall c, isdigit c = true -> d c = false) -> d "-"%char = false ->
  free_of d (show_int z) = true.
Proof.
  intros Hd Hminus. unfold show_int, show_nat.
  destruct (z <? 0).
  - rewrite append_cons, append_nil_l. cbn [free_of].
    now rewrite Hminus, free_of_uint.
  - now apply free_of_uint.
Qed.

Lemma space_is_no_digit (c : ascii) : isdigit c = true -> Ascii.eqb " " c = false.
Proof. destruct c as [[] [] [] [] [] [] [] []]; try discriminate; reflexivity. Qed.

Lemma show_int_nonempty (z : Z) (rest : string) : show_int z +:+ rest <> "".
Proof.
  unfold show_int. destruct (z <? 0).
  - rewrite append_assoc, append_cons. discriminate.
  - destruct (show_nat_head (Z.to_N z)) as (c & s & -> & _).
    rewrite append_cons. discriminate.
Qed.

(** *** Box edges, continued *)

(** Splitting at spaces undoes joining with spaces. *)
Lemma g_strsplit_join (tokens : list string) :
  tokens <> [] -> tokens <> [""] ->
  forallb (free_of (Ascii.eqb " ")) tokens = true ->
  g_strsplit (g_strjoinv " " tokens) " " = tokens.
Proof.
  intros Hne Hne' Hfree.
  pose proof (split_loop_join (Ascii.eqb " ") tokens eq_refl Hne Hfree) as H.
  unfold g_strsplit. destruct (g_strjoinv " " tokens); [|exact H].
  simpl in H. congruence.
Qed.

Lemma atoi_with_unit (vus : list (Z * string)) :
  forallb value_ok vus = true ->
  atoi <$> (with_unit <$> vus) = fst <$> vus.
Proof.
  induction vus as [|[v u] vus IH]; [reflexivity|].
  cbn [forallb]. intros [Hv Hrest]%andb_true_iff.
  unfold value_ok, is_unit in Hv. cbn [fst snd] in Hv.
  apply andb_true_iff in Hv as [Hint [_ Hu%negb_true_iff]%andb_true_iff].
  cbn [fmap list_fmap fst]. unfold with_unit at 1. cbn [fst snd].
  rewrite atoi_show_int by assumption.
  f_equal. now apply IH.
Qed.

Lemma with_unit_free (vus : list (Z * string)) :
  forallb value_ok vus = true ->
  forallb (free_of (Ascii.eqb " ")) (with_unit <$> vus) = true.
Proof.
  induction vus as [|[v u] vus IH]; [reflexivity|].
  cbn [forallb]. intros [Hv Hrest]%andb_true_iff.
  unfold value_ok, is_unit in Hv. cbn [fst snd] in Hv.
  apply andb_true_iff in Hv as [_ [Hu _]%andb_true_iff].
  cbn [fmap list_fmap forallb]. unfold with_unit at 1. cbn [fst snd].
  rewrite free_of_app, Hu, IH by assumption.
  rewrite free_of_show_int by (reflexivity || apply space_is_no_digit).
  reflexivity.
Qed.

(** X1: [mx_padding_from_string] reads back what was written: for one to
    four [int] values, written as decimal numerals, each followed by an
    optional unit (text without space that does not start with a digit, as
    in [10px]) and joined by single spaces, the result is the positional
    shorthand of exactly these values. *)
Theorem padding_reads_numerals (vus : list (Z * string)) :
  forallb value_ok vus = true ->
  (1 <= length vus <= 4)%nat ->
  mx_padding_from_string (Some (g_strjoinv " " (with_unit <$> vus)))
  = Done (shorthand (fst <$> vus)).
Proof.
  intros Hok Hlen.
  rewrite padding_of_tokens, g_strsplit_join.
  - now rewrite atoi_with_unit.
  - destruct vus; simpl in *; [lia | discriminate].
  - destruct vus as [|[v u] [|vu vus]]; simpl in Hlen; try lia; try discriminate.
    cbn [fmap list_fmap]. unfold with_unit. cbn [fst snd]. intros [= H].
    now apply show_int_nonempty in H.
  - now apply with_unit_free.
Qed.

Lemma padding_reads_numerals_witness :
  mx_padding_from_string (Some "10px -5 0em")
  = Done {| top := 10; right := -5; bottom := 0; left := -5 |}.
Proof.
  apply (padding_reads_numerals [(10, "px"); (-5, ""); (0, "em")]).
  - reflexivity.
  - simpl; lia.
Defined.

Lemma split_loop_length (c : ascii) (s cur : string) :
  length (split_loop (Ascii.eqb c) s cur) = S (count_char c s).
Proof.
  revert cur; induction s as [|x s IH]; intros cur; [reflexivity|].
  cbn [split_loop count_char]. destruct (Ascii.eqb c x).
  - cbn [length]. now rewrite IH.
  - now rewrite IH.
Qed.

(** X2: the empty text has no token and every other text has one token
    more than it has spaces; so a text with four spaces or more, whatever
    stands between them, gives the all-zero padding. *)
Theorem padding_of_many_spaces (str : string) :
  g_strv_length (g_strsplit str " ")
  = (if String.eqb str "" then 0 else Z.of_nat (S (count_char " " str)))
  /\ ((4 <= count_char " " str)%nat ->
      mx_padding_from_string (Some str) = Done padding_zero).
Proof.
  assert (Hlen : str <> "" ->
                 length (g_strsplit str " ") = S (count_char " " str)).
  { intros Hne. destruct str as [|x str]; [congruence|].
    unfold g_strsplit. apply split_loop_length. }
  split.
  - destruct (String.eqb_spec str "") as [->|Hne]; [reflexivity|].
    unfold g_strv_length. now rewrite (Hlen Hne).
  - intros Hcount.
    assert (Hne : str <> "") by (intros ->; simpl in Hcount; lia).
    specialize (Hlen Hne).
    rewrite padding_of_tokens.
    destruct (g_strsplit str " ") as [|a [|b [|c [|d [|e l]]]]];
      simpl in Hlen; try lia; reflexivity.
Qed.

Lemma padding_of_many_spaces_witness :
  g_strv_length (g_strsplit "1 2 3 4 5" " ") = 5
  /\ mx_padding_from_string (Some "1 2 3 4 5") = Done padding_zero.
Proof.
  destruct (padding_of_many_spaces "1 2 3 4 5") as [Hcount Hzero].
  split; [exact Hcount|]. apply Hzero. simpl; lia.
Defined.

(** X3: spaces at the ends are not trimmed: a space before the only value
    makes it the second of two tokens (left and right), a space after it
    makes it the first (top and bottom); the empty token beside it reads
    as zero. *)
Theorem padding_space_is_not_trimmed (s : string) :
  free_of (Ascii.eqb " ") s = true ->
  mx_padding_from_string (Some (" " +:+ s))
  = Done {| top := 0; right := atoi s; bottom := 0; left := atoi s |}
  /\ mx_padding_from_string (Some (s +:+ " "))
     = Done {| top := atoi s; right := 0; bottom := atoi s; left := 0 |}.
Proof.
  intros Hfree. rewrite !padding_of_tokens. split.
  - rewrite append_cons, append_nil_l. unfold g_strsplit.
    change (String " " s) with ("" +:+ String " " s).
    rewrite split_loop_cut by reflexivity.
    rewrite split_loop_free by assumption. reflexivity.
  - assert (E : g_strsplit (s +:+ " ") " " = [s; ""]).
    { unfold g_strsplit.
      destruct (s +:+ " ") eqn:Es; [destruct s; discriminate|].
      rewrite <- Es.
      change (s +:+ " ") with (s +:+ String " " "").
      rewrite split_loop_cut by (assumption || reflexivity).
      reflexivity. }
    rewrite E. reflexivity.
Qed.

Lemma padding_space_is_not_trimmed_witness :
  mx_padding_from_string (Some " 10")
  = Done {| top := 0; right := 10; bottom := 0; left := 10 |}
  /\ mx_padding_from_string (Some "10 ")
     = Done {| top := 10; right := 0; bottom := 10; left := 0 |}.
Proof.
  apply (padding_space_is_not_trimmed "10"). reflexivity.
Defined.

(** *** Bordered images, continued *)

Lemma border_image_malformed_witness :
  mx_border_image_set_from_string (Some "img.png 3") (Some "/a/style.css")
  = Done (border_image_zero, [CouldNotParseBorderImage "img.png 3"]).
Proof.
  apply (border_image_malformed "img.png 3" (Some "/a/style.css")).
  - discriminate.
  - right. vm_compute. discriminate.
Defined.

(** The result for three tokens or more, the first being [url], with or
    without a file name. *)
Lemma border_image_of_tokens_any (str t1 path : string) (rest : list string)
    (filename : option string) :
  str <> "none" ->
  g_strsplit_set str border_image_delimiters = "url" :: t1 :: path :: rest ->
  mx_border_image_set_from_string (Some str) filename
  = Done (bordered_image
            (if starts_with_slash path then Some path
             else g_strconcat3 (g_path_get_dirname filename) "/" path)
            (if (3 <=? length rest)%nat && (length rest <=? 6)%nat
             then shorthand (atoi <$> drop 2 rest)
             else padding_zero), []).
Proof.
  intros Hnone Hstrv. unfold mx_border_image_set_from_string; cbn [bind deref].
  apply String.eqb_neq in Hnone. rewrite Hnone, Hstrv.
  unfold bordered_image.
  destruct rest as [|t3 [|t4 [|t5 [|t6 [|t7 [|t8 [|t9 l]]]]]]];
    try reflexivity.
  remember (t3 :: t4 :: t5 :: t6 :: t7 :: t8 :: t9 :: l) as rest eqn:Hrest.
  assert (Hlen : 9 < g_strv_length ("url" :: t1 :: path :: rest)).
  { subst rest. unfold g_strv_length. simpl length. lia. }
  assert (Hlen' : (length rest <=? 6)%nat = false).
  { subst rest. reflexivity. }
  rewrite Hlen', andb_false_r.
  remember (g_strv_length ("url" :: t1 :: path :: rest)) as n.
  rewrite (proj2 (Z.ltb_ge n 2)) by lia.
  rewrite !(proj2 (Z.eqb_neq n _)) by lia.
  reflexivity.
Qed.

Lemma delimited_form_tokens (d1 d2 d3 d4 d5 : ascii) (path : string)
    (edges : list string) :
  forallb (in_set border_image_delimiters) [d1; d2; d3; d4; d5] = true ->
  free_of (in_set border_image_delimiters) path = true ->
  forallb (free_of (in_set border_image_delimiters)) edges = true ->
  edges <> [] ->
  g_strsplit_set (delimited_form d1 d2 d3 d4 d5 path edges) border_image_delimiters
  = "url" :: "" :: path :: "" :: "" :: edges.
Proof.
  intros Hd Hpath Hedges Hne.
  cbn [forallb] in Hd.
  apply andb_true_iff in Hd as [H1 Hd]. apply andb_true_iff in Hd as [H2 Hd].
  apply andb_true_iff in Hd as [H3 Hd]. apply andb_true_iff in Hd as [H4 Hd].
  apply andb_true_iff in Hd as [H5 _].
  unfold delimited_form, g_strsplit_set.
  rewrite append_cons. rewrite <- append_cons.
  rewrite split_loop_cut by (reflexivity || assumption).
  change (String d2 (path +:+ String d3 (String d4 (String d5 (g_strjoinv " " edges)))))
    with ("" +:+ String d2 (path +:+ String d3
                              ("" +:+ String d4 ("" +:+ String d5 (g_strjoinv " " edges))))).
  rewrite split_loop_cut by (reflexivity || assumption).
  rewrite split_loop_cut by assumption.
  rewrite split_loop_cut by (reflexivity || assumption).
  rewrite split_loop_cut by (reflexivity || assumption).
  rewrite split_loop_join by (reflexivity || assumption).
  reflexivity.
Qed.

(** X5: the parser does not look at which delimiters it meets: with any two
    delimiter characters between [url] and the path and any three between
    the path and the edges (the canonical form has an opening parenthesis
    and a quote, then a quote, a closing parenthesis and a space), the
    result is that of the canonical quoted form: the path resolved, one to
    four edge tokens read by the positional shorthand. *)
Theorem border_image_any_delimiters (d1 d2 d3 d4 d5 : ascii)
    (path base_path : string) (edges : list string) :
  forallb (in_set border_image_delimiters) [d1; d2; d3; d4; d5] = true ->
  free_of (in_set border_image_delimiters) path = true ->
  forallb (free_of (in_set border_image_delimiters)) edges = true ->
  (1 <= length edges <= 4)%nat ->
  mx_border_image_set_from_string (Some (delimited_form d1 d2 d3 d4 d5 path edges))
    (Some base_path)
  = Done (bordered_image (Some (resolve base_path path))
            (shorthand (atoi <$> edges)), []).
Proof.
  intros Hd Hpath Hedges Hlen.
  assert (Hne : edges <> []) by (destruct edges; simpl in Hlen; [lia | discriminate]).
  rewrite (border_image_of_tokens _ base_path "" path ("" :: "" :: edges)).
  - destruct edges as [|e1 [|e2 [|e3 [|e4 [|e5 l]]]]];
      simpl in Hlen; try lia; reflexivity.
  - unfold delimited_form. rewrite append_cons. discriminate.
  - now apply delimited_form_tokens.
Qed.

Lemma border_image_any_delimiters_witness :
  mx_border_image_set_from_string (Some "url  img.png   1 2") (Some "/a/style.css")
  = Done ({| uri := Some "/a/img.png";
             bi_top := 1; bi_right := 2; bi_bottom := 1; bi_left := 2 |}, []).
Proof.
  apply (border_image_any_delimiters " " " " " " " " " " "img.png" "/a/style.css"
           ["1"; "2"]).
  - reflexivity.
  - reflexivity.
  - reflexivity.
  - simpl; lia.
Defined.

(** X6: without a file name ([filename] is [NULL]) a relative path gives a
    bordered image whose uri is [NULL], without the warning of a failed
    parse (GLib complains of the [NULL] it is given), and the insets are
    read all the same; a path that starts with a slash is kept. *)
Theorem border_image_without_filename (str t1 path : string) (rest : list string) :
  str <> "none" ->
  g_strsplit_set str border_image_delimiters = "url" :: t1 :: path :: rest ->
  mx_border_image_set_from_string (Some str) None
  = Done (bordered_image
            (if starts_with_slash path then Some path else None)
            (if (3 <=? length rest)%nat && (length rest <=? 6)%nat
             then shorthand (atoi <$> drop 2 rest)
             else padding_zero), []).
Proof.
  intros Hnone Hstrv.
  now rewrite (border_image_of_tokens_any str t1 path rest None Hnone Hstrv).
Qed.

Lemma border_image_without_filename_witness :
  mx_border_image_set_from_string (Some (quoted_form dquote "img.png" ["7"])) None
  = Done ({| uri := None;
             bi_top := 7; bi_right := 7; bi_bottom := 7; bi_left := 7 |}, [])
  /\ mx_border_image_set_from_string
       (Some (quoted_form dquote "/abs/img.png" ["7"; "8"])) None
     = Done ({| uri := Some "/abs/img.png";
                bi_top := 7; bi_right := 8; bi_bottom := 7; bi_left := 8 |}, []).
Proof.
  split.
  - apply (border_image_without_filename (quoted_form dquote "img.png" ["7"])
             "" "img.png" [""; ""; "7"]).
    + vm_compute. discriminate.
    + reflexivity.
  - apply (border_image_without_filename
             (quoted_form dquote "/abs/img.png" ["7"; "8"])
             "" "/abs/img.png" [""; ""; "7"; "8"]).
    + vm_compute. discriminate.
    + reflexivity.
Defined.

(** *** The directory of the style sheet *)

Lemma strrchr_from_free (s : string) (c : ascii) (i : nat) (last : option nat) :
  free_of (fun x => Ascii.eqb x c) s = true ->
  strrchr_from s c i last = last.
Proof.
  revert i last; induction s as [|x s IH]; intros i last H; [reflexivity|].
  cbn [free_of] in H. apply andb_true_iff in H as [Hx Hs].
  apply negb_true_iff in Hx. cbn [strrchr_from]. rewrite Hx. now apply IH.
Qed.

(** The last occurrence is the one that only clean text follows. *)
Lemma strrchr_from_last (a s : string) (c : ascii) (i : nat) (last : option nat) :
  free_of (fun x => Ascii.eqb x c) s = true ->
  strrchr_from (a +:+ String c s) c i last = Some (i + String.length a)%nat.
Proof.
  intros Hs. revert i last; induction a as [|x a IH]; intros i last.
  - rewrite append_nil_l. cbn [strrchr_from]. rewrite Ascii.eqb_refl.
    rewrite strrchr_from_free by assumption. cbn [String.length]. f_equal. lia.
  - rewrite append_cons. cbn [strrchr_from String.length].
    rewrite IH. f_equal. lia.
Qed.

Lemma get_after (a : string) (c : ascii) (s : string) :
  String.get (String.length a) (a +:+ String c s) = Some c.
Proof.
  induction a as [|x a IH]; [reflexivity|].
  rewrite append_cons. cbn [String.length String.get]. exact IH.
Qed.

Lemma substring_prefix (a s : string) :
  String.substring 0 (String.length a) (a +:+ s) = a.
Proof.
  induction a as [|x a IH].
  - cbn [String.length]. rewrite append_nil_l. now destruct s.
  - rewrite append_cons. cbn [String.length String.substring]. now rewrite IH.
Qed.

Lemma ends_without_slash_split (dir : string) :
  ends_without_slash dir = true ->
  exists pre c, dir = pre +:+ str1 c /\ Ascii.eqb c slash = false.
Proof.
  induction dir as [|x dir IH]; [discriminate|].
  destruct dir as [|y dir].
  - cbn [ends_without_slash]. intros H%negb_true_iff.
    exists "", x. now rewrite append_nil_l.
  - intros H. destruct (IH H) as (pre & c & E & Hc).
    exists (String x pre), c. rewrite append_cons, <- E. auto.
Qed.

(** The directory of [dir/file] is [dir]. *)
Lemma dirname_of_file_in_dir (dir file : string) :
  ends_without_slash dir = true -> no_slash file = true ->
  dirname (dir +:+ "/" +:+ file) = dir.
Proof.
  intros Hdir Hfile.
  destruct (ends_without_slash_split dir Hdir) as (pre & c & -> & Hc).
  unfold dirname, strrchr.
  change ("/" +:+ file) with (String slash file).
  rewrite strrchr_from_last by exact Hfile.
  cbn [Nat.add].
  assert (Hlen : String.length (pre +:+ str1 c) = S (String.length pre)).
  { clear. induction pre as [|x pre IH]; [reflexivity|].
    rewrite append_cons. cbn [String.length]. now rewrite IH. }
  assert (Hback : dirname_back ((pre +:+ str1 c) +:+ String slash file)
                    (String.length (pre +:+ str1 c)) = String.length pre).
  { pose proof (get_after (pre +:+ str1 c) slash file) as Hget.
    rewrite Hlen in *. cbn [dirname_back]. rewrite Hget, Ascii.eqb_refl.
    rewrite append_str1.
    destruct (String.length pre) as [|n] eqn:Hn; [reflexivity|].
    cbn [dirname_back]. rewrite <- Hn, get_after, Hc. reflexivity. }
  rewrite Hback.
  change (1 + String.length pre)%nat with (S (String.length pre)).
  rewrite <- Hlen. apply substring_prefix.
Qed.

(** A file name without any slash is in [.]; a file in the root is in [/]. *)
Lemma dirname_of_bare_file (file : string) :
  no_slash file = true ->
  dirname file = "." /\ dirname ("/" +:+ file) = "/".
Proof.
  intros Hfile. unfold dirname, strrchr. split.
  - now rewrite strrchr_from_free.
  - change ("/" +:+ file) with ("" +:+ String slash file).
    rewrite strrchr_from_last by exact Hfile.
    rewrite append_nil_l. now destruct file.
Qed.

(** X7: a relative image path is put beside the style sheet: for the style
    sheet [dir/file] (the directory not ending with a slash) the uri is
    [dir/path]; for a style sheet named without a directory it is
    [./path]; for a style sheet in the root directory it is [//path], with
    two slashes. *)
Theorem border_image_beside_stylesheet
    (str t1 path dir file : string) (rest : list string) :
  str <> "none" ->
  g_strsplit_set str border_image_delimiters = "url" :: t1 :: path :: rest ->
  starts_with_slash path = false ->
  ends_without_slash dir = true ->
  no_slash file = true ->
  let uri_with base :=
    match mx_border_image_set_from_string (Some str) (Some base) with
    | Done (image, _) => uri image
    | NullDeref => None
    end in
  uri_with (dir +:+ "/" +:+ file) = Some (dir +:+ "/" +:+ path)
  /\ uri_with file = Some ("./" +:+ path)
  /\ uri_with ("/" +:+ file) = Some ("//" +:+ path).
Proof.
  intros Hnone Hstrv Hrel Hdir Hfile uri_with. subst uri_with. cbv beta.
  rewrite !(border_image_of_tokens str _ t1 path rest Hnone Hstrv).
  unfold resolve, bordered_image. rewrite Hrel. cbn [uri].
  rewrite dirname_of_file_in_dir by assumption.
  destruct (dirname_of_bare_file file Hfile) as [-> ->].
  repeat split.
Qed.

Lemma border_image_beside_stylesheet_witness :
  let uri_with base :=
    match mx_border_image_set_from_string (Some (quoted_form dquote "img.png" ["3"]))
            (Some base) with
    | Done (image, _) => uri image
    | NullDeref => None
    end in
  uri_with "/usr/share/mx/style.css" = Some "/usr/share/mx/img.png"
  /\ uri_with "style.css" = Some "./img.png"
  /\ uri_with "/style.css" = Some "//img.png".
Proof.
  apply (border_image_beside_stylesheet (quoted_form dquote "img.png" ["3"])
           "" "img.png" "/usr/share/mx" "style.css" [""; ""; "3"]).
  - vm_compute. discriminate.
  - reflexivity.
  - reflexivity.
  - reflexivity.
  - reflexivity.
Defined.

Lemma delimiter_is_no_digit (c : ascii) :
  isdigit c = true -> in_set border_image_delimiters c = false.
Proof. destruct c as [[] [] [] [] [] [] [] []]; try discriminate; reflexivity. Qed.

Lemma show_int_tokens_free (vs : list Z) :
  forallb (free_of (in_set border_image_delimiters)) (show_int <$> vs) = true.
Proof.
  induction vs as [|v vs IH]; [reflexivity|].
  cbn [fmap list_fmap forallb]. rewrite IH.
  rewrite free_of_show_int by (reflexivity || apply delimiter_is_no_digit).
  reflexivity.
Qed.

Lemma atoi_show_ints (vs : list Z) :
  forallb in_int vs = true -> atoi <$> (show_int <$> vs) = vs.
Proof.
  induction vs as [|v vs IH]; [reflexivity|].
  cbn [forallb]. intros [Hv Hvs]%andb_true_iff.
  cbn [fmap list_fmap].
  rewrite <- (append_nil_r (show_int v)), atoi_show_int by (assumption || reflexivity).
  f_equal. now apply IH.
Qed.

(** X8: a bordered image written in the canonical form, the path between
    quotes and one to four [int] insets as decimal numerals, is read back
    exactly: the path (resolved) and the positional shorthand of these
    insets. *)
Theorem border_image_reads_numerals (qc : ascii) (path base_path : string)
    (vs : list Z) :
  qc = dquote \/ qc = squote ->
  free_of (in_set border_image_delimiters) path = true ->
  forallb in_int vs = true ->
  (1 <= length vs <= 4)%nat ->
  mx_border_image_set_from_string (Some (quoted_form qc path (show_int <$> vs)))
    (Some base_path)
  = Done (bordered_image (Some (resolve base_path path)) (shorthand vs), []).
Proof.
  intros Hqc Hpath Hvs Hlen.
  assert (Hne : show_int <$> vs <> [])
    by (destruct vs; simpl in Hlen; [lia | discriminate]).
  rewrite (border_image_of_tokens _ base_path "" path ("" :: "" :: (show_int <$> vs))).
  - replace (drop 2 ("" :: "" :: (show_int <$> vs))) with (show_int <$> vs)
      by reflexivity.
    rewrite atoi_show_ints by assumption.
    destruct vs as [|v1 [|v2 [|v3 [|v4 [|v5 l]]]]];
      simpl in Hlen; try lia; reflexivity.
  - apply url_form_not_none.
  - apply quoted_form_tokens; try assumption. apply show_int_tokens_free.
Qed.

Lemma border_image_reads_numerals_witness :
  mx_border_image_set_from_string
    (Some (quoted_form squote "/abs/img.png" (show_int <$> [4; -3; 2147483647])))
    (Some "/a/style.css")
  = Done ({| uri := Some "/abs/img.png"; bi_top := 4; bi_right := -3;
             bi_bottom := 2147483647; bi_left := -3 |}, []).
Proof.
  apply (border_image_reads_numerals squote "/abs/img.png" "/a/style.css"
           [4; -3; 2147483647]).
  - right; reflexivity.
  - reflexivity.
  - reflexivity.
  - simpl; lia.
Defined.

End TypesMore.

(** * More properties of the stylable interface *)

Module StylableMore.
Import MxStylable MxStylableRest Spec Observe StylableProofs.

(** *** Freezing and thawing *)

Lemma nqueue_eta (nqueue : GObjectNotifyQueue) :
  {| pspecs := pspecs nqueue; n_pspecs := n_pspecs nqueue;
     freeze_count := freeze_count nqueue |} = nqueue.
Proof. now destruct nqueue. Qed.

Lemma with_qdata_id (o : GObject) : with_qdata o (qdata o) = o.
Proof. now destruct o. Qed.

Lemma drop_queue_id (o : GObject) :
  qdata o !! quark_notify_queue = None -> drop_queue o = o.
Proof.
  intros H. unfold drop_queue. rewrite (delete_id _ _ H). apply with_qdata_id.
Qed.

Lemma put_queue_id (o : GObject) (nqueue : GObjectNotifyQueue) :
  qdata o !! quark_notify_queue = Some (queue_entry nqueue) ->
  put_queue o nqueue = o.
Proof.
  intros H. unfold put_queue. rewrite (insert_id _ _ _ H). apply with_qdata_id.
Qed.

(** One freeze of a live stylable object whose count is below the limit. *)
Lemma freeze_notify_live (ts : TypeSystem) (w : World) (a : positive)
    (o : GObject) (nqueue : GObjectNotifyQueue) :
  heap w !! a = Some o ->
  is_Some (stylable_iface ts (g_type o)) ->
  default nqueue_new (queue_of o) = nqueue ->
  freeze_count nqueue < 65535 ->
  mx_stylable_freeze_notify ts (Some a) w
  = set_heap
      (<[a := put_queue o {| pspecs := pspecs nqueue;
                             n_pspecs := n_pspecs nqueue;
                             freeze_count := freeze_count nqueue + 1 |}]> (heap w)) w.
Proof.
  intros Ho Hi Hq Hcount.
  unfold mx_stylable_freeze_notify.
  rewrite (object_is_stylable ts w a o Ho Hi), (g_object_ref_live w a o Ho).
  cbn [negb snd].
  set (o1 := with_ref_count o (Pos.succ (ref_count o))).
  rewrite (freeze_insert _ a o1 w nqueue) by assumption.
  rewrite (unref_after_ref _ a o) by reflexivity.
  reflexivity.
Qed.

(** What [freeze_room] says about the object. *)
Lemma freeze_room_object (ts : TypeSystem) (w : World) (a : positive) (n : nat) :
  MX_IS_STYLABLE ts (Some a) w = true ->
  freeze_room w a n ->
  exists o, heap w !! a = Some o
    /\ is_Some (stylable_iface ts (g_type o))
    /\ (qdata o !! quark_notify_queue = None /\ Z.of_nat n <= 65535
        \/ exists nqueue,
             qdata o !! quark_notify_queue = Some (queue_entry nqueue)
             /\ 0 < freeze_count nqueue
             /\ freeze_count nqueue + Z.of_nat n <= 65535).
Proof.
  intros Hs Hroom.
  destruct (stylable_is_object ts w a Hs) as (o & Ho & Hi).
  exists o. split; [exact Ho|]. split; [exact Hi|].
  unfold freeze_room, qdata_at in Hroom. rewrite Ho in Hroom. simpl in Hroom.
  destruct (qdata o !! quark_notify_queue) as [[[p|nqueue] []]|] eqn:E;
    try contradiction.
  - right. exists nqueue. split; [reflexivity|exact Hroom].
  - left. split; [reflexivity|exact Hroom].
Qed.

(** A freeze keeps the object stylable and uses up one unit of room. *)
Lemma freeze_notify_room (ts : TypeSystem) (w : World) (a : positive) (n : nat) :
  MX_IS_STYLABLE ts (Some a) w = true ->
  freeze_room w a (S n) ->
  MX_IS_STYLABLE ts (Some a) (mx_stylable_freeze_notify ts (Some a) w) = true
  /\ freeze_room (mx_stylable_freeze_notify ts (Some a) w) a n.
Proof.
  intros Hs Hroom.
  destruct (freeze_room_object ts w a (S n) Hs Hroom)
    as (o & Ho & Hi & [[Hq Hn]|(nqueue & Hq & Hpos & Hn)]).
  - rewrite (freeze_notify_live ts w a o nqueue_new Ho Hi)
      by first [unfold queue_of; rewrite Hq; reflexivity | simpl; lia].
    split.
    + eapply object_is_stylable; [apply lookup_insert_eq|exact Hi].
    + unfold freeze_room, qdata_at. cbn [heap set_heap].
      rewrite lookup_insert_eq. cbn [fmap option_fmap option_map qdata put_queue with_qdata].
      rewrite lookup_insert_eq. unfold queue_entry. simpl. lia.
  - rewrite (freeze_notify_live ts w a o nqueue Ho Hi)
      by first [unfold queue_of; rewrite Hq; reflexivity | simpl; lia].
    split.
    + eapply object_is_stylable; [apply lookup_insert_eq|exact Hi].
    + unfold freeze_room, qdata_at. cbn [heap set_heap].
      rewrite lookup_insert_eq. cbn [fmap option_fmap option_map qdata put_queue with_qdata].
      rewrite lookup_insert_eq. unfold queue_entry. simpl. lia.
Qed.

(** A freeze and the thaw after it. *)
Lemma freeze_thaw_once (ts : TypeSystem) (w : World) (a : positive) :
  MX_IS_STYLABLE ts (Some a) w = true ->
  freeze_room w a 1 ->
  mx_stylable_thaw_notify ts (Some a) (mx_stylable_freeze_notify ts (Some a) w) = w.
Proof.
  intros Hs Hroom.
  destruct (freeze_room_object ts w a 1 Hs Hroom)
    as (o & Ho & Hi & [[Hq Hn]|(nqueue & Hq & Hpos & Hn)]).
  - rewrite (freeze_notify_live ts w a o nqueue_new Ho Hi)
      by first [unfold queue_of; rewrite Hq; reflexivity | simpl; lia].
    erewrite thaw_notify_last;
      [|apply lookup_insert_eq|exact Hi|apply queue_of_put|reflexivity].
    cbn [heap set_heap style_property_spec_pool trace pspecs nqueue_new
         dedup_loop fmap list_fmap].
    rewrite insert_insert_eq, drop_put, (drop_queue_id o Hq), (insert_id _ _ _ Ho).
    rewrite app_nil_r. apply world_eta.
  - rewrite (freeze_notify_live ts w a o nqueue Ho Hi)
      by first [unfold queue_of; rewrite Hq; reflexivity | simpl; lia].
    erewrite thaw_notify_inner;
      [|apply lookup_insert_eq|exact Hi|apply queue_of_put|simpl; lia].
    cbn [heap set_heap pspecs n_pspecs freeze_count].
    rewrite insert_insert_eq, put_put.
    replace (freeze_count nqueue + 1 - 1) with (freeze_count nqueue) by lia.
    rewrite nqueue_eta, (put_queue_id o nqueue Hq), (insert_id _ _ _ Ho).
    unfold set_heap. cbn [heap style_property_spec_pool trace]. apply world_eta.
Qed.

(** X10: freezes nest and undo exactly.  For a stylable object without a
    notify queue, or with one that is frozen, and as long as the freeze
    count stays inside 65535: [n] calls of [mx_stylable_freeze_notify]
    followed by [n] calls of [mx_stylable_thaw_notify] give back the very
    state they started from; nothing is logged, nothing is emitted, and no
    reference count has changed. *)
Theorem freeze_thaw_nest (ts : TypeSystem) (n : nat) (w : World) (a : positive) :
  MX_IS_STYLABLE ts (Some a) w = true ->
  freeze_room w a n ->
  Nat.iter n (mx_stylable_thaw_notify ts (Some a))
    (Nat.iter n (mx_stylable_freeze_notify ts (Some a)) w) = w.
Proof.
  revert w. induction n as [|n IH]; intros w Hs Hroom; [reflexivity|].
  rewrite Nat.iter_succ, Nat.iter_succ_r.
  destruct (freeze_notify_room ts w a n Hs Hroom) as [Hs' Hroom'].
  rewrite (IH _ Hs' Hroom').
  apply freeze_thaw_once; [exact Hs|].
  revert Hroom. unfold freeze_room.
  destruct (qdata_at w a) as [d|]; [|tauto].
  destruct (d !! quark_notify_queue) as [[[p|nqueue] []]|]; try tauto; lia.
Qed.

Lemma freeze_thaw_nest_witness :
  Nat.iter 3 (mx_stylable_thaw_notify Demo.types (Some Demo.button))
    (Nat.iter 3 (mx_stylable_freeze_notify Demo.types (Some Demo.button))
       Demo.w_installed) = Demo.w_installed.
Proof.
  apply freeze_thaw_nest; [reflexivity|vm_compute; discriminate].
Defined.

(** A freeze at the limit. *)
Lemma freeze_insert_full (h : gmap positive GObject) (a : positive) (o : GObject)
    (w : World) (nqueue : GObjectNotifyQueue) :
  queue_of o = Some nqueue ->
  65535 <= freeze_count nqueue ->
  g_object_notify_queue_freeze (Some a) (set_heap (<[a := o]> h) w)
  = set_heap (<[a := put_queue o nqueue]> h)
      (log (Critical "nqueue->freeze_count < 65535") w).
Proof.
  intros Hq Hcount. unfold g_object_notify_queue_freeze.
  rewrite from_object_insert, Hq.
  apply Z.leb_le in Hcount. rewrite Hcount.
  rewrite nqueue_store_insert. reflexivity.
Qed.

(** X11: the freeze count saturates.  When the queue of a stylable object
    has been frozen 65535 times (or more), one more
    [mx_stylable_freeze_notify] raises the critical of
    [g_object_notify_queue_freeze] and leaves the queue, its count
    included, as it was; so a count that is within 65535 stays there. *)
Theorem freeze_saturates (ts : TypeSystem) (w : World) (a : positive)
    (nqueue : GObjectNotifyQueue) :
  MX_IS_STYLABLE ts (Some a) w = true ->
  g_object_notify_queue_from_object (Some a) w = Some nqueue ->
  65535 <= freeze_count nqueue ->
  let w' := mx_stylable_freeze_notify ts (Some a) w in
  g_object_notify_queue_from_object (Some a) w' = Some nqueue
  /\ trace w' = trace w ++ [Critical "nqueue->freeze_count < 65535"]
  /\ refs w' a = refs w a
  /\ style_property_spec_pool w' = style_property_spec_pool w.
Proof.
  intros Hs Hq Hcount.
  destruct (stylable_is_object ts w a Hs) as (o & Ho & Hi).
  rewrite (from_object_live w a o Ho) in Hq.
  cbv zeta. unfold mx_stylable_freeze_notify.
  rewrite Hs, (g_object_ref_live w a o Ho). cbn [negb snd].
  set (o1 := with_ref_count o (Pos.succ (ref_count o))).
  rewrite (freeze_insert_full _ a o1 w nqueue Hq Hcount).
  rewrite (unref_after_ref _ a o) by reflexivity.
  rewrite from_object_insert. split; [exact (queue_of_put o1 nqueue)|].
  split; [reflexivity|]. split; [|reflexivity].
  unfold refs. cbn [heap set_heap log]. rewrite lookup_insert_eq, Ho. reflexivity.
Qed.

Lemma freeze_saturates_witness :
  let w' := mx_stylable_freeze_notify Demo.types (Some Demo.button) w_frozen_full in
  g_object_notify_queue_from_object (Some Demo.button) w'
  = Some {| pspecs := []; n_pspecs := 0; freeze_count := 65535 |}
  /\ trace w' = trace w_frozen_full ++ [Critical "nqueue->freeze_count < 65535"]
  /\ refs w' Demo.button = refs w_frozen_full Demo.button
  /\ style_property_spec_pool w' = style_property_spec_pool w_frozen_full.
Proof.
  apply (freeze_saturates Demo.types w_frozen_full Demo.button);
    [reflexivity|reflexivity|simpl; lia].
Defined.

(** *** What the last thaw dispatches *)

(** [dedup_loop] appends to [unique] the first occurrence of every spec
    that is new. *)
Lemma dedup_loop_spec (slist unique : list GParamSpec) :
  NoDup unique ->
  exists fresh,
    dedup_loop slist unique = unique ++ fresh
    /\ NoDup (unique ++ fresh)
    /\ sublist fresh slist
    /\ forall pspec, pspec ∈ slist -> pspec ∈ unique ++ fresh.
Proof.
  revert unique. induction slist as [|p rest IH]; intros unique Hnd.
  - exists []. rewrite app_nil_r.
    split; [reflexivity|]. split; [assumption|]. split; [constructor|].
    intros pspec H. inversion H.
  - cbn [dedup_loop]. case_bool_decide as Hin.
    + destruct (IH unique Hnd) as (fresh & Heq & Hnd' & Hsub & Hall).
      exists fresh.
      split; [assumption|]. split; [assumption|].
      split; [now apply sublist_cons|].
      intros pspec H. apply elem_of_cons in H as [->|H]; [|now apply Hall].
      apply elem_of_app. now left.
    + assert (Hnd1 : NoDup (unique ++ [p])).
      { apply NoDup_app. split; [assumption|]. split; [|apply NoDup_singleton].
        intros x Hx Hx'. apply list_elem_of_singleton in Hx'. now subst. }
      destruct (IH _ Hnd1) as (fresh & Heq & Hnd' & Hsub & Hall).
      exists (p :: fresh). rewrite Heq, <- app_assoc. cbn [app].
      rewrite <- app_assoc in Hnd'. cbn [app] in Hnd'.
      split; [reflexivity|]. split; [assumption|].
      split; [now apply sublist_skip|].
      intros pspec H. apply elem_of_cons in H as [->|H].
      * apply elem_of_app. right. apply elem_of_cons. now left.
      * specialize (Hall _ H). now rewrite <- app_assoc in Hall.
Qed.

(** The loop computes the first occurrences. *)
Lemma dedup_loop_first (slist unique : list GParamSpec) :
  dedup_loop slist unique
  = unique ++ filter (fun q => q ∉ unique) (first_occurrences slist).
Proof.
  revert unique. induction slist as [|p rest IH]; intros unique.
  - cbn. now rewrite app_nil_r.
  - cbn [dedup_loop first_occurrences]. case_bool_decide as Hin; rewrite IH.
    + rewrite filter_cons_False by tauto. f_equal.
      symmetry. apply list_filter_filter_l. intros q Hq ->. tauto.
    + rewrite filter_cons_True by exact Hin.
      rewrite <- app_assoc. cbn [app]. do 2 f_equal.
      rewrite list_filter_filter. apply list_filter_iff.
      intros q. rewrite elem_of_app, list_elem_of_singleton. tauto.
Qed.

Lemma dedup_loop_first_occurrences (slist : list GParamSpec) :
  dedup_loop slist [] = first_occurrences slist.
Proof.
  rewrite dedup_loop_first. cbn [app].
  induction (first_occurrences slist) as [|q l IH]; [reflexivity|].
  rewrite filter_cons_True by apply not_elem_of_nil. now rewrite IH.
Qed.

(** X12: the last thaw reports every pending property once.  When the
    queue of a stylable object is frozen once, [mx_stylable_thaw_notify]
    emits [style-notify] for the pending specs without their repetitions:
    for each spec at its first place in the queue (whose head is the
    property notified last), so for each pending spec exactly once and for
    no other; it emits nothing else and removes the queue. *)
Theorem last_thaw_reports_each_once (ts : TypeSystem) (w : World) (a : positive)
    (nqueue : GObjectNotifyQueue) :
  MX_IS_STYLABLE ts (Some a) w = true ->
  g_object_notify_queue_from_object (Some a) w = Some nqueue ->
  freeze_count nqueue = 1 ->
  let w' := mx_stylable_thaw_notify ts (Some a) w in
  let reported := first_occurrences (pspecs nqueue) in
  trace w' = trace w ++ (style_notify_event a <$> reported)
  /\ NoDup reported
  /\ (forall pspec, pspec ∈ reported <-> pspec ∈ pspecs nqueue)
  /\ no_queue w' a.
Proof.
  intros Hs Hq Hcount.
  destruct (stylable_is_object ts w a Hs) as (o & Ho & Hi).
  rewrite (from_object_live w a o Ho) in Hq.
  cbv zeta. rewrite (thaw_notify_last ts w a o nqueue Ho Hi Hq Hcount).
  destruct (dedup_loop_spec (pspecs nqueue) [] (NoDup_nil_2))
    as (reported & Heq & Hnd & Hsub & Hall).
  cbn [app] in Heq, Hnd, Hall.
  rewrite dedup_loop_first_occurrences in Heq |- *. subst reported.
  split; [reflexivity|]. split; [assumption|]. split.
  - intros pspec. split; [|apply Hall].
    intros H. eapply elem_of_sublist; eauto.
  - unfold no_queue. cbn [heap].
    change (g_object_notify_queue_from_object (Some a)
              (set_heap (<[a := drop_queue o]> (heap w))
                 {| heap := heap w;
                    style_property_spec_pool := style_property_spec_pool w;
                    trace := trace w ++ (style_notify_event a
                                           <$> first_occurrences (pspecs nqueue)) |})
            = None).
    rewrite from_object_insert. apply queue_of_drop.
Qed.

Lemma last_thaw_reports_each_once_witness :
  let p1 := stamped Demo.types Demo.T_ACTOR Demo.x_spacing in
  let p2 := stamped Demo.types Demo.T_ACTOR Demo.y_spacing in
  let w := mx_stylable_notify Demo.types (Some Demo.button) (Some "x-spacing")
             (mx_stylable_notify Demo.types (Some Demo.button) (Some "y-spacing")
                (mx_stylable_notify Demo.types (Some Demo.button) (Some "x-spacing")
                   (mx_stylable_freeze_notify Demo.types (Some Demo.button)
                      Demo.w_installed))) in
  let w' := mx_stylable_thaw_notify Demo.types (Some Demo.button) w in
  let reported := first_occurrences [p1; p2; p1] in
  trace w' = trace w ++ (style_notify_event Demo.button <$> reported)
  /\ NoDup reported
  /\ (forall pspec, pspec ∈ reported <-> pspec ∈ [p1; p2; p1])
  /\ no_queue w' Demo.button.
Proof.
  intros p1 p2 w.
  apply (last_thaw_reports_each_once Demo.types w Demo.button
           {| pspecs := [p1; p2; p1]; n_pspecs := 3; freeze_count := 1 |});
    [vm_compute; reflexivity|vm_compute; reflexivity|reflexivity].
Defined.

(** *** Looking a property up *)

Lemma walk_none (ts : TypeSystem) (pool : gmap (GType * string) GParamSpec)
    (property_name : string) (fuel : nat) (t : GType) :
  none_has pool property_name (chain ts fuel t) ->
  param_spec_ht_walk ts fuel pool property_name t = None.
Proof.
  revert t. induction fuel as [|fuel IH]; intros t H.
  - cbn in H |- *. apply Forall_cons_1 in H as [-> _]. reflexivity.
  - cbn [chain] in H. apply Forall_cons_1 in H as [Hhere Hrest].
    cbn [param_spec_ht_walk]. rewrite Hhere.
    destruct (g_type_parent ts t =? 0)%N; [reflexivity|]. now apply IH.
Qed.

Lemma walk_nearest (ts : TypeSystem) (pool : gmap (GType * string) GParamSpec)
    (property_name : string) (pspec : GParamSpec) (owner : GType)
    (before after : list GType) (fuel : nat) (t : GType) :
  chain ts fuel t = before ++ owner :: after ->
  none_has pool property_name before ->
  pool !! (owner, property_name) = Some pspec ->
  param_spec_ht_walk ts fuel pool property_name t = Some pspec.
Proof.
  revert fuel t. induction before as [|b before IH]; intros fuel t Hchain Hnone Hhere.
  - assert (t = owner) as -> by (destruct fuel; cbn in Hchain; congruence).
    destruct fuel; cbn [param_spec_ht_walk]; now rewrite Hhere.
  - apply Forall_cons_1 in Hnone as [Hb Hnone].
    assert (t = b) as -> by (destruct fuel; cbn in Hchain; congruence).
    destruct fuel as [|fuel].
    + cbn in Hchain. destruct before; discriminate.
    + cbn [chain app] in Hchain. injection Hchain as Hchain.
      cbn [param_spec_ht_walk]. rewrite Hb.
      destruct (g_type_parent ts b =? 0)%N.
      * destruct before; discriminate.
      * now apply IH.
Qed.

(** A lookup that finds the name as it is given does not look further. *)
Lemma lookup_first_pass (ts : TypeSystem) (pool : gmap (GType * string) GParamSpec)
    (property_name : string) (t : GType) (pspec : GParamSpec) :
  param_spec_ht_walk ts (g_type_depth ts t) pool property_name t = Some pspec ->
  g_param_spec_pool_lookup ts pool property_name t true = Some pspec.
Proof.
  intros H. unfold g_param_spec_pool_lookup, param_spec_ht_lookup. now rewrite H.
Qed.

(** A lookup finds nothing when neither the name nor its canonical form is
    there. *)
Lemma lookup_nowhere (ts : TypeSystem) (pool : gmap (GType * string) GParamSpec)
    (property_name : string) (t : GType) :
  none_has pool property_name (ancestors ts t) ->
  none_has pool (canonicalize_key property_name) (ancestors ts t) ->
  g_param_spec_pool_lookup ts pool property_name t true = None.
Proof.
  intros H1 H2. unfold g_param_spec_pool_lookup, param_spec_ht_lookup.
  rewrite (walk_none ts _ _ _ _ H1), (walk_none ts _ _ _ _ H2).
  now destruct (is_canonical property_name).
Qed.

(** X13: notifying a property that no type has.  When neither the type of
    a stylable object nor any of its ancestors has a style property of the
    given name, or of the canonical form of that name (which the pool tries
    for a name that has other characters than letters, digits and [-]),
    [mx_stylable_notify] adds the warning "no style property named ..." and
    nothing else: no signal, no queue, no change of a reference count or of
    the pool. *)
Theorem notify_unknown_property (ts : TypeSystem) (w : World) (a : positive)
    (property_name : string) :
  MX_IS_STYLABLE ts (Some a) w = true ->
  none_has (style_property_spec_pool w) property_name
    (ancestors ts (G_OBJECT_TYPE (Some a) w)) ->
  none_has (style_property_spec_pool w) (canonicalize_key property_name)
    (ancestors ts (G_OBJECT_TYPE (Some a) w)) ->
  mx_stylable_notify ts (Some a) (Some property_name) w
  = log (WarnNoStyleProperty a property_name) w.
Proof.
  intros Hs Hnone Hcanon.
  destruct (stylable_is_object ts w a Hs) as (o & Ho & Hi).
  unfold G_OBJECT_TYPE, object_at in Hnone, Hcanon. rewrite Ho in Hnone, Hcanon.
  unfold mx_stylable_notify.
  rewrite Hs, (g_object_ref_live w a o Ho). cbn [snd].
  unfold G_OBJECT_TYPE. rewrite object_at_insert.
  cbn [style_property_spec_pool set_heap g_type with_ref_count].
  rewrite (lookup_nowhere ts _ _ _ Hnone Hcanon).
  set (o1 := with_ref_count o (Pos.succ (ref_count o))).
  change (log (WarnNoStyleProperty a property_name)
            (set_heap (<[a:=o1]> (heap w)) w))
    with (set_heap (<[a:=o1]> (heap w)) (log (WarnNoStyleProperty a property_name) w)).
  rewrite (unref_after_ref _ a o) by reflexivity.
  subst o1.
  change (with_ref_count (with_ref_count o (Pos.succ (ref_count o))) (ref_count o))
    with (with_ref_count o (ref_count o)).
  rewrite with_ref_count_id, (insert_id _ _ _ Ho). reflexivity.
Qed.

Lemma notify_unknown_property_witness :
  mx_stylable_notify Demo.types (Some Demo.button) (Some "z_spacing")
    Demo.w_installed
  = log (WarnNoStyleProperty Demo.button "z_spacing") Demo.w_installed.
Proof.
  apply notify_unknown_property; [reflexivity| |];
    vm_compute; repeat constructor.
Defined.

(** X16: a property belongs to the nearest type that has it.  If the
    ancestors of the type of a stylable object, from the type itself
    upwards, are [before], then [owner], then [after], no type of [before]
    has a style property of the given name and [owner] has one, then
    [mx_stylable_find_property] returns the spec of [owner], whatever the
    types of [after] have, and changes nothing. *)
Theorem find_property_nearest_owner (ts : TypeSystem) (w : World) (a : positive)
    (property_name : string) (pspec : GParamSpec) (owner : GType)
    (before after : list GType) :
  MX_IS_STYLABLE ts (Some a) w = true ->
  ancestors ts (G_OBJECT_TYPE (Some a) w) = before ++ owner :: after ->
  none_has (style_property_spec_pool w) property_name before ->
  style_property_spec_pool w !! (owner, property_name) = Some pspec ->
  mx_stylable_find_property ts (Some a) (Some property_name) w = (Some pspec, w).
Proof.
  intros Hs Hchain Hnone Hhere.
  unfold mx_stylable_find_property. rewrite Hs. cbn [negb].
  now rewrite (lookup_first_pass ts _ _ _ _
                 (walk_nearest ts _ _ _ _ _ _ _ _ Hchain Hnone Hhere)).
Qed.

Lemma find_property_nearest_owner_witness :
  mx_stylable_find_property Demo.types (Some Demo.button) (Some "x-spacing")
    Demo.w_installed
  = (Some (stamped Demo.types Demo.T_ACTOR Demo.x_spacing), Demo.w_installed).
Proof.
  apply (find_property_nearest_owner Demo.types Demo.w_installed Demo.button
           "x-spacing" _ Demo.T_ACTOR [Demo.T_BUTTON] [Demo.T_OBJECT]);
    [reflexivity|reflexivity|vm_compute; repeat constructor|vm_compute; reflexivity].
Defined.

(** *** Installing and removing properties *)

(** The one way in which [mx_stylable_iface_install_property] changes the
    pool. *)
Lemma install_stores (ts : TypeSystem) (iface : MxStylableIface) (owner : GType)
    (pspec : GParamSpec) (w : World) :
  owner <> G_TYPE_INVALID ->
  owner_type pspec = G_TYPE_INVALID ->
  installable pspec = true ->
  is_canonical (name pspec) = true ->
  style_property_spec_pool w !! (owner, name pspec) = None ->
  mx_stylable_iface_install_property ts (Some iface) owner (Some pspec) w
  = set_pool (<[(owner, name pspec) := stamped ts owner pspec]>
                (style_property_spec_pool w)) w.
Proof.
  intros Howner Hfresh Hflags Hcanon Hnew.
  unfold installable in Hflags. apply andb_true_iff in Hflags as [Hr Hc].
  apply negb_true_iff in Hr.
  unfold mx_stylable_iface_install_property.
  apply N.eqb_neq in Howner. rewrite Howner, Hr, Hc. cbn [negb].
  unfold g_param_spec_pool_lookup, param_spec_ht_lookup. rewrite Hnew, Hcanon.
  unfold param_spec_write. rewrite Hfresh. cbn [N.eqb G_TYPE_INVALID].
  unfold g_param_spec_pool_insert.
  cbn [owner_type g_param_spec_set_qdata_full name].
  rewrite Hfresh, (canonical_pool_name _ Hcanon).
  apply N.eqb_neq in Howner.
  assert (Hpos : (0 <? owner)%N = true)
    by (apply N.ltb_lt; unfold G_TYPE_INVALID in Howner; lia).
  rewrite Hpos. reflexivity.
Qed.

(** With a spec that no type owns yet, the pool changes in that one way or
    not at all. *)
Lemma install_pool_cases (ts : TypeSystem) (iface : option MxStylableIface)
    (owner : GType) (pspec : option GParamSpec) (w : World) :
  (forall p, pspec = Some p -> owner_type p = G_TYPE_INVALID) ->
  style_property_spec_pool
    (mx_stylable_iface_install_property ts iface owner pspec w)
  = style_property_spec_pool w
  \/ exists p,
       pspec = Some p
       /\ owner <> G_TYPE_INVALID
       /\ installable p = true
       /\ style_property_spec_pool
            (mx_stylable_iface_install_property ts iface owner pspec w)
          = <[(owner, name p) := stamped ts owner p]> (style_property_spec_pool w).
Proof.
  intros Hfresh.
  unfold mx_stylable_iface_install_property.
  destruct iface as [iface|]; [|now left].
  destruct (owner =? G_TYPE_INVALID)%N eqn:Howner; [now left|].
  destruct pspec as [p|]; [|now left].
  specialize (Hfresh p eq_refl).
  destruct (Z.land (flags p) G_PARAM_READABLE =? 0) eqn:Hr; [now left|].
  destruct (Z.land (flags p) (Z.lor G_PARAM_CONSTRUCT_ONLY G_PARAM_CONSTRUCT) =? 0)
    eqn:Hc; cbn [negb]; [|now left].
  destruct (g_param_spec_pool_lookup ts (style_property_spec_pool w) (name p)
              owner false); [now left|].
  unfold param_spec_write. rewrite Hfresh. cbn [N.eqb G_TYPE_INVALID].
  unfold g_param_spec_pool_insert.
  destruct ((0 <? owner)%N
            && (owner_type (g_param_spec_set_qdata_full p quark_real_owner
                              (g_type_name ts owner)) =? 0)%N);
    [|destruct (0 <? owner)%N; now left].
  destruct (forallb pool_name_char _); [|now left].
  right. exists p. split; [reflexivity|].
  split; [now apply N.eqb_neq|].
  split; [unfold installable; now rewrite Hr, Hc|reflexivity].
Qed.

Lemma stamped_well_installed (ts : TypeSystem) (owner : GType) (p : GParamSpec) :
  owner <> G_TYPE_INVALID -> installable p = true ->
  well_installed ts (owner, name p) (stamped ts owner p).
Proof.
  intros Howner Hflags.
  split; [reflexivity|]. split; [exact Howner|]. split; [exact Hflags|].
  unfold stamped. cbn [with_owner_type pspec_qdata owner_type
                       g_param_spec_set_qdata_full].
  destruct (g_type_name ts owner).
  - apply lookup_insert_eq.
  - apply lookup_delete_eq.
Qed.

(** X14: what the pool holds is well installed.  If every spec of the pool
    sits under its own owner type and name, has a valid owner, is readable,
    has neither construct flag and carries the name of its owner type under
    [quark_real_owner], then the same holds after any call of
    [mx_stylable_iface_install_property] with a spec that no type owns yet
    (or with none), whatever the other arguments.  (For a spec that a type
    owns already the name of the new owner is written into it before the
    pool refuses it.) *)
Theorem install_keeps_pool_ok (ts : TypeSystem) (iface : option MxStylableIface)
    (owner : GType) (pspec : option GParamSpec) (w : World) :
  (forall p, pspec = Some p -> owner_type p = G_TYPE_INVALID) ->
  pool_ok ts (style_property_spec_pool w) ->
  pool_ok ts (style_property_spec_pool
                (mx_stylable_iface_install_property ts iface owner pspec w)).
Proof.
  intros Hfresh Hok.
  destruct (install_pool_cases ts iface owner pspec w Hfresh)
    as [->|(p & _ & Howner & Hflags & ->)]; [exact Hok|].
  apply map_Forall_insert_2; [|exact Hok].
  now apply stamped_well_installed.
Qed.

Lemma install_keeps_pool_ok_witness :
  pool_ok Demo.types
    (style_property_spec_pool
       (mx_stylable_iface_install_property Demo.types (Some Demo.default_iface)
          Demo.T_BUTTON (Some Demo.x_spacing) Demo.w_installed)).
Proof.
  apply install_keeps_pool_ok.
  - intros p [= <-]. reflexivity.
  - apply (bool_decide_unpack _). vm_compute. exact I.
Defined.

(** The spec that [DemoActor] owns, installed once more for [DemoButton]:
    the pool refuses it, and the spec of [DemoActor] has the name of
    [DemoButton] under [quark_real_owner]. *)
Example install_owned_spec_restamps :
  let owned := stamped Demo.types Demo.T_ACTOR Demo.x_spacing in
  let w' := mx_stylable_iface_install_property Demo.types
              (Some Demo.button_iface) Demo.T_BUTTON (Some owned)
              Demo.w_installed in
  style_property_spec_pool w' !! (Demo.T_ACTOR, "x-spacing")
  = Some (g_param_spec_set_qdata_full owned quark_real_owner (Some "DemoButton"))
  /\ style_property_spec_pool w' !! (Demo.T_BUTTON, "x-spacing") = None
  /\ trace w' = [Critical "pspec->owner_type == 0"]
  /\ ~ pool_ok Demo.types (style_property_spec_pool w').
Proof.
  split; [vm_compute; reflexivity|]. split; [vm_compute; reflexivity|].
  split; [vm_compute; reflexivity|].
  intros Hok. apply (bool_decide_pack _) in Hok. vm_compute in Hok. exact Hok.
Qed.

Lemma walk_insert_other (ts : TypeSystem) (pool : gmap (GType * string) GParamSpec)
    (owner : GType) (p : GParamSpec) (n : string) (property_name : string)
    (fuel : nat) (t : GType) :
  property_name <> n ->
  param_spec_ht_walk ts fuel (<[(owner, n) := p]> pool) property_name t
  = param_spec_ht_walk ts fuel pool property_name t.
Proof.
  intros Hne. revert t. induction fuel as [|fuel IH]; intros t;
    cbn [param_spec_ht_walk]; rewrite lookup_insert_ne by congruence.
  - reflexivity.
  - now rewrite IH.
Qed.

Lemma none_has_insert (pool : gmap (GType * string) GParamSpec)
    (owner : GType) (p : GParamSpec) (n : string) (types : list GType) :
  owner ∉ types -> none_has pool n types ->
  none_has (<[(owner, n) := p]> pool) n types.
Proof.
  intros Hnot Hnone. unfold none_has in *.
  rewrite Forall_forall in Hnone |- *. intros t Ht.
  rewrite lookup_insert_ne; [now apply Hnone|].
  intros [= ->]. now apply Hnot.
Qed.

(** X15: an installed property is found, and shadows.  Let the ancestors
    of the type of a stylable object be [before], then [owner] (which is
    not in [before]), then [after], with no property of the name of [pspec]
    (a canonical name) in [before] or at [owner].  After [owner] has
    installed [pspec], [mx_stylable_find_property] returns it for the
    object, stamped with the owner, even when a type of [after] has a
    property of the same name; and the lookup of every name that is not
    this name, as it is or in canonical form, gives what it gave before. *)
Theorem installed_property_is_found (ts : TypeSystem) (w : World) (a : positive)
    (iface : MxStylableIface) (owner : GType) (pspec : GParamSpec)
    (before after : list GType) :
  MX_IS_STYLABLE ts (Some a) w = true ->
  ancestors ts (G_OBJECT_TYPE (Some a) w) = before ++ owner :: after ->
  owner ∉ before ->
  none_has (style_property_spec_pool w) (name pspec) (before ++ [owner]) ->
  owner <> G_TYPE_INVALID ->
  owner_type pspec = G_TYPE_INVALID ->
  installable pspec = true ->
  is_canonical (name pspec) = true ->
  let w' := mx_stylable_iface_install_property ts (Some iface) owner
              (Some pspec) w in
  fst (mx_stylable_find_property ts (Some a) (Some (name pspec)) w')
  = Some (stamped ts owner pspec)
  /\ forall property_name,
       property_name <> name pspec ->
       canonicalize_key property_name <> name pspec ->
       fst (mx_stylable_find_property ts (Some a) (Some property_name) w')
       = fst (mx_stylable_find_property ts (Some a) (Some property_name) w).
Proof.
  intros Hs Hchain Hnot Hnone Howner Hfresh Hflags Hcanon.
  apply Forall_app in Hnone as [Hbefore Hhere].
  apply Forall_cons_1 in Hhere as [Hhere _].
  cbv zeta.
  rewrite (install_stores ts iface owner pspec w Howner Hfresh Hflags Hcanon Hhere).
  set (pool' := <[(owner, name pspec):=stamped ts owner pspec]>
                  (style_property_spec_pool w)).
  assert (Hs' : MX_IS_STYLABLE ts (Some a) (set_pool pool' w) = true) by exact Hs.
  split.
  - unfold mx_stylable_find_property. rewrite Hs'. cbn [negb fst].
    cbn [style_property_spec_pool set_pool].
    apply lookup_first_pass.
    apply (walk_nearest ts pool' (name pspec) _ owner before after);
      [exact Hchain|now apply none_has_insert|apply lookup_insert_eq].
  - intros property_name Hne Hne'.
    unfold mx_stylable_find_property. rewrite Hs', Hs. cbn [negb fst].
    unfold g_param_spec_pool_lookup, param_spec_ht_lookup.
    cbn [style_property_spec_pool set_pool].
    change (G_OBJECT_TYPE (Some a) (set_pool pool' w))
      with (G_OBJECT_TYPE (Some a) w).
    subst pool'.
    now rewrite !walk_insert_other by assumption.
Qed.

Lemma installed_property_is_found_witness :
  let w' := mx_stylable_iface_install_property Demo.types (Some Demo.button_iface)
              Demo.T_BUTTON (Some Demo.x_spacing) Demo.w_installed in
  fst (mx_stylable_find_property Demo.types (Some Demo.button)
         (Some "x-spacing") w')
  = Some (stamped Demo.types Demo.T_BUTTON Demo.x_spacing)
  /\ forall property_name,
       property_name <> "x-spacing" ->
       canonicalize_key property_name <> "x-spacing" ->
       fst (mx_stylable_find_property Demo.types (Some Demo.button)
              (Some property_name) w')
       = fst (mx_stylable_find_property Demo.types (Some Demo.button)
                (Some property_name) Demo.w_installed).
Proof.
  apply (installed_property_is_found Demo.types Demo.w_installed Demo.button
           Demo.button_iface Demo.T_BUTTON Demo.x_spacing []
           [Demo.T_ACTOR; Demo.T_OBJECT]);
    [reflexivity|reflexivity|apply not_elem_of_nil
    |vm_compute; repeat constructor|discriminate|reflexivity|reflexivity
    |reflexivity].
Defined.

(** The keys of the specs of a keyed pool are the keys of the pool. *)
Lemma keyed_keys (pool : gmap (GType * string) GParamSpec) :
  keyed pool ->
  pool_key <$> (snd <$> map_to_list pool) = fst <$> map_to_list pool.
Proof.
  intros Hk. rewrite <- list_fmap_compose. apply Forall_fmap_ext_1.
  apply map_Forall_to_list in Hk. eapply Forall_impl; [exact Hk|].
  intros [k p] H. simpl in *. now symmetry.
Qed.

Lemma owned_keys_NoDup (pool : gmap (GType * string) GParamSpec) (owner : GType) :
  keyed pool ->
  NoDup (pool_key <$> filter (fun pspec => owner_type pspec = owner)
                        (snd <$> map_to_list pool)).
Proof.
  intros Hk.
  apply (sublist_NoDup _ (pool_key <$> (snd <$> map_to_list pool))).
  - rewrite (keyed_keys pool Hk). apply NoDup_fst_map_to_list.
  - apply fmap_sublist. apply sublist_filter.
Qed.

Lemma owned_spec (pool : gmap (GType * string) GParamSpec) (owner : GType)
    (k : GType * string) :
  keyed pool ->
  k ∈ pool_key <$> filter (fun pspec => owner_type pspec = owner)
                     (snd <$> map_to_list pool)
  <-> is_Some (pool !! k) /\ fst k = owner.
Proof.
  intros Hk. rewrite list_elem_of_fmap. split.
  - intros (p & -> & Hp). apply list_elem_of_filter in Hp as [Howner Hp].
    apply list_elem_of_fmap in Hp as ([k p'] & -> & Hkp).
    apply elem_of_map_to_list in Hkp. cbn [snd] in *.
    rewrite <- (Hk _ _ Hkp). split; [eauto|].
    rewrite (Hk _ _ Hkp). exact Howner.
  - intros [[p Hp] Howner]. exists p.
    pose proof (Hk _ _ Hp) as Hkey. cbv beta in Hkey. split; [exact Hkey|].
    apply list_elem_of_filter. split.
    + subst k. exact Howner.
    + apply list_elem_of_fmap. exists (k, p). split; [reflexivity|].
      now apply elem_of_map_to_list.
Qed.

(** Removing specs that are in the pool, each once. *)
Lemma remove_all (l : list GParamSpec) (w : World) :
  NoDup (pool_key <$> l) ->
  (forall p, p ∈ l -> is_Some (style_property_spec_pool w !! pool_key p)) ->
  exists pool',
    foldl (fun s pspec => g_param_spec_pool_remove pspec s) (w, []) l
    = (set_pool pool' w, [])
    /\ forall k, pool' !! k
                 = if decide (k ∈ pool_key <$> l) then None
                   else style_property_spec_pool w !! k.
Proof.
  revert w. induction l as [|p l IH]; intros w Hnd Hin.
  - exists (style_property_spec_pool w). split.
    + cbn [foldl]. unfold set_pool. now destruct w.
    + intros k. cbn [fmap list_fmap]. rewrite decide_False; [reflexivity|].
      apply not_elem_of_nil.
  - cbn [fmap list_fmap] in Hnd. apply NoDup_cons in Hnd as [Hp Hnd].
    destruct (Hin p) as [p0 Hp0]; [apply elem_of_cons; now left|].
    cbn [foldl]. unfold g_param_spec_pool_remove at 2.
    change (owner_type p, name p) with (pool_key p). rewrite Hp0.
    set (w1 := set_pool (delete (pool_key p) (style_property_spec_pool w)) w).
    destruct (IH w1 Hnd) as (pool' & Heq & Hlookup).
    { intros q Hq. subst w1. cbn [style_property_spec_pool set_pool].
      rewrite lookup_delete_ne.
      - apply Hin. apply elem_of_cons. now right.
      - intros E. apply Hp. rewrite E. apply list_elem_of_fmap. eauto. }
    exists pool'. split; [exact Heq|].
    intros k. rewrite Hlookup. subst w1. cbn [style_property_spec_pool set_pool].
    cbn [fmap list_fmap].
    destruct (decide (k = pool_key p)) as [->|Hne].
    + rewrite (decide_True (P := _ ∈ _ :: _)) by (apply elem_of_cons; now left).
      rewrite lookup_delete_eq. now case_decide.
    + rewrite lookup_delete_ne by congruence.
      repeat case_decide; try reflexivity.
      * exfalso. apply H0. apply elem_of_cons. now right.
      * exfalso. apply elem_of_cons in H0 as [?|?]; congruence.
Qed.

(** X17: finalising the interface removes its own properties only.  In a
    pool where every spec sits under its own owner type and name,
    [mx_stylable_base_finalize] removes exactly the specs whose owner is the
    interface type itself and keeps every other one, among them all that
    classes have installed with [mx_stylable_iface_install_property] under
    their own type; it raises no warning and touches nothing else. *)
Theorem base_finalize_removes_own (iface_type : GType) (w : World) :
  iface_type <> G_TYPE_INVALID ->
  keyed (style_property_spec_pool w) ->
  mx_stylable_base_finalize iface_type w
  = (set_pool (filter (fun kp => fst (fst kp) <> iface_type)
                 (style_property_spec_pool w)) w, []).
Proof.
  intros Htype Hk. unfold mx_stylable_base_finalize, g_param_spec_pool_list_owned.
  assert (Hpos : (0 <? iface_type)%N = true)
    by (apply N.ltb_lt; unfold G_TYPE_INVALID in Htype; lia).
  rewrite Hpos.
  destruct (remove_all
              (filter (fun pspec => owner_type pspec = iface_type)
                 (snd <$> map_to_list (style_property_spec_pool w))) w)
    as (pool' & -> & Hlookup).
  - now apply owned_keys_NoDup.
  - intros p Hp.
    apply (owned_spec (style_property_spec_pool w) iface_type (pool_key p) Hk).
    apply list_elem_of_fmap. eauto.
  - f_equal. f_equal. apply map_eq. intros k. rewrite Hlookup.
    apply option_eq. intros p. rewrite map_lookup_filter_Some. cbn [fst].
    case_decide as Hin.
    + apply (owned_spec _ _ _ Hk) in Hin as [_ Howner]. split; [discriminate|tauto].
    + split; [|tauto]. intros Hp. split; [exact Hp|].
      intros Howner. apply Hin. apply (owned_spec _ _ _ Hk). eauto.
Qed.

Lemma base_finalize_removes_own_witness :
  let w := mx_stylable_iface_install_property Demo.types (Some Demo.default_iface)
             5%N (Some Demo.y_spacing)
             (mx_stylable_iface_install_property Demo.types
                (Some Demo.default_iface) Demo.T_ACTOR (Some Demo.x_spacing)
                Demo.w_fresh) in
  mx_stylable_base_finalize 5%N w
  = (set_pool (filter (fun kp => fst (fst kp) <> 5%N)
                 (style_property_spec_pool w)) w, []).
Proof.
  intros w. apply (base_finalize_removes_own 5%N w); [discriminate|].
  apply (bool_decide_unpack _). vm_compute. exact I.
Defined.

(** *** The default [set_style] *)

Lemma heap_g_object_unref_other (q : pointer) (w : World) (a : positive) :
  q <> Some a -> heap (g_object_unref q w) !! a = heap w !! a.
Proof.
  intros Hne. unfold g_object_unref, object_at.
  destruct q as [p|]; [|reflexivity].
  destruct (heap w !! p); [|reflexivity].
  destruct (1 <? ref_count g)%positive; cbn [heap set_heap].
  - apply lookup_insert_ne. congruence.
  - apply lookup_delete_ne. congruence.
Qed.

Lemma heap_g_signal_emit (q : pointer) (sig : signal) (detail : option GQuark)
    (varargs : list gvalue) (w : World) :
  heap (g_signal_emit q sig detail varargs w) = heap w.
Proof.
  unfold g_signal_emit. destruct q; [|reflexivity].
  now destruct (object_at w (Some p)).
Qed.

Lemma heap_g_object_notify (q : pointer) (property_name : string) (w : World) :
  heap (g_object_notify q property_name w) = heap w.
Proof.
  unfold g_object_notify. destruct q; [|reflexivity].
  now destruct (object_at w (Some p)).
Qed.

Lemma get_style_state (ts : TypeSystem) (w : World) (a : positive)
    (iface : MxStylableIface) :
  MX_STYLABLE_GET_IFACE ts (Some a) w = Some iface ->
  snd (mx_stylable_get_style ts (Some a) w) = w.
Proof.
  intros H. unfold mx_stylable_get_style. rewrite H.
  now destruct (get_style iface).
Qed.

(** The object at [a] after the two references that [mx_stylable_set_style]
    takes first: the type and the data are those of before. *)
Lemma object_after_refs (q1 q2 : pointer) (w : World) (a : positive) (o : GObject) :
  heap w !! a = Some o ->
  exists o2,
    heap (snd (g_object_ref_sink q2 (snd (g_object_ref q1 w)))) !! a = Some o2
    /\ g_type o2 = g_type o /\ qdata o2 = qdata o.
Proof.
  intros Ho.
  assert (H1 : exists o1, heap (snd (g_object_ref q1 w)) !! a = Some o1
                          /\ g_type o1 = g_type o /\ qdata o1 = qdata o).
  { unfold g_object_ref, object_at. destruct q1 as [p|]; [|eauto].
    destruct (heap w !! p) as [op|] eqn:Hp; [|eauto].
    cbn [snd heap set_heap]. destruct (decide (p = a)) as [->|Hne].
    - rewrite lookup_insert_eq. rewrite Ho in Hp. injection Hp as <-. eauto.
    - rewrite lookup_insert_ne by exact Hne. eauto. }
  destruct H1 as (o1 & Ho1 & Ht1 & Hd1).
  set (w1 := snd (g_object_ref q1 w)) in *.
  unfold g_object_ref_sink, object_at. destruct q2 as [p|].
  2: { exists o1. cbn [snd log heap]. rewrite <- Ht1, <- Hd1. eauto. }
  destruct (heap w1 !! p) as [op|] eqn:Hp.
  2: { exists o1. cbn [snd log heap]. rewrite <- Ht1, <- Hd1. eauto. }
  destruct (decide (p = a)) as [->|Hne].
  - rewrite Ho1 in Hp. injection Hp as <-.
    destruct (floating o1); cbn [snd heap set_heap]; rewrite lookup_insert_eq;
      eexists; (split; [reflexivity|]); cbn; rewrite <- Ht1, <- Hd1; eauto.
  - destruct (floating op); cbn [snd heap set_heap];
      rewrite lookup_insert_ne by exact Hne;
      exists o1; rewrite <- Ht1, <- Hd1; eauto.
Qed.



Lemma trace_g_object_unref_live (p : positive) (w : World) :
  is_Some (heap w !! p) -> trace (g_object_unref (Some p) w) = trace w.
Proof.
  intros [o Ho]. unfold g_object_unref, object_at. rewrite Ho.
  now destruct (1 <? ref_count o)%positive.
Qed.

Lemma g_object_notify_live (w : World) (a : positive) (o : GObject)
    (property_name : string) :
  heap w !! a = Some o ->
  g_object_notify (Some a) property_name w = log (ObjectNotify a property_name) w.
Proof. intros H. unfold g_object_notify, object_at. now rewrite H. Qed.

(** Storing a style in the data list of a live object: the events are those
    of before when the entry that is replaced holds a live object or none. *)
Lemma trace_store_style (w : World) (a s : positive) (o : GObject) :
  heap w !! a = Some o ->
  stored_style_live w a ->
  trace (g_object_set_qdata_full (Some a) quark_style (Some (DataObject s))
           destroy_g_object_unref w) = trace w.
Proof.
  intros Ho Hlive.
  unfold stored_style_live, stored_style, held_under, qdata_at in Hlive.
  rewrite Ho in Hlive. cbn [fmap option_fmap option_map] in Hlive.
  unfold g_object_set_qdata_full, object_at. rewrite Ho.
  destruct (qdata o !! quark_style) as [[[prev|nqueue] []]|];
    cbn [run_destroy]; try reflexivity.
  rewrite trace_g_object_unref_live; [reflexivity|].
  cbn [heap set_heap]. destruct (decide (a = prev)) as [->|Hne].
  - rewrite lookup_insert_eq. eauto.
  - rewrite lookup_insert_ne by exact Hne.
    unfold refs in Hlive. destruct (heap w !! prev); [eauto|lia].
Qed.



(** *** Reading a style property *)

Lemma pool_g_object_ref (q : pointer) (w : World) :
  style_property_spec_pool (snd (g_object_ref q w)) = style_property_spec_pool w.
Proof.
  unfold g_object_ref. destruct q; [|reflexivity].
  now destruct (object_at w (Some p)).
Qed.

Lemma pool_g_object_unref (q : pointer) (w : World) :
  style_property_spec_pool (g_object_unref q w) = style_property_spec_pool w.
Proof.
  unfold g_object_unref. destruct q; [|reflexivity].
  destruct (object_at w (Some p)) as [o|]; [|reflexivity].
  now destruct (1 <? ref_count o)%positive.
Qed.

Lemma pool_g_object_ref_sink (q : pointer) (w : World) :
  style_property_spec_pool (snd (g_object_ref_sink q w))
  = style_property_spec_pool w.
Proof.
  unfold g_object_ref_sink. destruct q; [|reflexivity].
  destruct (object_at w (Some p)) as [o|]; [|reflexivity].
  now destruct (floating o).
Qed.

Lemma pool_g_object_set_qdata_full (q : pointer) (quark : GQuark)
    (data : option gdata) (destroy : GDestroyNotify) (w : World) :
  style_property_spec_pool (g_object_set_qdata_full q quark data destroy w)
  = style_property_spec_pool w.
Proof.
  unfold g_object_set_qdata_full. destruct q; [|reflexivity].
  destruct (object_at w (Some p)) as [o|]; [|reflexivity].
  destruct (qdata o !! quark) as [[[prev|nqueue] []]|]; cbn [run_destroy];
    try reflexivity.
  now rewrite pool_g_object_unref.
Qed.

Lemma pool_g_signal_emit (q : pointer) (sig : signal) (detail : option GQuark)
    (varargs : list gvalue) (w : World) :
  style_property_spec_pool (g_signal_emit q sig detail varargs w)
  = style_property_spec_pool w.
Proof.
  unfold g_signal_emit. destruct q; [|reflexivity].
  now destruct (object_at w (Some p)).
Qed.

Lemma pool_g_object_notify (q : pointer) (property_name : string) (w : World) :
  style_property_spec_pool (g_object_notify q property_name w)
  = style_property_spec_pool w.
Proof.
  unfold g_object_notify. destruct q; [|reflexivity].
  now destruct (object_at w (Some p)).
Qed.

(** The default [set_style] leaves the pool alone. *)
Lemma pool_default_set_style (ts : TypeSystem) (w : World) (a : positive)
    (style : pointer) (iface : MxStylableIface) :
  MX_STYLABLE_GET_IFACE ts (Some a) w = Some iface ->
  set_style iface = None ->
  style_property_spec_pool (mx_stylable_set_style ts (Some a) style w)
  = style_property_spec_pool w.
Proof.
  intros Hiface Hset.
  pose proof (get_style_state ts w a iface Hiface) as Hstate.
  unfold mx_stylable_set_style. rewrite Hiface, Hset.
  destruct (MX_IS_STYLE ts style w); cbn [negb]; [|reflexivity].
  destruct (mx_stylable_get_style ts (Some a) w) as [old w0].
  cbn [snd] in Hstate. subst w0.
  rewrite (surjective_pairing (g_object_ref_sink style (snd (g_object_ref old w)))).
  now rewrite pool_g_object_notify, pool_g_object_unref, pool_g_signal_emit,
    pool_g_object_set_qdata_full, pool_g_object_ref_sink, pool_g_object_ref.
Qed.



(** *** Notifying while frozen *)

(** X21: a notification of a frozen object waits.  When the queue of a
    stylable object is frozen (with room below 65535 for one more freeze and
    one more entry), [mx_stylable_notify] of a known, readable property
    emits nothing and logs nothing: it puts the spec at the head of the
    queue, leaves the freeze count and every reference count as they were,
    and the object stays frozen. *)
Theorem notify_while_frozen_waits (ts : TypeSystem) (w : World) (a p : positive)
    (nqueue : GObjectNotifyQueue) (property_name : string) (pspec : GParamSpec) :
  known ts w a property_name pspec ->
  g_object_notify_queue_from_object (Some a) w = Some nqueue ->
  0 < freeze_count nqueue < 65535 ->
  n_pspecs nqueue < 65535 ->
  let w' := mx_stylable_notify ts (Some a) (Some property_name) w in
  trace w' = trace w
  /\ g_object_notify_queue_from_object (Some a) w'
     = Some {| pspecs := pspec :: pspecs nqueue;
               n_pspecs := n_pspecs nqueue + 1;
               freeze_count := freeze_count nqueue |}
  /\ frozen w' a
  /\ refs w' p = refs w p.
Proof.
  intros Hknown Hq Hcount Hn.
  destruct (known_object ts w a property_name pspec Hknown)
    as (o & Ho & Hi & Hlookup & Hread).
  rewrite (from_object_live w a o Ho) in Hq.
  cbv zeta.
  rewrite (notify_frozen ts w a o nqueue property_name pspec
             Ho Hi Hq Hcount Hn Hlookup Hread).
  split; [reflexivity|].
  unfold frozen. rewrite from_object_insert, queue_of_put.
  split; [reflexivity|]. split; [cbn [freeze_count]; lia|].
  rewrite refs_insert. case_decide as E; [|reflexivity].
  subst p. now rewrite (refs_live w a o Ho).
Qed.

Lemma notify_while_frozen_waits_witness :
  let w := mx_stylable_freeze_notify Demo.types (Some Demo.button)
             Demo.w_installed in
  let w' := mx_stylable_notify Demo.types (Some Demo.button) (Some "y-spacing") w in
  trace w' = trace w
  /\ g_object_notify_queue_from_object (Some Demo.button) w'
     = Some {| pspecs := [stamped Demo.types Demo.T_ACTOR Demo.y_spacing];
               n_pspecs := 0 + 1;
               freeze_count := 1 |}
  /\ frozen w' Demo.button
  /\ refs w' Demo.style_a = refs w Demo.style_a.
Proof.
  intros w.
  apply (notify_while_frozen_waits Demo.types w Demo.button Demo.style_a
           {| pspecs := []; n_pspecs := 0; freeze_count := 1 |} "y-spacing"
           (stamped Demo.types Demo.T_ACTOR Demo.y_spacing));
    [split; [reflexivity|split; [vm_compute; reflexivity|vm_compute; discriminate]]
    |vm_compute; reflexivity|simpl; lia|simpl; lia].
Defined.

End StylableMore.
